(** * M3U8 playlist parser and segment download pipeline

    A shallow embedding of [src/utils/videoDownloader.ts]: the static
    methods of [M3U8Parser] ([parsePlaylist], [resolveUrl]) and the
    methods of [VideoDownloader] ([downloadM3U8], [cancelDownload]),
    together with the fragments of the ECMAScript library they call
    (strings of UTF-16 code units, IEEE 754 doubles, [parseInt],
    [parseFloat], [Math.round], typed arrays), and of the handlers
    [handleUrlSubmit] and [handleDownload] of [src/App.tsx], which call
    them. *)

From Stdlib Require Import List Bool Arith ZArith NArith PArith Lia.
From Stdlib Require Import QArith Qround Qpower Qreduction Lqa.
From Stdlib Require Import Strings.Ascii Strings.String Strings.Byte DecimalString.
From Stdlib Require Import SpecFloat.
Import ListNotations.

Local Open Scope string_scope.
Local Open Scope list_scope.

(* ================================================================== *)
(** * ECMAScript strings *)
(* ================================================================== *)

(** A JavaScript string is a finite sequence of UTF-16 code units.  All the
    string methods used by the source ([split], [trim], [startsWith],
    [lastIndexOf], [substring], [match] without the [u] flag) work on code
    units, so a string is a list of numbers. *)
Module Js.

Definition code_unit := N.
Definition jsstring := list code_unit.

(** A string literal of the source, given by its ASCII characters. *)
Definition lit (s : string) : jsstring :=
  map N_of_ascii (list_ascii_of_string s).

Definition LF : code_unit := 10%N.
Definition slash : code_unit := 47%N.
Definition colon : code_unit := 58%N.
Definition hash : code_unit := 35%N.
Definition dot : code_unit := 46%N.

(** [WhiteSpace] and [LineTerminator] code points of ECMA-262, the
    characters removed by [String.prototype.trim] and skipped by [parseInt]
    and [parseFloat]. *)
Definition isWhiteSpace (c : code_unit) : bool :=
  existsb (N.eqb c)
    [9; 10; 11; 12; 13; 32; 160; 5760;
     8192; 8193; 8194; 8195; 8196; 8197; 8198; 8199; 8200; 8201; 8202;
     8232; 8233; 8239; 8287; 12288; 65279]%N.

Fixpoint dropWhile {A} (f : A -> bool) (l : list A) : list A :=
  match l with
  | [] => []
  | x :: l' => if f x then dropWhile f l' else l
  end.

Fixpoint takeWhile {A} (f : A -> bool) (l : list A) : list A :=
  match l with
  | [] => []
  | x :: l' => if f x then x :: takeWhile f l' else []
  end.

Definition trimStart (s : jsstring) : jsstring := dropWhile isWhiteSpace s.
Definition trimEnd (s : jsstring) : jsstring :=
  rev (dropWhile isWhiteSpace (rev s)).

(** [s.trim()] *)
Definition trim (s : jsstring) : jsstring := trimEnd (trimStart s).

(** [s.startsWith(prefix)] *)
Fixpoint startsWith (s prefix : jsstring) {struct prefix} : bool :=
  match prefix, s with
  | [], _ => true
  | _ :: _, [] => false
  | p :: prefix', c :: s' => N.eqb c p && startsWith s' prefix'
  end.

(** [s.split(sep)] for a separator of one code unit. *)
Fixpoint split (sep : code_unit) (s : jsstring) : list jsstring :=
  match s with
  | [] => [[]]
  | c :: s' =>
      if N.eqb c sep then [] :: split sep s'
      else match split sep s' with
           | [] => [[c]]
           | w :: ws => (c :: w) :: ws
           end
  end.

(** [s.lastIndexOf(c)] for a needle of one code unit; [-1] when absent. *)
Fixpoint lastIndexOf_from (i : Z) (found : Z) (c : code_unit) (s : jsstring) : Z :=
  match s with
  | [] => found
  | x :: s' => lastIndexOf_from (i + 1) (if N.eqb x c then i else found) c s'
  end.

Definition lastIndexOf (s : jsstring) (c : code_unit) : Z :=
  lastIndexOf_from 0 (-1) c s.

(** [s.substring(a, b)]: both indices are clamped to [0 .. s.length] and
    swapped when [a > b]. *)
Definition substring (s : jsstring) (a b : Z) : jsstring :=
  let len := Z.of_nat (List.length s) in
  let a' := Z.min (Z.max a 0) len in
  let b' := Z.min (Z.max b 0) len in
  let from := Z.min a' b' in
  let to := Z.max a' b' in
  firstn (Z.to_nat (to - from)) (skipn (Z.to_nat from) s).

(** Decimal digits of a non-negative integer, as produced by the template
    literal [`${n}`] on an integral Number below 2^53. *)
Definition decimal (n : nat) : jsstring :=
  lit (NilZero.string_of_uint (Nat.to_uint n)).

Definition isDigit (c : code_unit) : bool := (48 <=? c)%N && (c <=? 57)%N.
Definition digitValue (c : code_unit) : Z := Z.of_N c - 48.

(** [s === t] on strings. *)
Fixpoint string_eqb (s t : jsstring) : bool :=
  match s, t with
  | [], [] => true
  | c :: s', d :: t' => N.eqb c d && string_eqb s' t'
  | _, _ => false
  end.

(** Thrown values.  An object that is an [instanceof Error] (which
    includes [TypeError] and the [DOMException] of an aborted fetch) is
    known by its [name] and [message]; any other thrown value by the
    string it converts to. *)
Inductive thrown :=
| ErrorObject (name message : jsstring)
| OtherValue (toString : jsstring).

(** [new Error(message)] *)
Definition Error (message : jsstring) : thrown :=
  ErrorObject (lit "Error") message.

(** The [TypeError] raised by a property access on [undefined] or [null]
    (the message is the one V8 prints). *)
Definition TypeError_reading (base property : string) : thrown :=
  ErrorObject (lit "TypeError")
    (lit "Cannot read properties of " ++ lit base ++ lit " (reading '"
       ++ lit property ++ lit "')").

(** [`${error}`]: [Error.prototype.toString] for error objects. *)
Definition toString (e : thrown) : jsstring :=
  match e with
  | ErrorObject [] message => message
  | ErrorObject name [] => name
  | ErrorObject name message => name ++ lit ": " ++ message
  | OtherValue str => str
  end.

(** The outcome of evaluating a function body. *)
Inductive completion (A : Type) :=
| Normal (a : A)
| Throw (e : thrown).
Arguments Normal {A} a.
Arguments Throw {A} e.

End Js.
Import Js.

(* ================================================================== *)
(** * ECMAScript Numbers *)
(* ================================================================== *)

(** The Number type is IEEE 754 binary64.  Its values are those of the
    Standard Library's [spec_float] (signed zeros, signed infinities, one
    NaN, and finite values [m * 2^e] with [m < 2^53] and
    [-1074 <= e <= 971], normalised so that [2^52 <= m] unless
    [e = -1074]).  Every arithmetic operation returns the exact rational
    result rounded to the nearest representable value, ties to the even
    mantissa, which is how IEEE 754 and ECMA-262 define them. *)
Module Number.

Definition number := spec_float.

Definition NaN : number := S754_nan.
Definition zero : number := S754_zero false.

(** The rational value of a finite number. *)
Definition to_Q (x : number) : Q :=
  match x with
  | S754_finite s m e =>
      (inject_Z (if s then Zneg m else Zpos m) * 2 ^ e)%Q
  | _ => 0%Q
  end.

(** Magnitude of a finite number. *)
Definition mag (x : number) : Q :=
  match x with
  | S754_finite _ m e => (inject_Z (Zpos m) * 2 ^ e)%Q
  | _ => 0%Q
  end.

(** [floor (log2 q)] for a positive rational [q]. *)
Definition flog2 (q : Q) : Z :=
  let k := (Z.log2 (Qnum q) - Z.log2 (Zpos (Qden q)))%Z in
  if Qle_bool (2 ^ k) q then k else (k - 1)%Z.

(** The integer nearest to [q], ties to even. *)
Definition round_half_even (q : Q) : Z :=
  let f := Qfloor q in
  match (q - inject_Z f ?= 1 # 2)%Q with
  | Lt => f
  | Gt => (f + 1)%Z
  | Eq => if Z.even f then f else (f + 1)%Z
  end.

(** The exponent of the doubles around a positive rational [q]: that of
    the binade of [q], or the subnormal exponent. *)
Definition exponent_of (q : Q) : Z := Z.max (flog2 q - 52) (-1074).

(** Rounding of a positive rational [q] to the nearest double, with sign
    [s]: the mantissa is [q / 2^e] rounded to an integer; a mantissa that
    reaches [2^53] moves to the next binade, a result beyond the largest
    double is an infinity, and a mantissa of 0 is a zero. *)
Definition round_pos (s : bool) (q : Q) : number :=
  let q := Qred q in
  let e := exponent_of q in
  let m := round_half_even (q / 2 ^ e) in
  let '(m, e) := if (m =? 2 ^ 53)%Z then (2 ^ 52, e + 1)%Z else (m, e) in
  match m with
  | Zpos p => if (971 <? e)%Z then S754_infinity s else S754_finite s p e
  | _ => S754_zero s
  end.

(** The value [round_pos] aims at, before the overflow test. *)
Definition rounded_value (q : Q) : Q :=
  (inject_Z (round_half_even (q / 2 ^ exponent_of q)) * 2 ^ exponent_of q)%Q.

(** Rounding of an arbitrary rational; an exact zero is [+0]. *)
Definition of_Q (q : Q) : number :=
  match (q ?= 0)%Q with
  | Eq => S754_zero false
  | Gt => round_pos false q
  | Lt => round_pos true (- q)
  end.

Definition of_Z (z : Z) : number := of_Q (inject_Z z).
Definition of_nat (n : nat) : number := of_Z (Z.of_nat n).

(** [x + y] *)
Definition add (x y : number) : number :=
  match x, y with
  | S754_nan, _ | _, S754_nan => S754_nan
  | S754_infinity sx, S754_infinity sy =>
      if Bool.eqb sx sy then x else S754_nan
  | S754_infinity _, _ => x
  | _, S754_infinity _ => y
  | S754_zero sx, S754_zero sy => S754_zero (sx && sy)
  | S754_zero _, _ => y
  | _, S754_zero _ => x
  | S754_finite _ _ _, S754_finite _ _ _ => of_Q (to_Q x + to_Q y)
  end.

Definition sign_of (x : number) : bool :=
  match x with
  | S754_zero s | S754_infinity s | S754_finite s _ _ => s
  | S754_nan => false
  end.

(** [x * y] *)
Definition mul (x y : number) : number :=
  let s := xorb (sign_of x) (sign_of y) in
  match x, y with
  | S754_nan, _ | _, S754_nan => S754_nan
  | S754_infinity _, S754_zero _ | S754_zero _, S754_infinity _ => S754_nan
  | S754_infinity _, _ | _, S754_infinity _ => S754_infinity s
  | S754_zero _, _ | _, S754_zero _ => S754_zero s
  | S754_finite _ _ _, S754_finite _ _ _ => round_pos s (mag x * mag y)
  end.

(** [x / y] *)
Definition div (x y : number) : number :=
  let s := xorb (sign_of x) (sign_of y) in
  match x, y with
  | S754_nan, _ | _, S754_nan => S754_nan
  | S754_infinity _, S754_infinity _ | S754_zero _, S754_zero _ => S754_nan
  | S754_infinity _, _ | _, S754_zero _ => S754_infinity s
  | S754_zero _, _ | _, S754_infinity _ => S754_zero s
  | S754_finite _ _ _, S754_finite _ _ _ => round_pos s (mag x / mag y)
  end.

(** [x <= y] *)
Definition leb (x y : number) : bool :=
  match x, y with
  | S754_nan, _ | _, S754_nan => false
  | S754_infinity true, _ | _, S754_infinity false => true
  | S754_infinity false, _ | _, S754_infinity true => false
  | _, _ => Qle_bool (to_Q x) (to_Q y)
  end.

(** [Math.round(x)]: the integral Number closest to [x], the one closer to
    +Infinity on a tie; a zero result keeps the sign of [x]. *)
Definition Math_round (x : number) : number :=
  match x with
  | S754_finite s _ _ =>
      let z := Qfloor (to_Q x + (1 # 2)) in
      if (z =? 0)%Z then S754_zero s else of_Z z
  | _ => x
  end.

(** A positive finite number whose magnitude lies between two powers of
    two. *)
Definition in_range (x : number) (lo hi : Z) : Prop :=
  (exists m e, x = S754_finite false m e)
  /\ (2 ^ lo <= mag x)%Q /\ (mag x <= 2 ^ hi)%Q.

(** ** Numeric literals in strings *)

Definition digits_value (radix : Z) (ds : jsstring) : Z :=
  fold_left (fun acc c => (acc * radix + digitValue c)%Z) ds 0%Z.

Definition strip_sign (s : jsstring) : bool * jsstring :=
  match s with
  | 43%N :: s' => (false, s')
  | 45%N :: s' => (true, s')
  | _ => (false, s)
  end.

(** The value of an [ExponentPart] at the head of [s], or 0 when [s] does
    not start with one. *)
Definition exponentPart (s : jsstring) : Z :=
  match s with
  | c :: s' =>
      if N.eqb c 101 || N.eqb c 69 then
        let '(neg, s'') := strip_sign s' in
        match takeWhile isDigit s'' with
        | [] => 0%Z
        | ds => if neg then (- digits_value 10 ds)%Z else digits_value 10 ds
        end
      else 0%Z
  | [] => 0%Z
  end.

Inductive literal :=
| LitInfinity
| LitDecimal (q : Q).

(** The longest prefix of [s] that is a [StrUnsignedDecimalLiteral], as a
    value. *)
Definition strUnsignedDecimalLiteral (s : jsstring) : option literal :=
  if startsWith s (lit "Infinity") then Some LitInfinity
  else
    let ip := takeWhile isDigit s in
    let r1 := skipn (List.length ip) s in
    match r1 with
    | 46%N :: r2 =>
        let fp := takeWhile isDigit r2 in
        match ip, fp with
        | [], [] => None
        | _, _ =>
            let r3 := skipn (List.length fp) r2 in
            Some (LitDecimal
                    (inject_Z (digits_value 10 (ip ++ fp))
                     * 10 ^ (exponentPart r3 - Z.of_nat (List.length fp)))%Q)
        end
    | _ =>
        match ip with
        | [] => None
        | _ => Some (LitDecimal
                       (inject_Z (digits_value 10 ip) * 10 ^ exponentPart r1)%Q)
        end
    end.

(** [parseFloat(s)] *)
Definition parseFloat (s : jsstring) : number :=
  let '(neg, u) := strip_sign (trimStart s) in
  match strUnsignedDecimalLiteral u with
  | None => NaN
  | Some LitInfinity => S754_infinity neg
  | Some (LitDecimal q) =>
      if Qeq_bool q 0 then S754_zero neg else round_pos neg q
  end.

Definition isHexDigit (c : code_unit) : bool :=
  isDigit c || ((97 <=? c)%N && (c <=? 102)%N) || ((65 <=? c)%N && (c <=? 70)%N).

Definition hexDigitValue (c : code_unit) : Z :=
  if isDigit c then digitValue c
  else if (97 <=? c)%N then (Z.of_N c - 87)%Z
  else (Z.of_N c - 55)%Z.

(** [parseInt(s)] with no radix argument. *)
Definition parseInt (s : jsstring) : number :=
  let '(neg, u) := strip_sign (trimStart s) in
  let hex := startsWith u (lit "0x") || startsWith u (lit "0X") in
  let mathInt :=
    if hex then
      match takeWhile isHexDigit (skipn 2 u) with
      | [] => None
      | ds => Some (fold_left (fun acc c => (acc * 16 + hexDigitValue c)%Z) ds 0%Z)
      end
    else
      match takeWhile isDigit u with
      | [] => None
      | ds => Some (digits_value 10 ds)
      end in
  match mathInt with
  | None => NaN
  | Some 0%Z => S754_zero neg
  | Some z => round_pos neg (inject_Z z)
  end.

End Number.
Import Number.

(* ================================================================== *)
(** * M3U8Parser *)
(* ================================================================== *)

(** [src/types/index.ts] *)
Module Types.

Record M3U8Segment := {
  duration : number;
  uri : jsstring;
  title : option jsstring
}.

Record M3U8Playlist := {
  segments : list M3U8Segment;
  totalDuration : number;
  targetDuration : number;
  version : number;
  mediaSequence : number
}.

(** The counters of a progress snapshot are array lengths, indices and
    byte counts: integral Numbers far below 2^53, where the arithmetic of
    doubles is exact; they are natural numbers here.  The percentage comes
    out of a division and stays a Number. *)
Record DownloadProgress := {
  segmentIndex : nat;
  totalSegments : nat;
  downloadedBytes : nat;
  totalBytes : nat;
  percentage : number
}.

End Types.

Module M3U8Parser.

Definition isAbsolute (url : jsstring) : bool :=
  startsWith url (lit "http://") || startsWith url (lit "https://").

(** [private static resolveUrl(url, baseUrl)] *)
Definition resolveUrl (url baseUrl : jsstring) : jsstring :=
  if isAbsolute url then url
  else
    let baseDir := substring baseUrl 0 (lastIndexOf baseUrl slash + 1) in
    baseDir ++ url.

(** [line.split(':')[1]]; an absent element is [undefined], which
    [parseInt] and [parseFloat] convert to the string ["undefined"]. *)
Definition field1 (line : jsstring) : jsstring :=
  match nth_error (split colon line) 1 with
  | Some v => v
  | None => lit "undefined"
  end.

Definition isDurationChar (c : code_unit) : bool := isDigit c || N.eqb c dot.

(** The regular expression of the source is the tag [#EXTINF:], then
    capture group 1, [[\d.]+], then an optional comma, then an optional
    group 2 of any characters.  This is capture group 1 of a match that
    starts at the head of [s].  After the tag, the class of digits and
    dots is repeated greedily and the rest of the pattern (the optional
    comma and the optional group) also matches the empty string, so no
    backtracking happens: the group is the longest run of digits and dots
    that follows the tag, and the match fails exactly when that run is
    empty. *)
Definition match_EXTINF_here (s : jsstring) : option jsstring :=
  if startsWith s (lit "#EXTINF:") then
    match takeWhile isDurationChar (skipn 8 s) with
    | [] => None
    | g1 => Some g1
    end
  else None.

(** [line.match] on the pattern above: the pattern is not anchored,
    so the match is searched at every position from the left; the result
    is [match[1]] or [None] for [null]. *)
Fixpoint match_EXTINF (s : jsstring) : option jsstring :=
  match match_EXTINF_here s with
  | Some g1 => Some g1
  | None =>
      match s with
      | [] => None
      | _ :: s' => match_EXTINF s'
      end
  end.

(** The local variables of [parsePlaylist] that the loop updates. *)
Record locals := {
  segments : list Types.M3U8Segment;
  currentDuration : number;
  targetDuration : number;
  version : number;
  mediaSequence : number
}.

Definition set_version (v : number) (st : locals) : locals :=
  {| segments := segments st; currentDuration := currentDuration st;
     targetDuration := targetDuration st; version := v;
     mediaSequence := mediaSequence st |}.

Definition set_targetDuration (v : number) (st : locals) : locals :=
  {| segments := segments st; currentDuration := currentDuration st;
     targetDuration := v; version := version st;
     mediaSequence := mediaSequence st |}.

Definition set_mediaSequence (v : number) (st : locals) : locals :=
  {| segments := segments st; currentDuration := currentDuration st;
     targetDuration := targetDuration st; version := version st;
     mediaSequence := v |}.

Definition set_currentDuration (v : number) (st : locals) : locals :=
  {| segments := segments st; currentDuration := v;
     targetDuration := targetDuration st; version := version st;
     mediaSequence := mediaSequence st |}.

(** [segments.push(seg); currentDuration = 0] *)
Definition push_segment (seg : Types.M3U8Segment) (st : locals) : locals :=
  {| segments := segments st ++ [seg]; currentDuration := zero;
     targetDuration := targetDuration st; version := version st;
     mediaSequence := mediaSequence st |}.

(** One iteration of the [for] loop of [parsePlaylist], on [lines[i]]. *)
Definition loop_body (baseUrl : jsstring) (st : locals) (line : jsstring) : locals :=
  if startsWith line (lit "#EXT-X-VERSION:") then
    set_version (parseInt (field1 line)) st
  else if startsWith line (lit "#EXT-X-TARGETDURATION:") then
    set_targetDuration (parseFloat (field1 line)) st
  else if startsWith line (lit "#EXT-X-MEDIA-SEQUENCE:") then
    set_mediaSequence (parseInt (field1 line)) st
  else if startsWith line (lit "#EXTINF:") then
    match match_EXTINF line with
    | Some g1 => set_currentDuration (parseFloat g1) st
    | None => st
    end
  else if negb (startsWith line (lit "#")) && (0 <? List.length line)%nat then
    let uri := resolveUrl line baseUrl in
    push_segment
      {| Types.duration := currentDuration st;
         Types.uri := uri;
         Types.title :=
           Some (lit "Segment " ++ decimal (List.length (segments st) + 1)) |}
      st
  else st.

Definition initial : locals :=
  {| segments := []; currentDuration := zero; targetDuration := zero;
     version := of_Z 1; mediaSequence := zero |}.

(** A string is truthy when it is not empty. *)
Definition truthy (s : jsstring) : bool :=
  match s with [] => false | _ :: _ => true end.

(** [content.split('\n').map(line => line.trim()).filter(line => line)] *)
Definition lines_of (content : jsstring) : list jsstring :=
  filter truthy (map trim (split LF content)).

(** [static parsePlaylist(content, baseUrl)] *)
Definition parsePlaylist (content baseUrl : jsstring)
  : completion Types.M3U8Playlist :=
  let lines := lines_of content in
  match lines with
  | [] => Throw (TypeError_reading "undefined" "startsWith")
  | line0 :: _ =>
      if negb (startsWith line0 (lit "#EXTM3U")) then
        Throw (Error (lit "Invalid M3U8 file format"))
      else
        let st := fold_left (loop_body baseUrl) lines initial in
        let totalDuration :=
          fold_left (fun sum segment => add sum (Types.duration segment))
                    (segments st) zero in
        Normal {| Types.segments := segments st;
                  Types.totalDuration := totalDuration;
                  Types.targetDuration := targetDuration st;
                  Types.version := version st;
                  Types.mediaSequence := mediaSequence st |}
  end.

End M3U8Parser.

(* ================================================================== *)
(** * VideoDownloader *)
(* ================================================================== *)

Module VideoDownloader.
Import Types.
Local Open Scope nat_scope.

Definition Uint8Array := list byte.

Record Blob := {
  bytes : list byte;
  type : jsstring
}.

(** ** The environment of a run

    [downloadM3U8] is an [async] function: between its steps it calls the
    two handlers it was given and awaits the network.  A run is modelled
    against a [World] that fixes what the environment does at each of these
    points, and the run records the calls it makes in a trace.

    The handlers are observers: they return normally.  A handler may call
    [cancelDownload()] on the downloader (the progress handler is the only
    code that runs between the creation of the abort controller and the
    first fetch).  While a fetch or the reading of its body is awaited,
    other tasks may call [cancelDownload()] as well. *)

Record Response := {
  ok : bool;
  statusText : jsstring;
  arrayBuffer : completion Uint8Array   (* how [response.arrayBuffer()] settles *)
}.

Record Settled := {
  cancelled_meanwhile : bool;     (* [cancelDownload()] ran during the await *)
  response : completion Response  (* how the promise of [fetch] settles *)
}.

Record World := {
  progress_handler_cancels : DownloadProgress -> bool;
  network : nat -> jsstring -> Settled   (* the [i]-th request, to an address *)
}.

Inductive Event :=
| onProgress_called (progress : DownloadProgress)
| onError_called (error : jsstring)
| fetch_called (uri : jsstring).

(** The field [abortController] of the downloader ([None] for [null],
    [Some b] for a controller whose [signal.aborted] is [b]) and the calls
    made so far, oldest first. *)
Record State := {
  abortController : option bool;
  trace : list Event
}.

(** ** A state and exception monad for method bodies *)

Definition M (A : Type) : Type := State -> completion A * State.

Definition ret {A} (a : A) : M A := fun st => (Normal a, st).

Definition bind {A B} (m : M A) (k : A -> M B) : M B :=
  fun st =>
    match m st with
    | (Normal a, st') => k a st'
    | (Throw e, st') => (Throw e, st')
    end.

Definition throw {A} (e : thrown) : M A := fun st => (Throw e, st).

(** [try { body } catch (error) { handler }] *)
Definition try_catch {A} (body : M A) (handler : thrown -> M A) : M A :=
  fun st =>
    match body st with
    | (Normal a, st') => (Normal a, st')
    | (Throw e, st') => handler e st'
    end.

Notation "x <- m ;; k" := (bind m (fun x => k))
  (at level 61, m at next level, right associativity).
Notation "m ;; k" := (bind m (fun _ => k))
  (at level 61, right associativity).

Definition emit (ev : Event) : M unit :=
  fun st => (Normal tt, {| abortController := abortController st;
                           trace := trace st ++ [ev] |}).

(** [this.abortController = new AbortController()] *)
Definition new_AbortController : M unit :=
  fun st => (Normal tt, {| abortController := Some false; trace := trace st |}).

(** [this.abortController.signal.aborted] *)
Definition signal_aborted : M bool :=
  fun st =>
    match abortController st with
    | Some aborted => (Normal aborted, st)
    | None => (Throw (TypeError_reading "null" "signal"), st)
    end.

(** [cancelDownload()] *)
Definition cancelDownload : M unit :=
  fun st =>
    match abortController st with
    | Some _ => (Normal tt, {| abortController := Some true; trace := trace st |})
    | None => (Normal tt, st)
    end.

(** The [DOMException] with which an aborted fetch rejects. *)
Definition AbortError : thrown :=
  ErrorObject (lit "AbortError") (lit "The user aborted a request.").

(** [error instanceof Error && error.name === 'AbortError'] *)
Definition isAbortError (error : thrown) : bool :=
  match error with
  | ErrorObject name _ => string_eqb name (lit "AbortError")
  | OtherValue _ => false
  end.

Definition onProgress (w : World) (progress : DownloadProgress) : M unit :=
  emit (onProgress_called progress) ;;
  if progress_handler_cancels w progress then cancelDownload else ret tt.

Definition onError (error : jsstring) : M unit :=
  emit (onError_called error).

(** [await fetch(uri, { signal, mode: 'cors' })], the [i]-th request of the
    run.  A signal that is already aborted rejects the call before any
    request is made. *)
Definition fetch (w : World) (i : nat) (uri : jsstring) : M Response :=
  aborted <- signal_aborted ;;
  if aborted then throw AbortError
  else
    emit (fetch_called uri) ;;
    let settled := network w i uri in
    (if cancelled_meanwhile settled then cancelDownload else ret tt) ;;
    match response settled with
    | Normal r => ret r
    | Throw e => throw e
    end.

(** [await promise] for a promise that has settled. *)
Definition await {A} (c : completion A) : M A :=
  match c with
  | Normal a => ret a
  | Throw e => throw e
  end.

(** [Math.round(((i + 1) / playlist.segments.length) * 100)] *)
Definition percentage_at (i length : nat) : number :=
  Math_round (mul (div (of_nat (i + 1)) (of_nat length)) (of_Z 100)).

(** The [for] loop over the segments: [rest] is what remains of
    [playlist.segments] from index [i] on; the other arguments are the
    local variables the loop updates.  The loop ends when [i] reaches
    [playlist.segments.length], that is when [rest] is empty. *)
Fixpoint download_loop (w : World) (playlist : M3U8Playlist)
    (rest : list M3U8Segment) (i : nat)
    (segments : list Uint8Array) (totalBytes downloadedBytes : nat)
  : M (list Uint8Array) :=
  match rest with
  | [] => ret segments
  | segment :: rest' =>
      aborted <- signal_aborted ;;
      if aborted then throw (Error (lit "Download cancelled"))
      else
        vars <-
          try_catch
            (response <- fetch w i (uri segment) ;;
             if negb (ok response) then
               throw (Error (lit "Failed to download segment "
                               ++ decimal (i + 1) ++ lit ": "
                               ++ statusText response))
             else
               uint8Array <- await (arrayBuffer response) ;;
               let segments := segments ++ [uint8Array] in
               let downloadedBytes := downloadedBytes + List.length uint8Array in
               let totalBytes := totalBytes + List.length uint8Array in
               onProgress w
                 {| segmentIndex := i + 1;
                    totalSegments := List.length (Types.segments playlist);
                    downloadedBytes := downloadedBytes;
                    totalBytes := totalBytes;
                    percentage :=
                      percentage_at i (List.length (Types.segments playlist)) |} ;;
               ret (segments, totalBytes, downloadedBytes))
            (fun error =>
               if isAbortError error then throw error
               else
                 onError (lit "Error downloading segment "
                            ++ decimal (i + 1) ++ lit ": " ++ toString error) ;;
                 throw error) ;;
        let '(segments, totalBytes, downloadedBytes) := vars in
        download_loop w playlist rest' (i + 1) segments totalBytes downloadedBytes
  end.

(** [combined.set(segment, offset)]: a [RangeError] when the source does
    not fit at the offset. *)
Definition typedArray_set (combined segment : Uint8Array) (offset : nat)
  : M Uint8Array :=
  if (List.length combined <? offset + List.length segment)%nat then
    throw (ErrorObject (lit "RangeError") (lit "offset is out of bounds"))
  else
    ret (firstn offset combined ++ segment
           ++ skipn (offset + List.length segment) combined).

(** [for (const segment of segments) { combined.set(segment, offset);
    offset += segment.length }] *)
Fixpoint combine_loop (segments : list Uint8Array) (combined : Uint8Array)
    (offset : nat) : M Uint8Array :=
  match segments with
  | [] => ret combined
  | segment :: segments' =>
      combined' <- typedArray_set combined segment offset ;;
      combine_loop segments' combined' (offset + List.length segment)
  end.

(** [async downloadM3U8(playlist, onProgress, onError)] *)
Definition downloadM3U8 (w : World) (playlist : M3U8Playlist) : M Blob :=
  new_AbortController ;;
  try_catch
    (onProgress w
       {| segmentIndex := 0;
          totalSegments := List.length (Types.segments playlist);
          downloadedBytes := 0;
          totalBytes := 0;
          percentage := zero |} ;;
     segments <- download_loop w playlist (Types.segments playlist) 0 [] 0 0 ;;
     let totalLength :=
       fold_left (fun sum segment => sum + List.length segment) segments 0 in
     let combined := repeat x00 totalLength in
     combined <- combine_loop segments combined 0 ;;
     ret {| bytes := combined; type := lit "video/mp4" |})
    (fun error =>
       if isAbortError error then throw (Error (lit "Download cancelled"))
       else throw error).

End VideoDownloader.

(* ================================================================== *)
(** * Notions used to state the properties *)
(* ================================================================== *)

Module Spec.
Import Types.

(** A line of the input text is blank when trimming leaves nothing, and a
    comment when its first character after trimming is [#]. *)
Definition is_blank (line : jsstring) : bool :=
  match trim line with [] => true | _ :: _ => false end.

Definition is_comment (line : jsstring) : bool :=
  startsWith (trim line) (lit "#").

(** The lines of the input text that are not blank. *)
Definition nonblank_lines (content : jsstring) : list jsstring :=
  filter (fun line => negb (is_blank line)) (split LF content).

(** The first non-blank line, trimmed, starts with the header tag. *)
Definition has_header (content : jsstring) : bool :=
  match nonblank_lines content with
  | line :: _ => startsWith (trim line) (lit "#EXTM3U")
  | [] => false
  end.

(** The non-comment, non-blank lines of the input text, trimmed, in the
    order of the text. *)
Definition reference_lines (content : jsstring) : list jsstring :=
  map trim
    (filter (fun line => negb (is_blank line) && negb (is_comment line))
            (split LF content)).

(** A trimmed line that the loop of [parsePlaylist] takes for a segment
    reference. *)
Definition is_reference (line : jsstring) : bool :=
  negb (startsWith line (lit "#")).

(** Every segment is titled by its position, counted from 1. *)
Definition titled_by_position (segs : list M3U8Segment) : Prop :=
  forall k seg,
    nth_error segs k = Some seg ->
    title seg = Some (lit "Segment " ++ decimal (k + 1)).

(** The error [parsePlaylist] raises for a missing header. *)
Definition FormatError : thrown := Error (lit "Invalid M3U8 file format").

(** The error with which a cancelled run fails. *)
Definition CancelledError : thrown := Error (lit "Download cancelled").

(** The sum of a list of Numbers, accumulated from the left from [+0]. *)
Fixpoint sum_from (acc : number) (xs : list number) : number :=
  match xs with
  | [] => acc
  | x :: xs' => sum_from (add acc x) xs'
  end.

Definition sum_durations (segs : list M3U8Segment) : number :=
  sum_from zero (map duration segs).

(** The durations of the segments of a parse result. *)
Definition durations_of (r : completion M3U8Playlist) : list number :=
  match r with
  | Normal playlist => map duration (segments playlist)
  | Throw _ => []
  end.

End Spec.

(** Notions used to state the properties of a run of [downloadM3U8]. *)
Module Run.
Import Types VideoDownloader.
Local Open Scope nat_scope.

(** A downloader on which no run is in progress; its [abortController]
    field holds whatever earlier use left there. *)
Definition idle (controller : option bool) : State :=
  {| abortController := controller; trace := [] |}.

(** The fetch of segment [i] succeeds: the promise of [fetch] resolves to a
    response with [ok] set, the body is read in full, and nobody calls
    [cancelDownload()] meanwhile. *)
Definition fetch_succeeds (w : World) (i : nat) (segment : M3U8Segment) : bool :=
  let settled := network w i (uri segment) in
  negb (cancelled_meanwhile settled)
  && match response settled with
     | Normal r =>
         ok r && match arrayBuffer r with Normal _ => true | Throw _ => false end
     | Throw _ => false
     end.

(** The bytes fetched for segment [i], when the fetch succeeds. *)
Definition body_of (w : World) (i : nat) (segment : M3U8Segment) : Uint8Array :=
  match response (network w i (uri segment)) with
  | Normal r => match arrayBuffer r with Normal body => body | Throw _ => [] end
  | Throw _ => []
  end.

(** The error raised inside the [try] block when the fetch of segment [i]
    fails: the rejection of [fetch], the error built for a response that is
    not [ok], or the rejection of [arrayBuffer]. *)
Definition failure_of (w : World) (i : nat) (segment : M3U8Segment)
  : option thrown :=
  match response (network w i (uri segment)) with
  | Throw e => Some e
  | Normal r =>
      if negb (ok r) then
        Some (Error (lit "Failed to download segment " ++ decimal (i + 1)
                       ++ lit ": " ++ statusText r))
      else match arrayBuffer r with
           | Throw e => Some e
           | Normal _ => None
           end
  end.

(** The fetched bodies of the segments [rest], which start at index [i]. *)
Fixpoint bodies_from (w : World) (i : nat) (rest : list M3U8Segment)
  : list Uint8Array :=
  match rest with
  | [] => []
  | segment :: rest' => body_of w i segment :: bodies_from w (i + 1) rest'
  end.

Definition bodies (w : World) (playlist : M3U8Playlist) : list Uint8Array :=
  bodies_from w 0 (segments playlist).

(** No handler call cancels the download. *)
Definition quiet_handlers (w : World) : Prop :=
  forall progress, progress_handler_cancels w progress = false.

(** All the fetches of the segments [rest], which start at index [i],
    succeed. *)
Definition all_succeed_from (w : World) (i : nat) (rest : list M3U8Segment) : Prop :=
  forall j segment,
    nth_error rest j = Some segment -> fetch_succeeds w (i + j) segment = true.

Definition all_succeed (w : World) (playlist : M3U8Playlist) : Prop :=
  all_succeed_from w 0 (segments playlist).

(** The progress snapshot emitted before the first segment. *)
Definition initial_progress (playlist : M3U8Playlist) : DownloadProgress :=
  {| segmentIndex := 0;
     totalSegments := List.length (segments playlist);
     downloadedBytes := 0;
     totalBytes := 0;
     percentage := zero |}.

(** The calls made by the loop over the segments [rest], which start at
    index [i], when every fetch succeeds. *)
Fixpoint loop_calls (w : World) (playlist : M3U8Playlist)
    (rest : list M3U8Segment) (i : nat) (totalBytes downloadedBytes : nat)
  : list Event :=
  match rest with
  | [] => []
  | segment :: rest' =>
      let n := List.length (body_of w i segment) in
      fetch_called (uri segment)
      :: onProgress_called
           {| segmentIndex := i + 1;
              totalSegments := List.length (segments playlist);
              downloadedBytes := downloadedBytes + n;
              totalBytes := totalBytes + n;
              percentage := percentage_at i (List.length (segments playlist)) |}
      :: loop_calls w playlist rest' (i + 1) (totalBytes + n) (downloadedBytes + n)
  end.

(** The arguments of the calls to the progress handler, the messages given
    to the error handler and the addresses fetched, in a trace. *)
Definition progress_events (tr : list Event) : list DownloadProgress :=
  flat_map (fun ev => match ev with onProgress_called p => [p] | _ => [] end) tr.

Definition error_events (tr : list Event) : list jsstring :=
  flat_map (fun ev => match ev with onError_called m => [m] | _ => [] end) tr.

Definition fetch_events (tr : list Event) : list jsstring :=
  flat_map (fun ev => match ev with fetch_called u => [u] | _ => [] end) tr.

(** A list of Numbers that never decreases from one element to the next. *)
Fixpoint non_decreasing (xs : list number) : Prop :=
  match xs with
  | [] => True
  | x :: xs' =>
      match xs' with
      | [] => True
      | y :: _ => leb x y = true /\ non_decreasing xs'
      end
  end.

End Run.

(** Notions used to state further properties of the parser. *)
Module More.
Import Types.

(** A Number that is not negative: NaN, or a zero, an infinity or a finite
    value whose sign bit is clear. *)
Definition nonnegative_or_NaN (x : number) : bool :=
  match x with
  | S754_nan => true
  | S754_zero s | S754_infinity s | S754_finite s _ _ => negb s
  end.

Definition VERSION_tag : jsstring := lit "#EXT-X-VERSION:".
Definition TARGETDURATION_tag : jsstring := lit "#EXT-X-TARGETDURATION:".
Definition MEDIA_SEQUENCE_tag : jsstring := lit "#EXT-X-MEDIA-SEQUENCE:".
Definition EXTINF_tag : jsstring := lit "#EXTINF:".

(** The last of the lines that starts with a tag. *)
Definition last_declaring (tag : jsstring) (lines : list jsstring)
  : option jsstring :=
  find (fun line => startsWith line tag) (rev lines).

(** The value a header tag ends up with: that of its last declaration,
    read by [read], or the default. *)
Definition declared (tag : jsstring) (read : jsstring -> number)
    (default : number) (lines : list jsstring) : number :=
  match last_declaring tag lines with
  | Some line => read (M3U8Parser.field1 line)
  | None => default
  end.

(** What a line does to the pending duration: a duration line that the
    pattern matches sets it, a segment reference uses it up, any other
    line leaves it. *)
Definition duration_set_by (line : jsstring) : option number :=
  if startsWith line EXTINF_tag then
    option_map parseFloat (M3U8Parser.match_EXTINF line)
  else if Spec.is_reference line then Some zero
  else None.

(** The pending duration after some lines, found from the last line
    backwards: the first line met that sets it decides. *)
Fixpoint pending_backwards (reversed : list jsstring) : number :=
  match reversed with
  | [] => zero
  | line :: earlier =>
      match duration_set_by line with
      | Some d => d
      | None => pending_backwards earlier
      end
  end.

Definition pending_duration (lines : list jsstring) : number :=
  pending_backwards (rev lines).

(** A comment line the parser has no use for: it starts with [#], it is
    none of the three header declarations, and if it is a duration line the
    pattern does not match it. *)
Definition ignored_line (line : jsstring) : bool :=
  startsWith line (lit "#")
  && negb (startsWith line VERSION_tag)
  && negb (startsWith line TARGETDURATION_tag)
  && negb (startsWith line MEDIA_SEQUENCE_tag)
  && (negb (startsWith line EXTINF_tag)
      || match M3U8Parser.match_EXTINF line with
         | Some _ => false
         | None => true
         end).

(** The pending duration and the durations of the segments built so far
    are not negative. *)
Definition durations_nonnegative (st : M3U8Parser.locals) : Prop :=
  nonnegative_or_NaN (M3U8Parser.currentDuration st) = true
  /\ Forall (fun seg => nonnegative_or_NaN (duration seg) = true)
            (M3U8Parser.segments st).

Definition CR : code_unit := 13%N.

(** A line, or the line followed by a carriage return. *)
Definition same_up_to_CR (line line' : jsstring) : Prop :=
  line' = line \/ line' = line ++ [CR].

(** The text with every line feed turned into carriage return, line
    feed. *)
Definition crlf (content : jsstring) : jsstring :=
  flat_map (fun c => if N.eqb c LF then [CR; LF] else [c]) content.

End More.

(* ================================================================== *)
(** * Sample inputs *)
(* ================================================================== *)

Module Examples.
Import Types VideoDownloader Run.

(** A text made of the given lines, each ended by a line feed. *)
Definition text (ls : list string) : jsstring :=
  flat_map (fun l => lit l ++ [LF]) ls.

Definition example_base : jsstring := lit "https://host/path/index.m3u8".

Definition example_text : jsstring :=
  text ["#EXTM3U"; "#EXT-X-VERSION:3"; "#EXTINF:9.5,"; "seg1.ts";
        "#EXTINF:9.5,"; "seg2.ts"].

Definition example_segment1 : M3U8Segment :=
  {| duration := parseFloat (lit "9.5");
     uri := lit "https://host/path/seg1.ts";
     title := Some (lit "Segment 1") |}.

Definition example_segment2 : M3U8Segment :=
  {| duration := parseFloat (lit "9.5");
     uri := lit "https://host/path/seg2.ts";
     title := Some (lit "Segment 2") |}.

Definition example_playlist : M3U8Playlist :=
  {| segments := [example_segment1; example_segment2];
     totalDuration := of_Z 19;
     targetDuration := zero;
     version := of_Z 3;
     mediaSequence := zero |}.

Definition empty_playlist : M3U8Playlist :=
  {| segments := [];
     totalDuration := zero;
     targetDuration := zero;
     version := of_Z 1;
     mediaSequence := zero |}.

(** A text whose first non-blank line is not the header. *)
Definition headerless_text : jsstring :=
  text ["seg1.ts"; "#EXTM3U"; "#EXTINF:9.5,"; "seg2.ts"].

(** A duration line whose value is a lone dot, after a well-formed one. *)
Definition dotted_text : jsstring :=
  text ["#EXTM3U"; "#EXTINF:9.5,"; "#EXTINF:.,"; "seg1.ts"].

(** The same text without the dotted line. *)
Definition undotted_text : jsstring :=
  text ["#EXTM3U"; "#EXTINF:9.5,"; "seg1.ts"].

Definition ok_response (body : Uint8Array) : Settled :=
  {| cancelled_meanwhile := false;
     response := Normal {| ok := true; statusText := lit "OK";
                           arrayBuffer := Normal body |} |}.

Definition not_found : Settled :=
  {| cancelled_meanwhile := false;
     response := Normal {| ok := false; statusText := lit "Not Found";
                           arrayBuffer := Normal [] |} |}.

(** Every fetch succeeds: the first body is [01 02], the others [03]. *)
Definition serving_world : World :=
  {| progress_handler_cancels := fun _ => false;
     network := fun i _ =>
                  ok_response match i with
                              | O => [x01; x02]
                              | S _ => [x03]
                              end |}.

(** The first fetch succeeds, the others get a 404. *)
Definition failing_world : World :=
  {| progress_handler_cancels := fun _ => false;
     network := fun i _ =>
                  match i with
                  | O => ok_response [x01; x02]
                  | S _ => not_found
                  end |}.

(** The progress handler cancels the download as soon as it is called. *)
Definition cancelling_world : World :=
  {| progress_handler_cancels := fun _ => true;
     network := fun _ _ => ok_response [x01] |}.

Definition sf_eqb (a b : number) : bool :=
  match a, b with
  | S754_nan, S754_nan => true
  | S754_zero s, S754_zero t | S754_infinity s, S754_infinity t => Bool.eqb s t
  | S754_finite s m e, S754_finite t n f =>
      Bool.eqb s t && Pos.eqb m n && Z.eqb e f
  | _, _ => false
  end.

(** Numbers on which the arithmetic is compared with the reference
    implementation of the Standard Library: zeros, infinities, NaN,
    subnormal numbers, the largest numbers, and ordinary ones. *)
Definition sample_numbers : list number :=
  [S754_zero false; S754_zero true; S754_infinity false; S754_infinity true;
   S754_nan;
   S754_finite false 1 (-1074); S754_finite true 3 (-1074);
   S754_finite false (2 ^ 52 - 1) (-1074); S754_finite false (2 ^ 52) (-1074);
   S754_finite false (2 ^ 53 - 1) 971; S754_finite true (2 ^ 53 - 1) 971;
   S754_finite false (2 ^ 52) 971;
   S754_finite false (2 ^ 52) (-52); S754_finite true (2 ^ 52 + 1) (-52);
   S754_finite false 7205759403792794 (-56);
   S754_finite false (2 ^ 52 + 12345) (-1000);
   S754_finite true (2 ^ 53 - 7) (-600);
   S754_finite false (2 ^ 52 + 999) 400;
   of_Z 100; of_Z 3; of_Z 29; of_Z 200].

Definition agree_on_samples
    (f g : number -> number -> number) : bool :=
  forallb (fun a => forallb (fun b => sf_eqb (f a b) (g a b)) sample_numbers)
          sample_numbers.

End Examples.
Import Examples.

(** Notions used to state further properties of a run. *)
Module MoreRun.
Import Types VideoDownloader Run.
Local Open Scope nat_scope.

(** How a run ends: after the last segment, at the check before a segment,
    or in the fetch of a segment. *)
Inductive ending :=
| Completed
| CancelledBetweenSegments
| FetchFailed (segment : M3U8Segment) (e : thrown).

(** The message given to the error handler for segment [k] (from 1). *)
Definition segment_error_message (k : nat) (e : thrown) : jsstring :=
  lit "Error downloading segment " ++ decimal k ++ lit ": " ++ toString e.

(** The last calls of a run that ends at segment [j] (from 0). *)
Definition ending_calls (j : nat) (en : ending) : list Event :=
  match en with
  | Completed | CancelledBetweenSegments => []
  | FetchFailed segment e =>
      fetch_called (uri segment)
      :: (if isAbortError e then []
          else [onError_called (segment_error_message (j + 1) e)])
  end.

(** What the run gives its caller. *)
Definition ending_result (w : World) (playlist : M3U8Playlist) (en : ending)
  : completion Blob :=
  match en with
  | Completed =>
      Normal {| bytes := List.concat (bodies w playlist);
                type := lit "video/mp4" |}
  | CancelledBetweenSegments => Throw Spec.CancelledError
  | FetchFailed _ e =>
      Throw (if isAbortError e then Spec.CancelledError else e)
  end.

(** The run fetched [j] segments in full and then ended with [en]: the
    first [j] fetches delivered a body, and the ending fits the segment at
    index [j], if any. *)
Definition ends_at (w : World) (rest : list M3U8Segment) (i j : nat)
    (en : ending) : Prop :=
  j <= List.length rest
  /\ (forall k segment,
        nth_error (firstn j rest) k = Some segment ->
        failure_of w (i + k) segment = None)
  /\ match en with
     | Completed => j = List.length rest
     | CancelledBetweenSegments => j < List.length rest
     | FetchFailed segment e =>
         nth_error rest j = Some segment
         /\ failure_of w (i + j) segment = Some e
     end.

(** What the loop itself returns or throws. *)
Definition loop_result (w : World) (rest : list M3U8Segment) (i : nat)
    (segs : list Uint8Array) (en : ending) : completion (list Uint8Array) :=
  match en with
  | Completed => Normal (segs ++ bodies_from w i rest)
  | CancelledBetweenSegments => Throw Spec.CancelledError
  | FetchFailed _ e => Throw e
  end.

(** The bytes of the first [k] bodies. *)
Definition bytes_after (w : World) (playlist : M3U8Playlist) (k : nat) : nat :=
  List.length (List.concat (firstn k (bodies w playlist))).

(** The progress snapshot that reports [k] completed segments. *)
Definition progress_at (w : World) (playlist : M3U8Playlist) (k : nat)
  : DownloadProgress :=
  {| segmentIndex := k;
     totalSegments := List.length (segments playlist);
     downloadedBytes := bytes_after w playlist k;
     totalBytes := bytes_after w playlist k;
     percentage :=
       match k with
       | O => zero
       | S i => percentage_at i (List.length (segments playlist))
       end |}.

(** What the check before segment [k] (from 0) finds in the abort signal of
    the run, when the checks before the earlier segments found it clear.
    The signal is new when the run starts, so before the first segment it
    is set only if the handler of the first progress call cancelled; before
    a later segment, only if [cancelDownload()] ran during the fetch of
    the segment before it, or its progress handler cancelled. *)
Definition signal_found_set (w : World) (playlist : M3U8Playlist) (k : nat)
  : bool :=
  match k with
  | O => progress_handler_cancels w (initial_progress playlist)
  | S i =>
      match nth_error (segments playlist) i with
      | Some segment =>
          cancelled_meanwhile (network w i (uri segment))
          || progress_handler_cancels w (progress_at w playlist (S i))
      | None => false
      end
  end.

(** [cancelDownload()] followed by a run, on a downloader in any state. *)
Definition cancel_then_download (w : World) (playlist : M3U8Playlist)
  : M Blob :=
  bind cancelDownload (fun _ => downloadM3U8 w playlist).

End MoreRun.

(* ================================================================== *)
(** * The component that uses the parser and the downloader *)
(* ================================================================== *)

(** [App.tsx]: the handlers [handleUrlSubmit] and [handleDownload] of the
    component, on the state variables [state], [playlist], [error] and
    [downloadedBlob].  A handler is a function from the values of these
    variables before the call to the values they have after the last
    setter call of the handler.  (The handlers also set [progress] and
    [autoDownloadCountdown], and [handleDownload] starts a timer that saves
    the file; these are left out, and no other handler is taken to run
    while the handler awaits, but [handleCancelDownload], whose effect on
    the downloader is part of the environment of a run.)  What the
    environment decides is an argument: whether [isValidM3U8Url] accepts
    the address, how the request for the playlist settles, and how the
    requests for the segments settle. *)
Module App.
Import Types VideoDownloader.
Local Open Scope nat_scope.

(** [s.includes(searchString)] *)
Fixpoint includes (s searchString : jsstring) : bool :=
  startsWith s searchString
  || match s with
     | [] => false
     | _ :: s' => includes s' searchString
     end.

Module AppState.
Inductive t := idle | parsing | ready | downloading | completed.
End AppState.

Record Component := {
  state : AppState.t;
  playlist : option M3U8Playlist;
  error : option jsstring;
  downloadedBlob : option Blob
}.

Definition setState (v : AppState.t) (c : Component) : Component :=
  {| state := v; playlist := playlist c; error := error c;
     downloadedBlob := downloadedBlob c |}.

Definition setPlaylist (v : option M3U8Playlist) (c : Component) : Component :=
  {| state := state c; playlist := v; error := error c;
     downloadedBlob := downloadedBlob c |}.

Definition setError (v : option jsstring) (c : Component) : Component :=
  {| state := state c; playlist := playlist c; error := v;
     downloadedBlob := downloadedBlob c |}.

Definition setDownloadedBlob (v : option Blob) (c : Component) : Component :=
  {| state := state c; playlist := playlist c; error := error c;
     downloadedBlob := v |}.

(** The response to the request for the playlist. *)
Record TextResponse := {
  ok : bool;
  status : nat;
  statusText : jsstring;
  text : completion jsstring        (* how [response.text()] settles *)
}.

(** [error instanceof Error ? error.message : otherwise] *)
Definition message_or (otherwise : jsstring) (error : thrown) : jsstring :=
  match error with
  | ErrorObject _ message => message
  | OtherValue _ => otherwise
  end.

(** The [try] block of [handleUrlSubmit]; [fetched] is how the promise of
    [fetch(url, ...)] settles. *)
Definition handleUrlSubmit_try (fetched : completion TextResponse)
    (url : jsstring) : completion M3U8Playlist :=
  match fetched with
  | Throw e => Throw e
  | Normal response =>
      if negb (ok response) then
        Throw (Error (lit "HTTP " ++ decimal (status response) ++ lit ": "
                        ++ statusText response))
      else
        match text response with
        | Throw e => Throw e
        | Normal content =>
            if negb (M3U8Parser.truthy content)
               || (List.length (trim content) =? 0) then
              Throw (Error (lit "Received empty response from M3U8 URL"))
            else
              match M3U8Parser.parsePlaylist content url with
              | Throw e => Throw e
              | Normal parsedPlaylist =>
                  if List.length (segments parsedPlaylist) =? 0 then
                    Throw (Error
                             (lit "No video segments found in M3U8 playlist"))
                  else Normal parsedPlaylist
              end
        end
  end.

Definition bullet : code_unit := 8226%N.

Definition Network_Error_text : jsstring :=
  lit "Network Error: Unable to access the M3U8 file. This could be due to:"
  ++ [LF] ++ lit "        " ++ [bullet]
  ++ lit " CORS restrictions on the server"
  ++ [LF] ++ lit "        " ++ [bullet]
  ++ lit " Invalid or unreachable URL"
  ++ [LF] ++ lit "        " ++ [bullet]
  ++ lit " Network connectivity issues"
  ++ [LF] ++ lit "        "
  ++ lit "Please ensure the URL is correct and the server allows cross-origin requests.".

Definition Invalid_Format_text : jsstring :=
  lit "Invalid M3U8 Format: The provided URL does not contain a valid M3U8 playlist or has no video segments.".

(** The message that the [catch] block of [handleUrlSubmit] gives to
    [setError]. *)
Definition handleUrlSubmit_catch (error : thrown) : jsstring :=
  let errorMessage := message_or (lit "Unknown error occurred") error in
  if includes errorMessage (lit "Failed to fetch")
     || includes errorMessage (lit "NetworkError") then
    Network_Error_text
  else if includes errorMessage (lit "Invalid M3U8")
          || includes errorMessage (lit "No video segments") then
    Invalid_Format_text
  else if includes errorMessage (lit "HTTP") then
    lit "Server Error: " ++ errorMessage
    ++ lit ". The M3U8 file might be temporarily unavailable."
  else
    lit "Processing Error: " ++ errorMessage.

(** [handleUrlSubmit(url)]; [valid] is the result of
    [isValidM3U8Url(url)]. *)
Definition handleUrlSubmit (valid : bool) (fetched : completion TextResponse)
    (url : jsstring) (c : Component) : Component :=
  let c := setPlaylist None (setError None (setState AppState.parsing c)) in
  if negb valid then
    setState AppState.idle
      (setError
         (Some (lit "Please provide a valid M3U8 URL (must be HTTP/HTTPS and contain .m3u8)"))
         c)
  else
    match handleUrlSubmit_try fetched url with
    | Normal parsedPlaylist =>
        setState AppState.ready (setPlaylist (Some parsedPlaylist) c)
    | Throw error =>
        setState AppState.idle (setError (Some (handleUrlSubmit_catch error)) c)
    end.

(** The environment of a run started by the component: the progress
    handler is [setProgress], which does not cancel. *)
Definition app_world (net : nat -> jsstring -> Settled) : World :=
  {| progress_handler_cancels := fun _ => false; network := net |}.

(** The calls of the run to its error handler, which is [setError]. *)
Definition onError_calls (calls : list Event) (c : Component) : Component :=
  fold_left (fun c call =>
               match call with
               | onError_called message => setError (Some message) c
               | _ => c
               end)
            calls c.

(** The message that the [catch] block of [handleDownload] gives to
    [setError]. *)
Definition handleDownload_catch (error : thrown) : jsstring :=
  let errorMessage := message_or (lit "Download failed") error in
  if includes errorMessage (lit "cancelled") then
    lit "Download was cancelled by user"
  else if includes errorMessage (lit "Failed to fetch")
          || includes errorMessage (lit "NetworkError") then
    lit "Network error during download. Please check your connection and try again."
  else
    lit "Download failed: " ++ errorMessage.

(** [handleDownload()], with the downloader of the component. *)
Definition handleDownload (net : nat -> jsstring -> Settled) (c : Component)
    (videoDownloader : State) : Component * State :=
  match playlist c with
  | None => (c, videoDownloader)
  | Some playlist =>
      let c := setState AppState.downloading c in
      let run := downloadM3U8 (app_world net) playlist videoDownloader in
      let calls :=
        skipn (List.length (trace videoDownloader)) (trace (snd run)) in
      let c := onError_calls calls c in
      match fst run with
      | Normal blob =>
          (setState AppState.completed (setDownloadedBlob (Some blob) c),
           snd run)
      | Throw error =>
          (setState AppState.ready
             (setError (Some (handleDownload_catch error)) c),
           snd run)
      end
  end.

End App.

Module MoreSpec.

(** An error carries the index [k] of a segment when the decimal digits of
    [k] occur in its string form, that is, in its name or its message (an
    error object of the source has no other content). *)
Definition carries_index (e : thrown) (k : nat) : bool :=
  App.includes (toString e) (decimal k).

End MoreSpec.

Module MoreExamples.
Import Types VideoDownloader Run.

(** A playlist with declarations, a comment, and a segment without a
    duration line. *)
Definition long_text : jsstring :=
  text ["#EXTM3U"; "#EXT-X-VERSION:3"; "#EXT-X-TARGETDURATION:10";
        "#EXT-X-MEDIA-SEQUENCE:7"; "#EXT-X-VERSION:4"; "#EXTINF:9.5,first";
        "# a comment"; "seg1.ts"; "seg2.ts"; "#EXTINF:4,"; "#EXTINF:oops";
        "https://cdn.example/seg3.ts"; "#EXT-X-ENDLIST"].

(** What the parser makes of it, with [example_base]. *)
Definition long_playlist : M3U8Playlist :=
  {| segments :=
       [ {| duration := parseFloat (lit "9.5");
            uri := lit "https://host/path/seg1.ts";
            title := Some (lit "Segment 1") |};
         {| duration := zero;
            uri := lit "https://host/path/seg2.ts";
            title := Some (lit "Segment 2") |};
         {| duration := of_Z 4;
            uri := lit "https://cdn.example/seg3.ts";
            title := Some (lit "Segment 3") |} ];
     totalDuration := parseFloat (lit "13.5");
     targetDuration := of_Z 10;
     version := of_Z 4;
     mediaSequence := of_Z 7 |}.

(** The same text without its comment line. *)
Definition long_text_without_comment : jsstring :=
  text ["#EXTM3U"; "#EXT-X-VERSION:3"; "#EXT-X-TARGETDURATION:10";
        "#EXT-X-MEDIA-SEQUENCE:7"; "#EXT-X-VERSION:4"; "#EXTINF:9.5,first";
        "seg1.ts"; "seg2.ts"; "#EXTINF:4,"; "#EXTINF:oops";
        "https://cdn.example/seg3.ts"; "#EXT-X-ENDLIST"].

(** The first fetch succeeds; the download is cancelled during the second
    one, which is rejected with an abort error. *)
Definition aborting_network (i : nat) (_ : jsstring) : Settled :=
  match i with
  | O => ok_response [x01; x02]
  | S _ => {| cancelled_meanwhile := true; response := Throw AbortError |}
  end.

Definition aborting_world : World :=
  {| progress_handler_cancels := fun _ => false;
     network := aborting_network |}.

(** The download is cancelled during the first fetch, which still
    delivers its body. *)
Definition late_cancel_network (i : nat) (_ : jsstring) : Settled :=
  {| cancelled_meanwhile := match i with O => true | S _ => false end;
     response := Normal {| ok := true; statusText := lit "OK";
                           arrayBuffer := Normal [x01] |} |}.

Definition late_cancel_world : World :=
  {| progress_handler_cancels := fun _ => false;
     network := late_cancel_network |}.

(** The rejection of [fetch] when the server cannot be reached. *)
Definition Failed_to_fetch : thrown :=
  ErrorObject (lit "TypeError") (lit "Failed to fetch").

(** The first fetch succeeds, the second one is rejected. *)
Definition unreachable_network (i : nat) (_ : jsstring) : Settled :=
  match i with
  | O => ok_response [x01; x02]
  | S _ => {| cancelled_meanwhile := false;
              response := Throw Failed_to_fetch |}
  end.

Definition unreachable_world : World :=
  {| progress_handler_cancels := fun _ => false;
     network := unreachable_network |}.

(** An address that [isValidM3U8Url] accepts: it has ten characters or
    more, it parses as a URL with the protocol [https:], it contains
    [.m3u8], and its host name [host.example] has three characters or
    more, a dot, and neither [localhost] nor [127.0.0.1] in it. *)
Definition accepted_url : jsstring :=
  lit "https://host.example/path/index.m3u8".

(** An [ok] response with a text. *)
Definition text_response (content : jsstring) : App.TextResponse :=
  {| App.ok := true; App.status := 200; App.statusText := lit "OK";
     App.text := Normal content |}.

(** The component before any address is submitted, and with a playlist. *)
Definition fresh_component : App.Component :=
  {| App.state := App.AppState.idle; App.playlist := None;
     App.error := None; App.downloadedBlob := None |}.

Definition ready_component : App.Component :=
  {| App.state := App.AppState.ready; App.playlist := Some example_playlist;
     App.error := None; App.downloadedBlob := None |}.

End MoreExamples.
Import MoreExamples.

(* ================================================================== *)
(** * Checks of the embedding on sample inputs *)
(* ================================================================== *)

(** The four operations agree with [SFadd], [SFmul], [SFdiv] and [SFleb]
    of the Standard Library at binary64 on all pairs of samples. *)
Example arithmetic_agrees_with_SpecFloat :
  agree_on_samples add (SFadd 53 1024) = true
  /\ agree_on_samples mul (SFmul 53 1024) = true
  /\ agree_on_samples div (SFdiv 53 1024) = true
  /\ forallb (fun a => forallb (fun b => Bool.eqb (leb a b) (SFleb a b))
                               sample_numbers) sample_numbers = true.
Proof. vm_compute. repeat split. Qed.

(** Conversions and roundings on known values: the doubles nearest to 9.5
    and 0.1, prefixes that [parseFloat] accepts, overflow and underflow,
    ties, and the percentage 29/200 that rounds down to 14. *)
Example number_conversions :
  parseFloat (lit "9.5") = S754_finite false (19 * 2 ^ 48) (-49)
  /\ parseFloat (lit "0.1") = S754_finite false 7205759403792794 (-56)
  /\ parseFloat (lit ".") = NaN
  /\ parseFloat (lit "1.2.3") = parseFloat (lit "1.2")
  /\ parseFloat (lit "  -1.5e3x") = of_Z (-1500)
  /\ parseFloat (lit "1e400") = S754_infinity false
  /\ parseFloat (lit "4.9e-324") = S754_finite false 1 (-1074)
  /\ parseFloat (lit "2e-324") = S754_zero false
  /\ parseFloat (lit "1.7976931348623157e308")
     = S754_finite false (2 ^ 53 - 1) 971
  /\ parseFloat (lit "1.7976931348623159e308") = S754_infinity false
  /\ parseInt (lit "3") = of_Z 3
  /\ parseInt (lit " 0x1F") = of_Z 31
  /\ parseInt (lit "-0") = S754_zero true
  /\ parseInt (lit "abc") = NaN
  /\ add (parseFloat (lit "0.1")) (parseFloat (lit "0.2"))
     = S754_finite false 0x13333333333334 (-54)
  /\ Math_round (mul (div (of_Z 29) (of_Z 200)) (of_Z 100)) = of_Z 14
  /\ Math_round (mul (div (of_Z 1) (of_Z 8)) (of_Z 100)) = of_Z 13
  /\ Math_round (parseFloat (lit "-0.5")) = S754_zero true
  /\ Math_round (parseFloat (lit "-2.5")) = of_Z (-2)
  /\ Math_round (parseFloat (lit "2.5")) = of_Z 3
  /\ of_Z (2 ^ 53 + 1) = of_Z (2 ^ 53)
  /\ of_Z (2 ^ 53 + 3) = of_Z (2 ^ 53 + 4).
Proof. vm_compute. repeat split. Qed.

(** The end-to-end example: two segments, a total duration of 19, version
    3, and the two resolved addresses. *)
Example parse_end_to_end :
  M3U8Parser.parsePlaylist example_text example_base = Normal example_playlist.
Proof. vm_compute. reflexivity. Qed.

(** The cancellation error of the source is not an abort error: the outer
    handler lets it through unchanged. *)
Example cancelled_is_not_abort :
  VideoDownloader.isAbortError Spec.CancelledError = false
  /\ VideoDownloader.isAbortError VideoDownloader.AbortError = true.
Proof. split; reflexivity. Qed.

(* ================================================================== *)
(** * Properties of the string operations *)
(* ================================================================== *)

Section StringFacts.

Lemma startsWith_app (s p q : jsstring) :
  startsWith s (p ++ q) = true -> startsWith s p = true.
Proof.
  revert s; induction p as [|c p IH]; intros [|d s]; simpl; auto.
  rewrite !andb_true_iff; intros [Hc H]; split; [exact Hc | eauto].
Qed.

Lemma startsWith_self_app (p s : jsstring) : startsWith (p ++ s) p = true.
Proof.
  induction p as [|c p IH]; cbn [app startsWith]; auto.
  now rewrite N.eqb_refl.
Qed.

Lemma startsWith_firstn (s p : jsstring) :
  startsWith s p = true -> firstn (List.length p) s = p.
Proof.
  revert s; induction p as [|c p IH]; intros [|d s]; cbn [startsWith];
    try discriminate; auto.
  rewrite andb_true_iff; intros [Hc H]. apply N.eqb_eq in Hc; subst.
  cbn [List.length firstn]. now rewrite IH.
Qed.

Lemma lastIndexOf_from_absent (c : code_unit) (s : jsstring) :
  forall i found, ~ In c s -> lastIndexOf_from i found c s = found.
Proof.
  induction s as [|x s IH]; intros i found Hin; cbn [lastIndexOf_from]; auto.
  destruct (N.eqb_spec x c) as [->|Hne].
  - exfalso; apply Hin; now left.
  - apply IH; intros H; apply Hin; now right.
Qed.

Lemma lastIndexOf_from_last (c : code_unit) (pre post : jsstring) :
  forall i found,
    ~ In c post ->
    lastIndexOf_from i found c (pre ++ c :: post)
    = (i + Z.of_nat (List.length pre))%Z.
Proof.
  induction pre as [|x pre IH]; intros i found Hpost;
    cbn [app lastIndexOf_from List.length].
  - rewrite N.eqb_refl, lastIndexOf_from_absent by assumption. lia.
  - rewrite IH by assumption. lia.
Qed.

Lemma substring_prefix (s : jsstring) (n : nat) :
  (n <= List.length s)%nat -> substring s 0 (Z.of_nat n) = firstn n s.
Proof.
  intros Hn; unfold substring.
  replace (Z.min (Z.max 0 0) (Z.of_nat (List.length s))) with 0%Z by lia.
  replace (Z.min (Z.max (Z.of_nat n) 0) (Z.of_nat (List.length s)))
    with (Z.of_nat n) by lia.
  replace (Z.min 0 (Z.of_nat n)) with 0%Z by lia.
  replace (Z.max 0 (Z.of_nat n) - 0)%Z with (Z.of_nat n) by lia.
  now rewrite Nat2Z.id.
Qed.

End StringFacts.

(* ================================================================== *)
(** * Address resolution *)
(* ================================================================== *)

Section ResolveUrl.
Import M3U8Parser.

(** C7.  A reference that starts with [http://] or [https://] is resolved
    to itself.  Any other reference is appended to the base address cut
    just after its last [/]: when the base address is [pre ++ "/" ++ post]
    with no [/] in [post], the result is [pre ++ "/" ++ url]. *)
Theorem resolveUrl_spec (url baseUrl : jsstring) :
  (startsWith url (lit "http://") = true
   \/ startsWith url (lit "https://") = true ->
   resolveUrl url baseUrl = url)
  /\
  (startsWith url (lit "http://") = false ->
   startsWith url (lit "https://") = false ->
   forall pre post,
     baseUrl = pre ++ [slash] ++ post -> ~ In slash post ->
     resolveUrl url baseUrl = pre ++ [slash] ++ url).
Proof.
  unfold resolveUrl, isAbsolute; split.
  - intros [-> | ->]; [reflexivity | now rewrite orb_true_r].
  - intros -> -> pre post -> Hpost; cbn [orb app].
    unfold lastIndexOf.
    rewrite (lastIndexOf_from_last slash pre post 0 (-1) Hpost).
    replace (0 + Z.of_nat (List.length pre) + 1)%Z
      with (Z.of_nat (List.length pre + 1)) by lia.
    rewrite substring_prefix
      by (rewrite length_app; simpl; lia).
    rewrite firstn_app, firstn_all2 by lia.
    replace (List.length pre + 1 - List.length pre)%nat with 1%nat by lia.
    cbn [firstn]. now rewrite <- app_assoc.
Qed.

Lemma resolveUrl_spec_witness :
  resolveUrl (lit "seg1.ts") (lit "https://host/path/index.m3u8")
  = lit "https://host/path" ++ [slash] ++ lit "seg1.ts"
  /\ resolveUrl (lit "https://cdn/seg1.ts") (lit "https://host/path/index.m3u8")
     = lit "https://cdn/seg1.ts".
Proof.
  split.
  - apply (proj2 (resolveUrl_spec (lit "seg1.ts")
                    (lit "https://host/path/index.m3u8"))
             eq_refl eq_refl (lit "https://host/path") (lit "index.m3u8")
             eq_refl).
    vm_compute. intuition discriminate.
  - apply (proj1 (resolveUrl_spec (lit "https://cdn/seg1.ts")
                    (lit "https://host/path/index.m3u8"))).
    right; reflexivity.
Defined.

(** A base address without any [/] contributes nothing. *)
Lemma resolveUrl_no_slash (url baseUrl : jsstring) :
  isAbsolute url = false -> ~ In slash baseUrl ->
  resolveUrl url baseUrl = url.
Proof.
  intros Habs Hno; unfold resolveUrl; rewrite Habs.
  unfold lastIndexOf; rewrite lastIndexOf_from_absent by assumption.
  change (-1 + 1)%Z with (Z.of_nat 0).
  rewrite substring_prefix by (simpl; lia). reflexivity.
Qed.

End ResolveUrl.

(* ================================================================== *)
(** * The playlist parser *)
(* ================================================================== *)

Section Parser.
Import M3U8Parser Spec.

Variable baseUrl : jsstring.

Lemma truthy_trim (line : jsstring) : truthy (trim line) = negb (is_blank line).
Proof. unfold is_blank; now destruct (trim line). Qed.

Lemma filter_map_comm {A B} (f : B -> bool) (g : A -> B) (l : list A) :
  filter f (map g l) = map g (filter (fun x => f (g x)) l).
Proof.
  induction l as [|x l IH]; simpl; auto.
  destruct (f (g x)); simpl; now rewrite IH.
Qed.

(** The array [lines] of the source holds the trimmed non-blank lines. *)
Lemma lines_of_nonblank (content : jsstring) :
  lines_of content = map trim (nonblank_lines content).
Proof.
  unfold lines_of, nonblank_lines. rewrite filter_map_comm.
  f_equal. apply filter_ext; intros l; apply truthy_trim.
Qed.

Lemma tag_is_comment (line tag : jsstring) :
  startsWith line (hash :: tag) = true -> startsWith line (lit "#") = true.
Proof. apply (startsWith_app line [hash] tag). Qed.

(** A comment line never adds a segment. *)
Lemma loop_body_comment (st : locals) (line : jsstring) :
  startsWith line (lit "#") = true ->
  segments (loop_body baseUrl st line) = segments st.
Proof.
  intros Hc; unfold loop_body.
  repeat match goal with
         | |- context [if startsWith line ?t then _ else _] =>
             destruct (startsWith line t); [reflexivity|]
         end.
  destruct (startsWith line (lit "#EXTINF:")).
  - now destruct (match_EXTINF line).
  - now rewrite Hc.
Qed.

(** A non-empty line that is not a comment adds one segment, with the
    pending duration, the resolved address and the ordinal title. *)
Lemma loop_body_reference (st : locals) (line : jsstring) :
  startsWith line (lit "#") = false -> truthy line = true ->
  loop_body baseUrl st line
  = push_segment
      {| Types.duration := currentDuration st;
         Types.uri := resolveUrl line baseUrl;
         Types.title :=
           Some (lit "Segment " ++ decimal (List.length (segments st) + 1)) |}
      st.
Proof.
  intros Hc Ht; unfold loop_body.
  assert (Htag : forall tag, startsWith line (hash :: tag) = false).
  { intros tag. destruct (startsWith line (hash :: tag)) eqn:E; auto.
    apply tag_is_comment in E. congruence. }
  change (lit "#EXT-X-VERSION:") with (hash :: lit "EXT-X-VERSION:").
  change (lit "#EXT-X-TARGETDURATION:") with (hash :: lit "EXT-X-TARGETDURATION:").
  change (lit "#EXT-X-MEDIA-SEQUENCE:") with (hash :: lit "EXT-X-MEDIA-SEQUENCE:").
  change (lit "#EXTINF:") with (hash :: lit "EXTINF:").
  rewrite !Htag, Hc.
  destruct line; [discriminate | reflexivity].
Qed.

(** What the loop leaves in [segments], as far as addresses go. *)
Lemma loop_uris (lines : list jsstring) :
  forall st,
    Forall (fun line => truthy line = true) lines ->
    map Types.uri (segments (fold_left (loop_body baseUrl) lines st))
    = map Types.uri (segments st)
      ++ map (fun line => resolveUrl line baseUrl) (filter is_reference lines).
Proof.
  induction lines as [|line lines IH]; intros st Hall; simpl.
  - now rewrite app_nil_r.
  - inversion Hall as [|? ? Hline Hrest]; subst.
    rewrite IH by assumption. unfold is_reference at 2.
    destruct (startsWith line (lit "#")) eqn:Hc; simpl.
    + now rewrite loop_body_comment.
    + rewrite loop_body_reference by assumption. simpl.
      now rewrite map_app, <- app_assoc.
Qed.

Lemma loop_titles (lines : list jsstring) :
  forall st,
    Forall (fun line => truthy line = true) lines ->
    titled_by_position (segments st) ->
    titled_by_position (segments (fold_left (loop_body baseUrl) lines st)).
Proof.
  induction lines as [|line lines IH]; intros st Hall Hst; simpl; auto.
  inversion Hall as [|? ? Hline Hrest]; subst.
  apply IH; auto.
  destruct (startsWith line (lit "#")) eqn:Hc.
  - now rewrite loop_body_comment.
  - rewrite loop_body_reference by assumption. simpl.
    intros k seg Hk.
    destruct (Nat.lt_ge_cases k (List.length (segments st))) as [Hlt|Hge].
    + rewrite nth_error_app1 in Hk by assumption. now apply Hst.
    + rewrite nth_error_app2 in Hk by assumption.
      destruct (k - List.length (segments st))%nat as [|j] eqn:Hj; simpl in Hk.
      * injection Hk as <-. simpl.
        replace k with (List.length (segments st)) by lia. reflexivity.
      * now destruct j.
Qed.

Lemma lines_of_truthy (content : jsstring) :
  Forall (fun line => truthy line = true) (lines_of content).
Proof.
  unfold lines_of. apply Forall_forall. intros l Hl.
  now apply filter_In in Hl.
Qed.

(** [parsePlaylist] on a text with a header: the result, in terms of the
    final state of the loop. *)
Lemma parsePlaylist_accepts (content : jsstring) :
  has_header content = true ->
  parsePlaylist content baseUrl
  = let st := fold_left (loop_body baseUrl) (lines_of content) initial in
    Normal {| Types.segments := segments st;
              Types.totalDuration :=
                fold_left (fun sum segment => add sum (Types.duration segment))
                          (segments st) zero;
              Types.targetDuration := targetDuration st;
              Types.version := version st;
              Types.mediaSequence := mediaSequence st |}.
Proof.
  unfold has_header, parsePlaylist. rewrite lines_of_nonblank.
  destruct (nonblank_lines content) as [|l ls]; [discriminate|].
  intros H; cbn [map]. now rewrite H.
Qed.

Lemma filter_filter_andb {A} (f g : A -> bool) (l : list A) :
  filter f (filter g l) = filter (fun x => g x && f x) l.
Proof.
  induction l as [|x l IH]; simpl; auto.
  destruct (g x); simpl; [destruct (f x)|]; now rewrite IH.
Qed.

(** The lines the loop turns into segments are the non-comment, non-blank
    lines of the text. *)
Lemma reference_lines_filter (content : jsstring) :
  reference_lines content = filter is_reference (lines_of content).
Proof.
  unfold reference_lines, lines_of.
  rewrite (filter_map_comm truthy), (filter_map_comm is_reference).
  rewrite filter_filter_andb. f_equal.
  apply filter_ext; intros l. now rewrite truthy_trim.
Qed.

(** C1.  When the first non-blank line, trimmed, starts with the header
    tag, [parsePlaylist] returns a playlist with one segment for each
    non-comment, non-blank line of the text, in the order of the text: the
    address of the [i]-th segment is the resolution of the [i]-th such
    line. *)
Theorem parsePlaylist_one_segment_per_reference_line (content : jsstring) :
  has_header content = true ->
  exists playlist,
    parsePlaylist content baseUrl = Normal playlist
    /\ List.length (Types.segments playlist)
       = List.length (reference_lines content)
    /\ map Types.uri (Types.segments playlist)
       = map (fun line => resolveUrl line baseUrl) (reference_lines content).
Proof.
  intros Hh. rewrite (parsePlaylist_accepts content Hh). cbv zeta.
  eexists; split; [reflexivity|]. cbn [Types.segments].
  assert (Huris := loop_uris (lines_of content) initial (lines_of_truthy content)).
  cbn [segments initial map app] in Huris.
  rewrite <- reference_lines_filter in Huris.
  split; [|exact Huris].
  rewrite <- (length_map Types.uri), Huris. apply length_map.
Qed.

(** C10.  In an accepted text, the [k]-th segment (counting from 1) is
    titled [Segment k], whatever the text says. *)
Theorem parsePlaylist_titles (content : jsstring) :
  forall playlist k seg,
    parsePlaylist content baseUrl = Normal playlist ->
    nth_error (Types.segments playlist) k = Some seg ->
    Types.title seg = Some (lit "Segment " ++ decimal (k + 1)).
Proof.
  intros playlist k seg Hp Hk.
  destruct (has_header content) eqn:Hh.
  - rewrite (parsePlaylist_accepts content Hh) in Hp. cbv zeta in Hp.
    injection Hp as <-. cbn [Types.segments] in Hk.
    revert k seg Hk. apply loop_titles; [apply lines_of_truthy|].
    intros k seg Hk. now destruct k.
  - exfalso. revert Hp Hh. unfold parsePlaylist, has_header.
    rewrite lines_of_nonblank.
    destruct (nonblank_lines content) as [|l ls]; [discriminate|].
    cbn [map]. intros Hp Hh. now rewrite Hh in Hp.
Qed.

(** C8.  In the playlist returned for an accepted text, [totalDuration] is
    the sum of the durations of its segments. *)
Theorem parsePlaylist_totalDuration (content : jsstring) :
  forall playlist,
    parsePlaylist content baseUrl = Normal playlist ->
    Types.totalDuration playlist = sum_durations (Types.segments playlist).
Proof.
  intros playlist Hp.
  assert (Hsum : forall segs acc,
             fold_left (fun sum segment => add sum (Types.duration segment))
                       segs acc
             = sum_from acc (map Types.duration segs)).
  { induction segs as [|x segs IH]; intros acc; simpl; auto. }
  unfold parsePlaylist in Hp.
  destruct (lines_of content) as [|l ls]; [discriminate|].
  destruct (negb (startsWith l (lit "#EXTM3U"))); [discriminate|].
  injection Hp as <-. cbn [Types.totalDuration Types.segments].
  apply Hsum.
Qed.

(** C6, as far as it holds.  When the text has a non-blank line and the
    first one, trimmed, does not start with the header tag, [parsePlaylist]
    fails with the format error, whatever follows. *)
Theorem parsePlaylist_missing_header (content : jsstring) :
  forall line rest,
    nonblank_lines content = line :: rest ->
    startsWith (trim line) (lit "#EXTM3U") = false ->
    parsePlaylist content baseUrl = Throw FormatError.
Proof.
  intros line rest Hl Hs. unfold parsePlaylist.
  rewrite lines_of_nonblank, Hl. cbn [map]. now rewrite Hs.
Qed.

(** A text with no non-blank line fails, too, but at the access to
    [lines[0]], before the header test. *)
Lemma parsePlaylist_blank (content : jsstring) :
  nonblank_lines content = [] ->
  parsePlaylist content baseUrl
  = Throw (TypeError_reading "undefined" "startsWith").
Proof.
  intros Hl. unfold parsePlaylist. now rewrite lines_of_nonblank, Hl.
Qed.

(** A duration line whose text does not match the pattern leaves every
    local variable as it was. *)
Lemma loop_body_unmatched_duration (st : locals) (line : jsstring) :
  startsWith line (lit "#EXTINF:") = true ->
  match_EXTINF line = None ->
  loop_body baseUrl st line = st.
Proof.
  intros Ht Hm. unfold loop_body.
  assert (Hne : forall tag, startsWith line (lit "#EXT-" ++ tag) = false).
  { intros tag. destruct (startsWith line (lit "#EXT-" ++ tag)) eqn:E; auto.
    apply startsWith_app, startsWith_firstn in E.
    change (lit "#EXTINF:") with (lit "#EXTI" ++ lit "NF:") in Ht.
    apply startsWith_app, startsWith_firstn in Ht.
    change (List.length (lit "#EXTI")) with (List.length (lit "#EXT-")) in Ht.
    rewrite Ht in E. discriminate. }
  change (lit "#EXT-X-VERSION:") with (lit "#EXT-" ++ lit "X-VERSION:").
  change (lit "#EXT-X-TARGETDURATION:") with (lit "#EXT-" ++ lit "X-TARGETDURATION:").
  change (lit "#EXT-X-MEDIA-SEQUENCE:") with (lit "#EXT-" ++ lit "X-MEDIA-SEQUENCE:").
  now rewrite !Hne, Ht, Hm.
Qed.

End Parser.

(* ================================================================== *)
(** * Rounding to the nearest double *)
(* ================================================================== *)

Section Rounding.
Import VideoDownloader.
Local Open Scope Q_scope.

Lemma pow2_pos (e : Z) : 0 < 2 ^ e.
Proof. apply Qpower_0_lt. reflexivity. Qed.

Lemma pow2_add (a b : Z) : 2 ^ (a + b) == 2 ^ a * 2 ^ b.
Proof. apply Qpower_plus. discriminate. Qed.

Lemma pow2_succ (a : Z) : 2 ^ (a + 1) == 2 * 2 ^ a.
Proof. rewrite pow2_add. change (2 ^ 1) with 2. ring. Qed.

Lemma pow2_le (a b : Z) : (a <= b)%Z -> 2 ^ a <= 2 ^ b.
Proof. intros H. apply Qpower_le_compat_l; [exact H | discriminate]. Qed.

Lemma pow2_lt_inv (a b : Z) : 2 ^ a < 2 ^ b -> (a < b)%Z.
Proof. intros H. apply (Qpower_lt_compat_l_inv 2); [exact H | reflexivity]. Qed.

Lemma pow2_inject (n : Z) : (0 <= n)%Z -> 2 ^ n == inject_Z (2 ^ n).
Proof. intros H. now rewrite Zpower_Qpower. Qed.

Lemma flog2_spec (q : Q) : 0 < q -> 2 ^ flog2 q <= q /\ q < 2 ^ (flog2 q + 1).
Proof.
  destruct q as [n d]. intros Hq.
  assert (Hn : (0 < n)%Z).
  { unfold Qlt in Hq. simpl in Hq. lia. }
  unfold flog2. cbn [Qnum Qden].
  set (a := Z.log2 n). set (b := Z.log2 (Zpos d)).
  destruct (Z.log2_spec n Hn) as [Ha1 Ha2]. fold a in Ha1, Ha2.
  destruct (Z.log2_spec (Zpos d) eq_refl) as [Hb1 Hb2]. fold b in Hb1, Hb2.
  assert (Ha0 : (0 <= a)%Z) by apply Z.log2_nonneg.
  assert (Hb0 : (0 <= b)%Z) by apply Z.log2_nonneg.
  assert (HA : 2 ^ a == 2 ^ (a - b) * 2 ^ b).
  { rewrite <- pow2_add. now replace (a - b + b)%Z with a by lia. }
  assert (Hqd : (n # d) * inject_Z (Zpos d) == inject_Z n).
  { rewrite (Qmake_Qdiv n d). field. discriminate. }
  assert (HD : 0 < inject_Z (Zpos d)) by reflexivity.
  assert (HK := pow2_pos (a - b)).
  assert (HB := pow2_pos b).
  assert (Hn1 : 2 ^ a <= inject_Z n).
  { rewrite pow2_inject by assumption. now rewrite <- Zle_Qle. }
  assert (Hn2 : inject_Z n < 2 * 2 ^ a).
  { rewrite <- pow2_succ, pow2_inject by lia. rewrite <- Zlt_Qlt, Z.add_1_r; assumption. }
  assert (Hd1 : 2 ^ b <= inject_Z (Zpos d)).
  { rewrite pow2_inject by assumption. now rewrite <- Zle_Qle. }
  assert (Hd2 : inject_Z (Zpos d) < 2 * 2 ^ b).
  { rewrite <- pow2_succ, pow2_inject by lia. rewrite <- Zlt_Qlt, Z.add_1_r; assumption. }
  destruct (Qle_bool (2 ^ (a - b)) (n # d)) eqn:E.
  - apply Qle_bool_iff in E. split; [exact E|].
    rewrite pow2_succ.
    apply (Qmult_lt_r _ _ (inject_Z (Zpos d)) HD). rewrite Hqd.
    nra.
  - assert (E' : n # d < 2 ^ (a - b)).
    { apply Qnot_le_lt. intros H. apply Qle_bool_iff in H. congruence. }
    replace (a - b - 1 + 1)%Z with (a - b)%Z by lia. split; [|exact E'].
    assert (H2 : 2 ^ (a - b) == 2 * 2 ^ (a - b - 1)).
    { rewrite <- pow2_succ. now replace (a - b - 1 + 1)%Z with (a - b)%Z by lia. }
    apply (Qmult_le_r _ _ (inject_Z (Zpos d)) HD). rewrite Hqd.
    assert (HK' := pow2_pos (a - b - 1)).
    nra.
Qed.

Lemma flog2_unique (q : Q) (l : Z) :
  2 ^ l <= q -> q < 2 ^ (l + 1) -> flog2 q = l.
Proof.
  intros H1 H2.
  assert (Hq : 0 < q) by (eapply Qlt_le_trans; [apply (pow2_pos l) | exact H1]).
  destruct (flog2_spec q Hq) as [H3 H4].
  assert ((flog2 q < l + 1)%Z).
  { apply pow2_lt_inv. eapply Qle_lt_trans; eassumption. }
  assert ((l < flog2 q + 1)%Z).
  { apply pow2_lt_inv. eapply Qle_lt_trans; eassumption. }
  lia.
Qed.

Lemma flog2_mono (q1 q2 : Q) : 0 < q1 -> q1 <= q2 -> (flog2 q1 <= flog2 q2)%Z.
Proof.
  intros H0 H.
  assert (H0' : 0 < q2) by (eapply Qlt_le_trans; eassumption).
  destruct (flog2_spec q1 H0) as [H1 _], (flog2_spec q2 H0') as [_ H2].
  assert ((flog2 q1 < flog2 q2 + 1)%Z); [|lia].
  apply pow2_lt_inv.
  eapply Qle_lt_trans; [exact H1|]. eapply Qle_lt_trans; eassumption.
Qed.

Lemma round_half_even_bounds (q : Q) :
  (Qfloor q <= round_half_even q <= Qfloor q + 1)%Z.
Proof.
  unfold round_half_even.
  destruct (q - inject_Z (Qfloor q) ?= 1 # 2); [destruct (Z.even (Qfloor q))| |]; lia.
Qed.

Lemma round_half_even_Z (k : Z) : round_half_even (inject_Z k) = k.
Proof.
  unfold round_half_even. rewrite Qfloor_Z.
  destruct (Qcompare_spec (inject_Z k - inject_Z k) (1 # 2)) as [H|H|H];
    [exfalso; lra | reflexivity | exfalso; lra].
Qed.

Lemma round_half_even_mono (x y : Q) :
  x <= y -> (round_half_even x <= round_half_even y)%Z.
Proof.
  intros Hxy.
  assert (Hf := Qfloor_resp_le x y Hxy).
  assert (Hx := round_half_even_bounds x).
  assert (Hy := round_half_even_bounds y).
  destruct (Z.eq_dec (Qfloor x) (Qfloor y)) as [E|NE]; [|lia].
  unfold round_half_even in *. rewrite <- E in *.
  destruct (Qcompare_spec (x - inject_Z (Qfloor x)) (1 # 2)) as [H1|H1|H1];
    destruct (Qcompare_spec (y - inject_Z (Qfloor x)) (1 # 2)) as [H2|H2|H2];
    try (destruct (Z.even (Qfloor x))); try lia; exfalso; lra.
Qed.

Lemma round_half_even_ge (x : Q) (k : Z) :
  inject_Z k <= x -> (k <= round_half_even x)%Z.
Proof.
  intros H. rewrite <- (round_half_even_Z k). now apply round_half_even_mono.
Qed.

Lemma round_half_even_le (x : Q) (k : Z) :
  x <= inject_Z k -> (round_half_even x <= k)%Z.
Proof.
  intros H. rewrite <- (round_half_even_Z k). now apply round_half_even_mono.
Qed.

Lemma div_pow2 (q : Q) (e : Z) : q / 2 ^ e * 2 ^ e == q.
Proof. field. apply Qnot_eq_sym, Qlt_not_eq, pow2_pos. Qed.

Lemma div_pow2_le (q1 q2 : Q) (e : Z) : q1 <= q2 -> q1 / 2 ^ e <= q2 / 2 ^ e.
Proof.
  intros H. apply (Qmult_le_r _ _ (2 ^ e) (pow2_pos e)).
  now rewrite !div_pow2.
Qed.

Lemma exponent_of_mono (q1 q2 : Q) :
  0 < q1 -> q1 <= q2 -> (exponent_of q1 <= exponent_of q2)%Z.
Proof.
  intros H0 H. unfold exponent_of.
  assert (Hl := flog2_mono q1 q2 H0 H). lia.
Qed.

(** Rounding is monotone. *)
Lemma rounded_value_mono (q1 q2 : Q) :
  0 < q1 -> q1 <= q2 -> rounded_value q1 <= rounded_value q2.
Proof.
  intros H0 H.
  assert (H0' : 0 < q2) by (eapply Qlt_le_trans; eassumption).
  assert (He := exponent_of_mono q1 q2 H0 H).
  unfold rounded_value.
  destruct (Z.eq_dec (exponent_of q1) (exponent_of q2)) as [E|NE].
  - rewrite E. apply Qmult_le_compat_r; [|apply Qlt_le_weak, pow2_pos].
    rewrite <- Zle_Qle. apply round_half_even_mono. now apply div_pow2_le.
  - assert (Hlt : (exponent_of q1 < exponent_of q2)%Z) by lia.
    destruct (flog2_spec q1 H0) as [_ Hq1], (flog2_spec q2 H0') as [Hq2 _].
    assert (He1 : (flog2 q1 - 52 <= exponent_of q1)%Z)
      by (unfold exponent_of; lia).
    assert (He2 : exponent_of q2 = (flog2 q2 - 52)%Z)
      by (unfold exponent_of in *; lia).
    remember (exponent_of q1) as e1 eqn:Ee1.
    remember (exponent_of q2) as e2 eqn:Ee2.
    remember (flog2 q1) as l1 eqn:El1.
    remember (flog2 q2) as l2 eqn:El2.
    clear Ee1 Ee2 El1 El2.
    (* the rounded value of q1 is at most 2^(e1+53) ≤ 2^l2 *)
    apply Qle_trans with (2 ^ (e1 + 53)).
    + rewrite (pow2_add e1 53), (Qmult_comm (2 ^ e1) (2 ^ 53)).
      apply Qmult_le_compat_r; [|apply Qlt_le_weak, pow2_pos].
      change (2 ^ 53) with (inject_Z (2 ^ 53)).
      rewrite <- Zle_Qle. apply round_half_even_le.
      change (inject_Z (2 ^ 53)) with (2 ^ 53).
      apply (Qmult_le_r _ _ (2 ^ e1) (pow2_pos e1)).
      rewrite div_pow2, Qmult_comm, <- pow2_add.
      apply Qlt_le_weak. eapply Qlt_le_trans; [exact Hq1|]. apply pow2_le. lia.
    + apply Qle_trans with (2 ^ l2); [apply pow2_le; lia|].
      replace l2 with (52 + e2)%Z at 1 by lia.
      rewrite (pow2_add 52 e2).
      apply Qmult_le_compat_r; [|apply Qlt_le_weak, pow2_pos].
      change (2 ^ 52) with (inject_Z (2 ^ 52)).
      rewrite <- Zle_Qle. apply round_half_even_ge.
      change (inject_Z (2 ^ 52)) with (2 ^ 52).
      apply (Qmult_le_r _ _ (2 ^ e2) (pow2_pos e2)).
      rewrite div_pow2, <- pow2_add.
      now replace (52 + e2)%Z with l2 by lia.
Qed.

Lemma round_half_even_Qeq (x y : Q) : x == y -> round_half_even x = round_half_even y.
Proof.
  intros H. unfold round_half_even.
  rewrite (Qfloor_comp x y H).
  assert (Hc : (x - inject_Z (Qfloor y) ?= 1 # 2) = (y - inject_Z (Qfloor y) ?= 1 # 2)).
  { apply Qcompare_comp; [now rewrite H | reflexivity]. }
  now rewrite Hc.
Qed.

Lemma round_pos_Qeq (s : bool) (q q' : Q) : q == q' -> round_pos s q = round_pos s q'.
Proof. intros H. unfold round_pos. now rewrite (Qred_complete q q' H). Qed.

(** A power of two in the normal range is its own rounding. *)
Lemma rounded_value_pow2 (k : Z) (q : Q) :
  (-1022 <= k)%Z -> q == 2 ^ k -> rounded_value q == 2 ^ k.
Proof.
  intros Hk Hq.
  assert (Hl : flog2 q = k).
  { apply flog2_unique; rewrite Hq; [apply Qle_refl|].
    rewrite pow2_succ. assert (H := pow2_pos k). lra. }
  unfold rounded_value, exponent_of. rewrite Hl.
  replace (Z.max (k - 52) (-1074)) with (k - 52)%Z by lia.
  assert (Hd : q / 2 ^ (k - 52) == inject_Z (2 ^ 52)).
  { rewrite Hq. replace k with (52 + (k - 52))%Z at 1 by lia.
    rewrite pow2_add. change (inject_Z (2 ^ 52)) with (2 ^ 52). field.
    apply Qnot_eq_sym, Qlt_not_eq, pow2_pos. }
  rewrite (round_half_even_Qeq _ _ Hd), round_half_even_Z.
  change (inject_Z (2 ^ 52)) with (2 ^ 52).
  rewrite <- pow2_add. now replace (52 + (k - 52))%Z with k by lia.
Qed.

(** In the normal range, [round_pos] returns a finite number whose
    magnitude is the rounded value. *)
Lemma round_pos_normal (s : bool) (q : Q) :
  2 ^ (-1022) <= q -> q <= 2 ^ 1000 ->
  exists m e,
    round_pos s q = S754_finite s m e
    /\ inject_Z (Zpos m) * 2 ^ e == rounded_value (Qred q).
Proof.
  intros Hlo Hhi.
  assert (Hlo' : 2 ^ (-1022) <= Qred q) by now rewrite Qred_correct.
  assert (Hhi' : Qred q <= 2 ^ 1000) by now rewrite Qred_correct.
  assert (Hq : 0 < Qred q).
  { eapply Qlt_le_trans; [apply (pow2_pos (-1022)) | exact Hlo']. }
  destruct (flog2_spec (Qred q) Hq) as [H1 H2].
  assert (Hl1 : (-1022 <= flog2 (Qred q))%Z).
  { assert ((-1022 < flog2 (Qred q) + 1)%Z); [|lia].
    apply pow2_lt_inv. eapply Qle_lt_trans; eassumption. }
  assert (Hl2 : (flog2 (Qred q) <= 1000)%Z).
  { apply (Qpower_le_compat_l_inv 2); [|reflexivity].
    eapply Qle_trans; eassumption. }
  unfold round_pos, rounded_value.
  assert (He : exponent_of (Qred q) = (flog2 (Qred q) - 52)%Z)
    by (unfold exponent_of; lia).
  rewrite He.
  remember (flog2 (Qred q)) as l eqn:El. clear El.
  remember (Qred q) as q' eqn:Eq'. clear Eq'.
  assert (Hm1 : (2 ^ 52 <= round_half_even (q' / 2 ^ (l - 52)))%Z).
  { apply round_half_even_ge. change (inject_Z (2 ^ 52)) with (2 ^ 52).
    apply (Qmult_le_r _ _ (2 ^ (l - 52)) (pow2_pos _)).
    rewrite div_pow2, <- pow2_add. now replace (52 + (l - 52))%Z with l by lia. }
  assert (Hm2 : (round_half_even (q' / 2 ^ (l - 52)) <= 2 ^ 53)%Z).
  { apply round_half_even_le. change (inject_Z (2 ^ 53)) with (2 ^ 53).
    apply (Qmult_le_r _ _ (2 ^ (l - 52)) (pow2_pos _)).
    rewrite div_pow2, <- pow2_add.
    replace (53 + (l - 52))%Z with (l + 1)%Z by lia. now apply Qlt_le_weak. }
  remember (round_half_even (q' / 2 ^ (l - 52))) as m eqn:Em. clear Em.
  destruct (Z.eqb_spec m (2 ^ 53)) as [E|NE].
  - subst m. cbn match.
    destruct (Z.ltb_spec 971 (l - 52 + 1)) as [Hbad|_]; [lia|].
    eexists _, _; split; [reflexivity|].
    match goal with
    | |- inject_Z (Zpos ?p) * _ == _ => change (inject_Z (Zpos p)) with (2 ^ 52)
    end.
    change (inject_Z (2 ^ 53)) with (2 ^ 53).
    rewrite <- !pow2_add. now replace (52 + (l - 52 + 1))%Z with (53 + (l - 52))%Z by lia.
  - destruct m as [|p|p]; try (exfalso; lia).
    destruct (Z.ltb_spec 971 (l - 52)) as [Hbad|_]; [lia|].
    eexists _, _; split; reflexivity.
Qed.

Lemma round_pos_in_range (q : Q) (lo hi : Z) :
  (-1022 <= lo)%Z -> (hi <= 1000)%Z -> 2 ^ lo <= q -> q <= 2 ^ hi ->
  in_range (round_pos false q) lo hi.
Proof.
  intros Hlo Hhi H1 H2.
  assert (H1' : 2 ^ (-1022) <= q)
    by (eapply Qle_trans; [apply pow2_le; eassumption | exact H1]).
  assert (H2' : q <= 2 ^ 1000)
    by (eapply Qle_trans; [exact H2 | apply pow2_le; assumption]).
  destruct (round_pos_normal false q H1' H2') as (m & e & Hr & Hv).
  assert (Hq1 : 2 ^ lo <= Qred q) by now rewrite Qred_correct.
  assert (Hq2 : Qred q <= 2 ^ hi) by now rewrite Qred_correct.
  assert (Hq0 : 0 < Qred q)
    by (eapply Qlt_le_trans; [apply (pow2_pos lo) | exact Hq1]).
  assert (Hlh : (lo <= hi)%Z).
  { apply (Qpower_le_compat_l_inv 2); [|reflexivity].
    eapply Qle_trans; eassumption. }
  rewrite Hr. split; [now exists m, e|]. cbn [mag]. rewrite Hv. split.
  - apply Qle_trans with (rounded_value (2 ^ lo)).
    + rewrite (rounded_value_pow2 lo (2 ^ lo)) by (auto; reflexivity).
      apply Qle_refl.
    + apply rounded_value_mono; [apply pow2_pos | exact Hq1].
  - apply Qle_trans with (rounded_value (2 ^ hi)).
    + apply rounded_value_mono; assumption.
    + rewrite (rounded_value_pow2 hi (2 ^ hi)) by (try lia; reflexivity).
      apply Qle_refl.
Qed.

Lemma round_pos_mag_mono (q1 q2 : Q) :
  2 ^ (-1022) <= q1 -> q1 <= q2 -> q2 <= 2 ^ 1000 ->
  mag (round_pos false q1) <= mag (round_pos false q2).
Proof.
  intros H1 H12 H2.
  assert (H1' : q1 <= 2 ^ 1000) by (eapply Qle_trans; eassumption).
  assert (H2' : 2 ^ (-1022) <= q2) by (eapply Qle_trans; eassumption).
  destruct (round_pos_normal false q1 H1 H1') as (m1 & e1 & Hr1 & Hv1).
  destruct (round_pos_normal false q2 H2' H2) as (m2 & e2 & Hr2 & Hv2).
  rewrite Hr1, Hr2. cbn [mag]. rewrite Hv1, Hv2.
  apply rounded_value_mono.
  - rewrite Qred_correct.
    eapply Qlt_le_trans; [apply (pow2_pos (-1022)) | exact H1].
  - now rewrite !Qred_correct.
Qed.

Lemma of_Z_pos (z : Z) : (0 < z)%Z -> of_Z z = round_pos false (inject_Z z).
Proof.
  intros Hz. unfold of_Z, of_Q.
  destruct (Qcompare_spec (inject_Z z) 0) as [H|H|H]; try reflexivity; exfalso.
  - unfold Qeq in H. simpl in H. lia.
  - unfold Qlt in H. simpl in H. lia.
Qed.

Lemma of_Z_in_range (z hi : Z) :
  (1 <= z <= 2 ^ hi)%Z -> (0 <= hi <= 1000)%Z -> in_range (of_Z z) 0 hi.
Proof.
  intros Hz Hhi. rewrite of_Z_pos by lia.
  apply round_pos_in_range; try lia.
  - change (2 ^ 0) with (inject_Z 1). rewrite <- Zle_Qle. lia.
  - rewrite pow2_inject by lia. rewrite <- Zle_Qle. lia.
Qed.

Lemma of_Z_mag_mono (z1 z2 hi : Z) :
  (1 <= z1 <= z2)%Z -> (z2 <= 2 ^ hi)%Z -> (0 <= hi <= 1000)%Z ->
  mag (of_Z z1) <= mag (of_Z z2).
Proof.
  intros H12 H2 Hhi. rewrite !of_Z_pos by lia.
  apply round_pos_mag_mono.
  - apply Qle_trans with (inject_Z 1); [discriminate|]. rewrite <- Zle_Qle. lia.
  - rewrite <- Zle_Qle. lia.
  - apply Qle_trans with (2 ^ hi); [|apply pow2_le; lia].
    rewrite pow2_inject by lia. rewrite <- Zle_Qle. lia.
Qed.

Lemma in_range_pos (x : number) (lo hi : Z) : in_range x lo hi -> 0 < mag x.
Proof.
  intros (_ & H & _). eapply Qlt_le_trans; [apply (pow2_pos lo) | exact H].
Qed.

Lemma quotient_bounds (A B : Q) (la ha lb hb : Z) :
  2 ^ la <= A -> A <= 2 ^ ha -> 2 ^ lb <= B -> B <= 2 ^ hb ->
  2 ^ (la - hb) <= A / B /\ A / B <= 2 ^ (ha - lb).
Proof.
  intros Ha1 Ha2 Hb1 Hb2.
  assert (HL := pow2_pos la). assert (HH := pow2_pos hb).
  assert (HL' := pow2_pos lb).
  assert (Hpb : 0 < B) by (eapply Qlt_le_trans; eassumption).
  split.
  - apply Qle_shift_div_l; [exact Hpb|].
    unfold Zminus. rewrite pow2_add, Qpower_opp.
    apply Qle_trans with (2 ^ la * / 2 ^ hb * 2 ^ hb).
    + apply Qmult_le_l; [|exact Hb2].
      apply Qmult_lt_0_compat; [exact HL | now apply Qinv_lt_0_compat].
    + rewrite <- Qmult_assoc, (Qmult_comm (/ _)), Qmult_inv_r, Qmult_1_r;
        [exact Ha1 | apply Qnot_eq_sym, Qlt_not_eq, HH].
  - apply Qle_shift_div_r; [exact Hpb|].
    unfold Zminus. rewrite pow2_add, Qpower_opp.
    apply Qle_trans with (2 ^ ha * / 2 ^ lb * 2 ^ lb).
    + rewrite <- Qmult_assoc, (Qmult_comm (/ _)), Qmult_inv_r, Qmult_1_r;
        [exact Ha2 | apply Qnot_eq_sym, Qlt_not_eq, HL'].
    + apply Qmult_le_l; [|exact Hb1].
      apply Qmult_lt_0_compat; [apply pow2_pos | apply Qinv_lt_0_compat, HL'].
Qed.

Lemma div_in_range (a b : number) (la ha lb hb : Z) :
  in_range a la ha -> in_range b lb hb ->
  (-1022 <= la - hb)%Z -> (ha - lb <= 1000)%Z ->
  div a b = round_pos false (mag a / mag b)
  /\ in_range (div a b) (la - hb) (ha - lb).
Proof.
  intros Ha Hb H1 H2.
  destruct Ha as ((ma & ea & ->) & Ha1 & Ha2), Hb as ((mb & eb & ->) & Hb1 & Hb2).
  assert (E : div (S754_finite false ma ea) (S754_finite false mb eb)
              = round_pos false (mag (S754_finite false ma ea)
                                 / mag (S754_finite false mb eb)))
    by reflexivity.
  split; [exact E|]. rewrite E.
  destruct (quotient_bounds _ _ la ha lb hb Ha1 Ha2 Hb1 Hb2).
  now apply round_pos_in_range.
Qed.

Lemma of_Z_100 : of_Z 100 = S754_finite false 7036874417766400 (-46).
Proof. vm_compute. reflexivity. Qed.

Lemma mag_100 : mag (of_Z 100) == 100.
Proof. rewrite of_Z_100. vm_compute. reflexivity. Qed.

Lemma mul_100_in_range (x : number) (lo hi : Z) :
  in_range x lo hi -> (-1022 <= lo)%Z -> (hi + 7 <= 1000)%Z ->
  mul x (of_Z 100) = round_pos false (mag x * mag (of_Z 100))
  /\ in_range (mul x (of_Z 100)) lo (hi + 7).
Proof.
  intros Hx H1 H2.
  assert (Hp := in_range_pos _ _ _ Hx).
  destruct Hx as ((m & e & ->) & Hx1 & Hx2).
  assert (E : mul (S754_finite false m e) (of_Z 100)
              = round_pos false (mag (S754_finite false m e) * mag (of_Z 100))).
  { rewrite of_Z_100. reflexivity. }
  split; [exact E|]. rewrite E.
  remember (mag (S754_finite false m e)) as X eqn:EX. clear EX.
  apply round_pos_in_range; auto; rewrite mag_100.
  - assert (HL := pow2_pos lo). nra.
  - rewrite pow2_add. change (2 ^ 7) with 128. assert (HH := pow2_pos hi). nra.
Qed.

(** The Number that [Math.round] returns on a positive finite argument. *)
Lemma Math_round_pos (y : number) (lo hi : Z) :
  in_range y lo hi -> (0 <= hi)%Z ->
  let z := Qfloor (mag y + (1 # 2)) in
  (0 <= z <= 2 ^ (hi + 1))%Z
  /\ Math_round y = if (z =? 0)%Z then S754_zero false else of_Z z.
Proof.
  intros Hy Hhi z.
  assert (Hp := in_range_pos _ _ _ Hy).
  destruct Hy as ((m & e & ->) & Hy1 & Hy2).
  split; [|reflexivity].
  unfold z. remember (mag (S754_finite false m e)) as Y eqn:EY. clear EY.
  split.
  - change 0%Z with (Qfloor 0). apply Qfloor_resp_le. lra.
  - rewrite <- (Qfloor_Z (2 ^ (hi + 1))). apply Qfloor_resp_le.
    rewrite <- pow2_inject, pow2_succ by lia.
    assert (1 <= 2 ^ hi).
    { change 1 with (2 ^ 0). apply pow2_le. lia. }
    lra.
Qed.

Lemma Math_round_leb (y1 y2 : number) (lo hi : Z) :
  in_range y1 lo hi -> in_range y2 lo hi -> (0 <= hi <= 998)%Z ->
  mag y1 <= mag y2 ->
  leb (Math_round y1) (Math_round y2) = true.
Proof.
  intros H1 H2 Hhi Hle.
  destruct (Math_round_pos y1 lo hi H1 (proj1 Hhi)) as [Hz1 E1].
  destruct (Math_round_pos y2 lo hi H2 (proj1 Hhi)) as [Hz2 E2].
  assert (Hz : (Qfloor (mag y1 + (1 # 2)) <= Qfloor (mag y2 + (1 # 2)))%Z).
  { apply Qfloor_resp_le. lra. }
  rewrite E1, E2. clear E1 E2.
  remember (Qfloor (mag y1 + (1 # 2))) as z1 eqn:Ez1. clear Ez1.
  remember (Qfloor (mag y2 + (1 # 2))) as z2 eqn:Ez2. clear Ez2.
  destruct (Z.eqb_spec z1 0) as [->|N1], (Z.eqb_spec z2 0) as [->|N2].
  - reflexivity.
  - destruct (of_Z_in_range z2 (hi + 1)) as ((m & e & E) & Hlo & _); try lia.
    assert (Hm := Hlo). rewrite E in Hm |- *.
    cbn [leb]. apply Qle_bool_iff. cbn [to_Q]. cbn [mag] in Hm.
    eapply Qle_trans; [|exact Hm]. discriminate.
  - exfalso; lia.
  - assert (Hm := of_Z_mag_mono z1 z2 (hi + 1)).
    destruct (of_Z_in_range z1 (hi + 1)) as ((m1 & e1 & E1) & _); try lia.
    destruct (of_Z_in_range z2 (hi + 1)) as ((m2 & e2 & E2) & _); try lia.
    rewrite E1, E2 in Hm |- *. cbn [leb]. apply Qle_bool_iff. cbn [to_Q].
    apply Hm; lia.
Qed.

Lemma leb_zero_Math_round (y : number) (lo hi : Z) :
  in_range y lo hi -> (0 <= hi <= 998)%Z ->
  leb zero (Math_round y) = true.
Proof.
  intros H1 Hhi.
  destruct (Math_round_pos y lo hi H1 (proj1 Hhi)) as [Hz E].
  rewrite E. clear E.
  remember (Qfloor (mag y + (1 # 2))) as z eqn:Ez. clear Ez.
  destruct (Z.eqb_spec z 0) as [->|N1]; [reflexivity|].
  destruct (of_Z_in_range z (hi + 1)) as ((m & e & E) & Hlo & _); try lia.
  assert (Hm := Hlo). rewrite E in Hm |- *.
  unfold zero. cbn [leb]. apply Qle_bool_iff. cbn [to_Q]. cbn [mag] in Hm.
  eapply Qle_trans; [|exact Hm]. discriminate.
Qed.

(** ** The percentage of a progress snapshot *)

Lemma of_nat_in_range (j : nat) :
  (1 <= j)%nat -> (Z.of_nat j <= 2 ^ 32)%Z -> in_range (of_nat j) 0 32.
Proof. intros H1 H2. apply of_Z_in_range; lia. Qed.

(** The argument of [Math.round] in the percentage of segment [j] of [n]. *)
Lemma scaled_ratio_in_range (j n : nat) :
  (1 <= j <= n)%nat -> (Z.of_nat n <= 2 ^ 32)%Z ->
  in_range (mul (div (of_nat j) (of_nat n)) (of_Z 100)) (-32) 39.
Proof.
  intros Hj Hn.
  assert (Ha : in_range (of_nat j) 0 32) by (apply of_nat_in_range; lia).
  assert (Hb : in_range (of_nat n) 0 32) by (apply of_nat_in_range; lia).
  destruct (div_in_range _ _ 0 32 0 32 Ha Hb) as [_ Hx]; try lia.
  now destruct (mul_100_in_range _ (0 - 32) (32 - 0) Hx) as [_ Hy].
Qed.

Lemma scaled_ratio_mono (j1 j2 n : nat) :
  (1 <= j1 <= j2)%nat -> (j2 <= n)%nat -> (Z.of_nat n <= 2 ^ 32)%Z ->
  mag (mul (div (of_nat j1) (of_nat n)) (of_Z 100))
  <= mag (mul (div (of_nat j2) (of_nat n)) (of_Z 100)).
Proof.
  intros Hj1 Hj2 Hn.
  assert (Ha1 : in_range (of_nat j1) 0 32) by (apply of_nat_in_range; lia).
  assert (Ha2 : in_range (of_nat j2) 0 32) by (apply of_nat_in_range; lia).
  assert (Hb : in_range (of_nat n) 0 32) by (apply of_nat_in_range; lia).
  assert (Ha : mag (of_nat j1) <= mag (of_nat j2)).
  { apply (of_Z_mag_mono _ _ 32); lia. }
  destruct (div_in_range _ _ 0 32 0 32 Ha1 Hb) as [E1 Hx1]; try lia.
  destruct (div_in_range _ _ 0 32 0 32 Ha2 Hb) as [E2 Hx2]; try lia.
  assert (Hx : mag (div (of_nat j1) (of_nat n)) <= mag (div (of_nat j2) (of_nat n))).
  { rewrite E1, E2.
    assert (Hpb := in_range_pos _ _ _ Hb).
    destruct Ha1 as (_ & L1 & U1), Ha2 as (_ & L2 & U2), Hb as (_ & Lb & Ub).
    destruct (quotient_bounds _ _ 0 32 0 32 L1 U1 Lb Ub) as [Q1 _].
    destruct (quotient_bounds _ _ 0 32 0 32 L2 U2 Lb Ub) as [_ Q2].
    apply round_pos_mag_mono.
    - eapply Qle_trans; [|exact Q1]. apply pow2_le. lia.
    - apply Qmult_le_compat_r; [exact Ha|].
      apply Qlt_le_weak, Qinv_lt_0_compat, Hpb.
    - eapply Qle_trans; [exact Q2|]. apply pow2_le. lia. }
  destruct (mul_100_in_range _ _ _ Hx1) as [F1 _]; try lia.
  destruct (mul_100_in_range _ _ _ Hx2) as [F2 _]; try lia.
  rewrite F1, F2.
  destruct Hx1 as (_ & L1 & U1), Hx2 as (_ & L2 & U2).
  assert (HL := pow2_pos (0 - 32)). assert (HU := pow2_pos (32 - 0)).
  apply round_pos_mag_mono; rewrite ?mag_100.
  - apply Qle_trans with (2 ^ (0 - 32)); [apply pow2_le; lia|]. nra.
  - nra.
  - apply Qle_trans with (2 ^ (32 - 0 + 7)); [|apply pow2_le; lia].
    rewrite pow2_add. change (2 ^ 7) with 128. nra.
Qed.

(** The percentages of a run never decrease. *)
Lemma percentage_at_mono (i1 i2 n : nat) :
  (i1 <= i2)%nat -> (i2 < n)%nat -> (Z.of_nat n <= 2 ^ 32)%Z ->
  leb (percentage_at i1 n) (percentage_at i2 n) = true.
Proof.
  intros H1 H2 Hn. unfold percentage_at.
  apply (Math_round_leb _ _ (-32) 39); try lia.
  - apply scaled_ratio_in_range; lia.
  - apply scaled_ratio_in_range; lia.
  - apply scaled_ratio_mono; lia.
Qed.

Lemma percentage_at_nonneg (i n : nat) :
  (i < n)%nat -> (Z.of_nat n <= 2 ^ 32)%Z ->
  leb zero (percentage_at i n) = true.
Proof.
  intros H1 Hn. unfold percentage_at.
  apply (leb_zero_Math_round _ (-32) 39); try lia.
  apply scaled_ratio_in_range; lia.
Qed.

(** The percentage after the last segment is exactly 100. *)
Lemma percentage_at_last (n : nat) :
  (1 <= n)%nat -> (Z.of_nat n <= 2 ^ 32)%Z ->
  percentage_at (n - 1) n = of_Z 100.
Proof.
  intros H1 Hn. unfold percentage_at.
  replace (n - 1 + 1)%nat with n by lia.
  assert (Hb : in_range (of_nat n) 0 32) by (apply of_nat_in_range; lia).
  destruct (div_in_range _ _ 0 32 0 32 Hb Hb) as [E _]; try lia.
  rewrite E.
  assert (Hp := in_range_pos _ _ _ Hb).
  rewrite (round_pos_Qeq false (mag (of_nat n) / mag (of_nat n)) 1).
  - vm_compute. reflexivity.
  - field. apply Qnot_eq_sym, Qlt_not_eq, Hp.
Qed.
End Rounding.

(* ================================================================== *)
(** * The download pipeline *)
(* ================================================================== *)

Section Pipeline.
Import Types VideoDownloader Run Spec.
Local Open Scope nat_scope.

Variable w : World.
Variable playlist : M3U8Playlist.

(** Unfolds the operations of the monad in the goal ([run_goal]) or in a
    hypothesis ([run_in H]). *)
Ltac run_goal :=
  unfold bind, try_catch, fetch, signal_aborted, emit, onProgress, await,
    ret, bind, cancelDownload, throw, onError, emit;
  cbn [abortController trace].

Ltac run_in H :=
  unfold bind, try_catch, fetch, signal_aborted, emit, onProgress, await,
    ret, bind, cancelDownload, throw, onError, emit in H;
  cbn [abortController trace] in H.

Ltac reduce_response :=
  repeat (progress cbn [response ok arrayBuffer statusText
                        cancelled_meanwhile negb abortController trace] in * ).

Lemma totalLength_concat (segs : list Uint8Array) :
  forall acc,
    fold_left (fun sum segment => sum + List.length segment) segs acc
    = acc + List.length (List.concat segs).
Proof.
  induction segs as [|x segs IH]; intros acc; simpl; [lia|].
  rewrite IH, length_app. lia.
Qed.

(** The copy loop fills the zeroed buffer from the left: with [done]
    already in place, it leaves [done] followed by the segments. *)
Lemma combine_loop_spec (segs : list Uint8Array) :
  forall done st,
    combine_loop segs (done ++ repeat x00 (List.length (List.concat segs)))
                 (List.length done) st
    = (Normal (done ++ List.concat segs), st).
Proof.
  induction segs as [|x segs IH]; intros done st; simpl.
  - reflexivity.
  - unfold bind, typedArray_set.
    rewrite !length_app, repeat_length.
    destruct (Nat.ltb_spec (List.length done + (List.length x + List.length (List.concat segs)))
                           (List.length done + List.length x)) as [Hlt|_];
      [lia|].
    unfold ret.
    rewrite firstn_app, firstn_all, Nat.sub_diag, firstn_O, app_nil_r.
    rewrite skipn_app, skipn_all2 by lia.
    replace (List.length done + List.length x - List.length done)
      with (List.length x) by lia.
    rewrite repeat_app, skipn_app, repeat_length, skipn_all2
      by (rewrite repeat_length; lia).
    rewrite Nat.sub_diag. cbn [skipn app].
    specialize (IH (done ++ x) st).
    rewrite length_app, <- !app_assoc in IH. exact IH.
Qed.

Lemma fetch_succeeds_inv (i : nat) (segment : M3U8Segment) :
  fetch_succeeds w i segment = true ->
  exists text,
    network w i (uri segment)
    = {| cancelled_meanwhile := false;
         response := Normal {| ok := true; statusText := text;
                               arrayBuffer := Normal (body_of w i segment) |} |}.
Proof.
  unfold fetch_succeeds, body_of.
  destruct (network w i (uri segment)) as [c [[o t [b|e]]|e]]; simpl;
    rewrite ?andb_false_r; try discriminate.
  destruct c, o; try discriminate. intros _. now exists t.
Qed.

Lemma all_succeed_from_cons (i : nat) (segment : M3U8Segment)
    (rest : list M3U8Segment) :
  all_succeed_from w i (segment :: rest) ->
  fetch_succeeds w i segment = true /\ all_succeed_from w (i + 1) rest.
Proof.
  intros Hall; split.
  - specialize (Hall 0 segment eq_refl). now rewrite Nat.add_0_r in Hall.
  - intros j s Hj. specialize (Hall (S j) s Hj).
    now replace (i + 1 + j) with (i + S j) by lia.
Qed.

(** The loop over a prefix of segments whose fetches all succeed, with
    nothing cancelling: it continues on what follows, with the bodies, the
    counters and the calls of the prefix added. *)
Lemma download_loop_app (pre rest : list M3U8Segment) :
  forall i segs totalBytes downloadedBytes tr,
    quiet_handlers w ->
    all_succeed_from w i pre ->
    download_loop w playlist (pre ++ rest) i segs totalBytes downloadedBytes
      {| abortController := Some false; trace := tr |}
    = download_loop w playlist rest (i + List.length pre)
        (segs ++ bodies_from w i pre)
        (totalBytes + List.length (List.concat (bodies_from w i pre)))
        (downloadedBytes + List.length (List.concat (bodies_from w i pre)))
        {| abortController := Some false;
           trace := tr ++ loop_calls w playlist pre i totalBytes downloadedBytes |}.
Proof.
  induction pre as [|segment pre IH]; intros i segs tb db tr Hq Hall.
  - cbn [app bodies_from loop_calls List.length List.concat].
    now rewrite !app_nil_r, !Nat.add_0_r.
  - destruct (all_succeed_from_cons i segment pre Hall) as [H0 Hrest].
    destruct (fetch_succeeds_inv i segment H0) as [text Hnet].
    cbn [app download_loop bodies_from loop_calls].
    run_goal. rewrite Hnet. reduce_response. rewrite Hq.
    rewrite IH by assumption.
    cbn [List.concat List.length]. rewrite length_app, <- !app_assoc.
    cbn [app].
    f_equal; lia.
Qed.

(** The loop, when every remaining fetch succeeds and nothing cancels. *)
Lemma download_loop_success (rest : list M3U8Segment) :
  forall i segs totalBytes downloadedBytes tr,
    quiet_handlers w ->
    all_succeed_from w i rest ->
    download_loop w playlist rest i segs totalBytes downloadedBytes
      {| abortController := Some false; trace := tr |}
    = (Normal (segs ++ bodies_from w i rest),
       {| abortController := Some false;
          trace := tr ++ loop_calls w playlist rest i totalBytes downloadedBytes |}).
Proof.
  intros i segs tb db tr Hq Hall.
  rewrite <- (app_nil_r rest) at 1.
  now rewrite download_loop_app.
Qed.

(** The iteration on a segment whose fetch fails for a reason other than
    an abort: the error handler is told, and the error leaves the loop. *)
Lemma download_loop_failure (segment : M3U8Segment) (rest : list M3U8Segment) :
  forall i segs totalBytes downloadedBytes tr e,
    failure_of w i segment = Some e ->
    isAbortError e = false ->
    download_loop w playlist (segment :: rest) i segs totalBytes downloadedBytes
      {| abortController := Some false; trace := tr |}
    = (Throw e,
       {| abortController :=
            Some (cancelled_meanwhile (network w i (uri segment)));
          trace := tr ++ [fetch_called (uri segment);
                          onError_called
                            (lit "Error downloading segment "
                               ++ decimal (i + 1) ++ lit ": " ++ toString e)] |}).
Proof.
  intros i segs tb db tr e Hf Ha.
  unfold failure_of in Hf.
  cbn [download_loop]. run_goal.
  destruct (network w i (uri segment)) as [c [[[|] t [b|e']]|e']];
    destruct c; reduce_response;
    try discriminate;
    injection Hf as <-; rewrite ?Ha;
    repeat match goal with
           | |- context [isAbortError (Error ?m)] =>
               change (isAbortError (Error m)) with false
           end;
    reduce_response;
    rewrite <- ?app_assoc; reflexivity.
Qed.

Lemma isAbortError_Error (message : jsstring) :
  isAbortError (Error message) = false.
Proof. reflexivity. Qed.

(** A whole run in which every fetch succeeds and nothing cancels: the
    result and the calls made, whatever the downloader did before. *)
Lemma downloadM3U8_success (controller : option bool) :
  quiet_handlers w ->
  all_succeed w playlist ->
  downloadM3U8 w playlist (idle controller)
  = (Normal {| bytes := List.concat (bodies w playlist);
               type := lit "video/mp4" |},
     {| abortController := Some false;
        trace := onProgress_called (initial_progress playlist)
                 :: loop_calls w playlist (segments playlist) 0 0 0 |}).
Proof.
  intros Hq Hall. unfold downloadM3U8, idle.
  unfold bind at 1, new_AbortController. cbn [trace].
  unfold try_catch, bind at 1, onProgress, bind at 1, emit.
  cbn [abortController trace app].
  fold (initial_progress playlist). rewrite Hq. unfold ret at 1.
  unfold bind at 1.
  rewrite (download_loop_success (segments playlist) 0 [] 0 0 _ Hq Hall).
  cbn [app]. fold (bodies w playlist).
  unfold bind at 1.
  rewrite totalLength_concat. cbn [Nat.add].
  rewrite (combine_loop_spec (bodies w playlist) []).
  reflexivity.
Qed.

(** Whenever the loop ends normally, it has collected the fetched bodies of
    its segments, in order. *)
Lemma download_loop_returns (rest : list M3U8Segment) :
  forall i segs totalBytes downloadedBytes st r st',
    download_loop w playlist rest i segs totalBytes downloadedBytes st
    = (Normal r, st') ->
    r = segs ++ bodies_from w i rest.
Proof.
  induction rest as [|segment rest IH]; intros i segs tb db st r st' H.
  - cbn in H. injection H as <- _. now rewrite app_nil_r.
  - cbn [download_loop] in H. cbn [bodies_from]. unfold body_of.
    destruct st as [[[|]|] tr]; run_in H; try discriminate.
    destruct (network w i (uri segment)) as [c [[[|] t [b|e']]|e']];
      destruct c; reduce_response;
      repeat match type of H with
             | context [if ?b then _ else _] => destruct b
             end;
      reduce_response;
      try discriminate;
      apply IH in H; rewrite H, <- app_assoc; reflexivity.
Qed.

(** Whenever a run returns, the blob holds the concatenation of the
    fetched bodies. *)
Lemma downloadM3U8_returns (st : State) (blob : Blob) (st' : State) :
  downloadM3U8 w playlist st = (Normal blob, st') ->
  blob = {| bytes := List.concat (bodies w playlist);
            type := lit "video/mp4" |}.
Proof.
  unfold downloadM3U8.
  unfold bind at 1, new_AbortController.
  unfold try_catch, bind at 1, onProgress, bind at 1, emit.
  cbn [abortController trace].
  set (st1 := {| abortController := Some false; trace := _ |}).
  assert (Hh : exists st2,
             (if progress_handler_cancels w
                   {| segmentIndex := 0;
                      totalSegments := List.length (segments playlist);
                      downloadedBytes := 0; totalBytes := 0;
                      percentage := zero |}
              then cancelDownload else ret tt) st1 = (Normal tt, st2)).
  { destruct (progress_handler_cancels w _); eexists; reflexivity. }
  destruct Hh as [st2 ->].
  unfold bind at 1.
  destruct (download_loop w playlist (segments playlist) 0 [] 0 0 st2)
    as [[segs|e] st3] eqn:Hloop.
  - apply download_loop_returns in Hloop. cbn [app] in Hloop. subst segs.
    fold (bodies w playlist).
    unfold bind at 1. rewrite totalLength_concat. cbn [Nat.add].
    rewrite (combine_loop_spec (bodies w playlist) []).
    unfold ret. intros H. now injection H as <- _.
  - destruct (isAbortError e); discriminate.
Qed.

(** C3.  When every segment fetch succeeds (and nothing cancels the run),
    the run returns a blob whose bytes are the fetched bodies, one after
    the other in playlist order, and nothing else.  More generally, a run
    that returns at all returns that blob. *)
Theorem downloadM3U8_concatenates (controller : option bool) :
  (quiet_handlers w ->
   all_succeed w playlist ->
   fst (downloadM3U8 w playlist (idle controller))
   = Normal {| bytes := List.concat (bodies w playlist);
               type := lit "video/mp4" |})
  /\ (forall blob,
        fst (downloadM3U8 w playlist (idle controller)) = Normal blob ->
        blob = {| bytes := List.concat (bodies w playlist);
                  type := lit "video/mp4" |}).
Proof.
  split.
  - intros Hq Hall. now rewrite downloadM3U8_success.
  - intros blob H.
    destruct (downloadM3U8 w playlist (idle controller)) as [c st'] eqn:E.
    cbn [fst] in H. subst c. exact (downloadM3U8_returns _ _ _ E).
Qed.

(** C4.  When the fetches of the first [k - 1] segments succeed, nothing
    cancels, and the fetch of segment [k] fails with an error [e] that is
    not an abort, the run fails: it returns no blob, it throws [e], and the
    error handler is called once, with a message that carries the index [k]
    and the cause. *)
Theorem downloadM3U8_segment_failure (controller : option bool)
    (pre post : list M3U8Segment) (segment : M3U8Segment) (e : thrown) :
  segments playlist = pre ++ segment :: post ->
  quiet_handlers w ->
  all_succeed_from w 0 pre ->
  failure_of w (List.length pre) segment = Some e ->
  isAbortError e = false ->
  let k := List.length pre + 1 in
  let (result, st) := downloadM3U8 w playlist (idle controller) in
  result = Throw e
  /\ error_events (trace st)
     = [lit "Error downloading segment " ++ decimal k ++ lit ": " ++ toString e]
  /\ List.length (progress_events (trace st)) = k
  /\ List.length (fetch_events (trace st)) = k.
Proof.
  intros Hsegs Hq Hall Hf Ha k.
  unfold downloadM3U8, idle.
  unfold bind at 1, new_AbortController. cbn [trace].
  unfold try_catch, bind at 1, onProgress, bind at 1, emit.
  cbn [abortController trace app]. rewrite Hq. unfold ret at 1.
  unfold bind at 1.
  replace (download_loop w playlist (segments playlist))
    with (download_loop w playlist (pre ++ segment :: post))
    by now rewrite Hsegs.
  rewrite (download_loop_app pre (segment :: post) 0 [] 0 0 _ Hq Hall).
  cbn [Nat.add].
  rewrite (download_loop_failure segment post _ _ _ _ _ e Hf Ha).
  rewrite Ha. unfold throw. cbn [trace].
  assert (Hcalls : forall rest i tb db,
             error_events (loop_calls w playlist rest i tb db) = []
             /\ List.length (progress_events (loop_calls w playlist rest i tb db))
                = List.length rest
             /\ List.length (fetch_events (loop_calls w playlist rest i tb db))
                = List.length rest).
  { induction rest as [|x rest IH]; intros i tb db;
      cbn [loop_calls]; [now repeat split|].
    destruct (IH (i + 1) (tb + List.length (body_of w i x))
                 (db + List.length (body_of w i x))) as (H1 & H2 & H3).
    unfold error_events, progress_events, fetch_events in *.
    cbn [flat_map app List.length]. rewrite H1, H2, H3. now repeat split. }
  destruct (Hcalls pre 0 0 0) as (H1 & H2 & H3).
  unfold error_events, progress_events, fetch_events in *.
  cbn [flat_map app]. rewrite !flat_map_app, H1.
  cbn [flat_map app List.length]. rewrite !length_app, H2, H3.
  cbn [List.length]. unfold k. repeat split; lia.
Qed.

(** A cancellation requested before the run starts is discarded: the run
    installs a fresh abort controller and behaves as on a new downloader. *)
Lemma downloadM3U8_discards_earlier_cancel (controller : option bool) :
  downloadM3U8 w playlist (idle controller)
  = downloadM3U8 w playlist (idle None).
Proof. reflexivity. Qed.

(** C5, for a playlist that has a segment.  When the signal is set before
    the first fetch begins (the handler of the first progress call cancels
    the download), the run fails with the cancellation error, and the only
    call it has made is that progress call: no fetch is performed. *)
Theorem downloadM3U8_cancelled_before_first_fetch (controller : option bool) :
  segments playlist <> [] ->
  progress_handler_cancels w (initial_progress playlist) = true ->
  downloadM3U8 w playlist (idle controller)
  = (Throw CancelledError,
     {| abortController := Some true;
        trace := [onProgress_called (initial_progress playlist)] |}).
Proof.
  intros Hne Hc. unfold downloadM3U8, idle.
  unfold bind at 1, new_AbortController. cbn [trace].
  unfold try_catch, bind at 1, onProgress, bind at 1, emit.
  cbn [abortController trace app].
  fold (initial_progress playlist). rewrite Hc.
  unfold cancelDownload. cbn [abortController trace].
  destruct (segments playlist) as [|segment rest] eqn:Hs; [congruence|].
  unfold bind at 1. cbn [download_loop].
  unfold bind at 1, signal_aborted. cbn [abortController].
  unfold throw at 1. rewrite isAbortError_Error. reflexivity.
Qed.

(** The progress calls of the loop: indices and percentages. *)
Lemma progress_of_loop_calls (rest : list M3U8Segment) :
  forall i tb db,
    map segmentIndex (progress_events (loop_calls w playlist rest i tb db))
    = seq (i + 1) (List.length rest)
    /\ map percentage (progress_events (loop_calls w playlist rest i tb db))
       = map (fun j => percentage_at j (List.length (segments playlist)))
             (seq i (List.length rest)).
Proof.
  induction rest as [|x rest IH]; intros i tb db; [now split|].
  destruct (IH (i + 1) (tb + List.length (body_of w i x))
               (db + List.length (body_of w i x))) as [H1 H2].
  unfold progress_events in *. cbn [loop_calls flat_map app map List.length seq].
  cbn [segmentIndex percentage].
  rewrite H1, H2. rewrite !Nat.add_1_r. now split.
Qed.

Lemma non_decreasing_cons_map_seq (f : nat -> number) (n : nat) :
  forall x0 i,
    (n = 0 \/ leb x0 (f i) = true) ->
    (forall j1 j2, i <= j1 -> j1 <= j2 -> j2 < i + n -> leb (f j1) (f j2) = true) ->
    non_decreasing (x0 :: map f (seq i n)).
Proof.
  induction n as [|n IH]; intros x0 i H0 Hf; [exact I|].
  cbn [seq map]. split.
  - destruct H0 as [H0|H0]; [discriminate | exact H0].
  - apply IH.
    + destruct n as [|n]; [now left | right]. apply Hf; lia.
    + intros j1 j2 H1 H2 H3. apply Hf; lia.
Qed.

(** C2.  In a run over [N >= 1] segments in which every fetch succeeds and
    nothing cancels, the progress handler is called [N + 1] times, with
    [segmentIndex] 0, 1, ..., [N] in this order; the percentages never
    decrease, and the last one is exactly 100.  ([N] is an array length,
    hence below 2^32.) *)
Theorem downloadM3U8_progress_sequence (controller : option bool) :
  let N := List.length (segments playlist) in
  1 <= N ->
  (Z.of_nat N < 2 ^ 32)%Z ->
  quiet_handlers w ->
  all_succeed w playlist ->
  let ps := progress_events
              (trace (snd (downloadM3U8 w playlist (idle controller)))) in
  List.length ps = N + 1
  /\ map segmentIndex ps = seq 0 (N + 1)
  /\ non_decreasing (map percentage ps)
  /\ last (map percentage ps) NaN = of_Z 100.
Proof.
  intros N HN1 HN2 Hq Hall ps.
  unfold ps. rewrite (downloadM3U8_success controller Hq Hall). cbn [snd trace].
  destruct (progress_of_loop_calls (segments playlist) 0 0 0) as [Hi Hp].
  change (progress_events
            (onProgress_called (initial_progress playlist)
             :: loop_calls w playlist (segments playlist) 0 0 0))
    with (initial_progress playlist
          :: progress_events (loop_calls w playlist (segments playlist) 0 0 0)).
  cbn [map List.length]. rewrite Hi, Hp. fold N.
  cbn [initial_progress segmentIndex percentage Nat.add].
  repeat split.
  - rewrite <- (length_map segmentIndex), Hi, length_seq. fold N. lia.
  - replace (N + 1) with (S N) by lia. reflexivity.
  - apply non_decreasing_cons_map_seq.
    + right. apply percentage_at_nonneg; lia.
    + intros j1 j2 H1 H2 H3. apply percentage_at_mono; lia.
  - destruct N as [|n] eqn:EN; [lia|].
    rewrite seq_S, map_app. cbn [map Nat.add].
    rewrite app_comm_cons, last_last.
    replace n with (S n - 1) at 1 by lia.
    apply percentage_at_last; lia.
Qed.

End Pipeline.

(* ================================================================== *)
(** * The properties on the sample inputs *)
(* ================================================================== *)

Section Instances.
Import Types VideoDownloader Spec Run.
Local Open Scope nat_scope.

Lemma parsePlaylist_one_segment_per_reference_line_witness :
  has_header example_text = true
  /\ exists playlist,
       M3U8Parser.parsePlaylist example_text example_base = Normal playlist
       /\ List.length (segments playlist)
          = List.length (reference_lines example_text)
       /\ map uri (segments playlist)
          = map (fun line => M3U8Parser.resolveUrl line example_base)
                (reference_lines example_text).
Proof.
  split; [vm_compute; reflexivity|].
  apply (parsePlaylist_one_segment_per_reference_line example_base example_text).
  vm_compute; reflexivity.
Defined.

Lemma parsePlaylist_titles_witness :
  title example_segment2 = Some (lit "Segment " ++ decimal (1 + 1)).
Proof.
  apply (parsePlaylist_titles example_base example_text example_playlist 1
           example_segment2).
  - vm_compute; reflexivity.
  - reflexivity.
Defined.

Lemma parsePlaylist_totalDuration_witness :
  totalDuration example_playlist = sum_durations (segments example_playlist).
Proof.
  apply (parsePlaylist_totalDuration example_base example_text example_playlist).
  vm_compute; reflexivity.
Defined.

Lemma parsePlaylist_missing_header_witness :
  M3U8Parser.parsePlaylist headerless_text example_base = Throw FormatError.
Proof.
  apply (parsePlaylist_missing_header example_base headerless_text
           (lit "seg1.ts")
           (skipn 1 (nonblank_lines headerless_text))).
  - vm_compute; reflexivity.
  - vm_compute; reflexivity.
Defined.

(** C6 fails on the empty text: it has no non-blank line, and the error is
    the [TypeError] of the access to [lines[0]], not the format error. *)
Lemma parsePlaylist_empty_text_TypeError :
  nonblank_lines (lit "") = []
  /\ M3U8Parser.parsePlaylist (lit "") example_base
     = Throw (TypeError_reading "undefined" "startsWith")
  /\ M3U8Parser.parsePlaylist (lit "") example_base <> Throw FormatError.
Proof.
  split; [reflexivity|]. split; [reflexivity|].
  vm_compute. discriminate.
Qed.

(** C9 fails on a duration line whose value is a lone dot.  The value does
    not parse as a number ([parseFloat] gives NaN on it), yet the pattern
    accepts it: the pending duration 9.5 is replaced by NaN, and the next
    segment, which gets 9.5 when the line is absent, gets NaN. *)
Theorem dotted_duration_line_overwrites_pending_duration :
  parseFloat (lit ".,") = NaN
  /\ M3U8Parser.match_EXTINF (lit "#EXTINF:.,") = Some (lit ".")
  /\ parseFloat (lit ".") = NaN
  /\ durations_of (M3U8Parser.parsePlaylist undotted_text example_base)
     = [parseFloat (lit "9.5")]
  /\ durations_of (M3U8Parser.parsePlaylist dotted_text example_base) = [NaN].
Proof. vm_compute. repeat split. Qed.

Lemma downloadM3U8_progress_sequence_witness :
  let ps := progress_events
              (trace (snd (downloadM3U8 serving_world example_playlist
                             (idle None)))) in
  List.length ps = 2 + 1
  /\ map segmentIndex ps = seq 0 (2 + 1)
  /\ non_decreasing (map percentage ps)
  /\ last (map percentage ps) NaN = of_Z 100.
Proof.
  apply (downloadM3U8_progress_sequence serving_world example_playlist None).
  - simpl; lia.
  - simpl; lia.
  - intros progress; reflexivity.
  - intros j segment _; reflexivity.
Defined.

(** The concatenation example: bodies [01 02] and [03] give [01 02 03]. *)
Lemma downloadM3U8_concatenates_witness :
  fst (downloadM3U8 serving_world example_playlist (idle None))
  = Normal {| bytes := [x01; x02; x03]; type := lit "video/mp4" |}.
Proof.
  apply (proj1 (downloadM3U8_concatenates serving_world example_playlist None)).
  - intros progress; reflexivity.
  - intros j segment _; reflexivity.
Defined.

Lemma downloadM3U8_segment_failure_witness :
  let e := Error (lit "Failed to download segment 2: Not Found") in
  let (result, st) := downloadM3U8 failing_world example_playlist (idle None) in
  result = Throw e
  /\ error_events (trace st)
     = [lit "Error downloading segment " ++ decimal 2 ++ lit ": " ++ toString e]
  /\ List.length (progress_events (trace st)) = 2
  /\ List.length (fetch_events (trace st)) = 2.
Proof.
  apply (downloadM3U8_segment_failure failing_world example_playlist None
           [example_segment1] [] example_segment2
           (Error (lit "Failed to download segment 2: Not Found"))).
  - reflexivity.
  - intros progress; reflexivity.
  - intros [|[|j]] segment H; simpl in H; try discriminate. reflexivity.
  - vm_compute; reflexivity.
  - reflexivity.
Defined.

Lemma downloadM3U8_cancelled_before_first_fetch_witness :
  downloadM3U8 cancelling_world example_playlist (idle None)
  = (Throw CancelledError,
     {| abortController := Some true;
        trace := [onProgress_called (initial_progress example_playlist)] |}).
Proof.
  apply (downloadM3U8_cancelled_before_first_fetch cancelling_world
           example_playlist None).
  - simpl; discriminate.
  - reflexivity.
Defined.

(** C5 fails in two ways.  On a playlist without segments, the signal is
    set during the first progress call, before any fetch, and the run still
    returns a blob, an empty one, since the signal is only read inside the
    loop.  And a signal that was set before the run started belongs to the
    abort controller of an earlier run: the run installs a new controller,
    fetches every segment and returns the whole blob. *)
Lemma downloadM3U8_cancellation_without_effect :
  (progress_handler_cancels cancelling_world (initial_progress empty_playlist)
   = true
   /\ downloadM3U8 cancelling_world empty_playlist (idle None)
      = (Normal {| bytes := []; type := lit "video/mp4" |},
         {| abortController := Some true;
            trace := [onProgress_called (initial_progress empty_playlist)] |})
   /\ fst (downloadM3U8 cancelling_world empty_playlist (idle None))
      <> Throw CancelledError)
  /\ (cancelDownload (idle (Some false)) = (Normal tt, idle (Some true))
      /\ fst (downloadM3U8 serving_world example_playlist (idle (Some true)))
         = Normal {| bytes := [x01; x02; x03]; type := lit "video/mp4" |}
      /\ fetch_events
           (trace (snd (downloadM3U8 serving_world example_playlist
                          (idle (Some true)))))
         = [uri example_segment1; uri example_segment2]
      /\ fst (downloadM3U8 serving_world example_playlist (idle (Some true)))
         <> Throw CancelledError).
Proof.
  split.
  - split; [reflexivity|]. split; [reflexivity|].
    vm_compute. discriminate.
  - split; [reflexivity|]. split; [vm_compute; reflexivity|].
    split; [vm_compute; reflexivity|].
    vm_compute. discriminate.
Qed.

(** C4 fails when the promise of [fetch] is rejected.  The run throws the
    rejection itself, a [TypeError] that carries no index; the index is in
    the message given to the error handler, and nowhere else. *)
Lemma downloadM3U8_rejected_fetch_carries_no_index :
  fetch_succeeds unreachable_world 0 example_segment1 = true
  /\ failure_of unreachable_world 1 example_segment2 = Some Failed_to_fetch
  /\ isAbortError Failed_to_fetch = false
  /\ fst (downloadM3U8 unreachable_world example_playlist (idle None))
     = Throw Failed_to_fetch
  /\ MoreSpec.carries_index Failed_to_fetch 2 = false
  /\ error_events
       (trace (snd (downloadM3U8 unreachable_world example_playlist
                      (idle None))))
     = [lit "Error downloading segment 2: TypeError: Failed to fetch"].
Proof. vm_compute. repeat split. Qed.

End Instances.

(* ================================================================== *)
(** * Further properties of the parser *)
(* ================================================================== *)

Section MoreResolveUrl.
Import M3U8Parser.

(** [lastIndexOf] returns what it was given for "not found" or an index
    of the string. *)
Lemma lastIndexOf_from_range (c : code_unit) (s : jsstring) :
  forall i found,
    lastIndexOf_from i found c s = found
    \/ (i <= lastIndexOf_from i found c s < i + Z.of_nat (List.length s))%Z.
Proof.
  induction s as [|x s IH]; intros i found; cbn [lastIndexOf_from List.length].
  - now left.
  - destruct (IH (i + 1)%Z (if N.eqb x c then i else found)) as [H|H].
    + rewrite H. destruct (N.eqb x c); [right; lia | now left].
    + right. lia.
Qed.

Lemma lastIndexOf_from_at_least (c : code_unit) (pre post : jsstring) :
  forall i found,
    (i + Z.of_nat (List.length pre)
     <= lastIndexOf_from i found c (pre ++ c :: post))%Z.
Proof.
  induction pre as [|x pre IH]; intros i found;
    cbn [app lastIndexOf_from List.length].
  - rewrite N.eqb_refl.
    destruct (lastIndexOf_from_range c post (i + 1) i) as [H|H]; lia.
  - specialize (IH (i + 1)%Z (if N.eqb x c then i else found)). lia.
Qed.

(** The directory part of a base address keeps any prefix of the address
    that ends with a slash. *)
Lemma baseDir_keeps_prefix (p rest : jsstring) :
  let baseUrl := (p ++ [slash]) ++ rest in
  startsWith (substring baseUrl 0 (lastIndexOf baseUrl slash + 1))
             (p ++ [slash]) = true.
Proof.
  intros baseUrl. unfold lastIndexOf.
  assert (Hlo := lastIndexOf_from_at_least slash p rest 0 (-1)).
  assert (Hhi := lastIndexOf_from_range slash baseUrl 0 (-1)).
  assert (Eb : baseUrl = p ++ slash :: rest)
    by (unfold baseUrl; now rewrite <- app_assoc).
  rewrite <- Eb in Hlo.
  remember (lastIndexOf_from 0 (-1) slash baseUrl) as k eqn:Ek. clear Ek.
  assert (Hk : (0 <= k < Z.of_nat (List.length baseUrl))%Z) by lia.
  replace (k + 1)%Z with (Z.of_nat (Z.to_nat (k + 1))) by lia.
  rewrite substring_prefix by lia.
  unfold baseUrl. rewrite firstn_app.
  rewrite (firstn_all2 (p ++ [slash]))
    by (rewrite length_app; cbn [List.length]; lia).
  apply startsWith_self_app.
Qed.

(** When the base address is absolute (it starts with [http://] or
    [https://]), so is every resolved address, whatever the reference. *)
Lemma resolveUrl_absolute (url baseUrl : jsstring) :
  isAbsolute baseUrl = true ->
  isAbsolute (resolveUrl url baseUrl) = true.
Proof.
  intros Hb. unfold resolveUrl.
  destruct (isAbsolute url) eqn:Hu; [exact Hu|].
  unfold isAbsolute in Hb |- *. apply orb_true_iff.
  apply orb_true_iff in Hb. destruct Hb as [Hb|Hb]; [left|right].
  - apply startsWith_firstn in Hb.
    rewrite <- (firstn_skipn (List.length (lit "http://")) baseUrl), Hb.
    change (lit "http://") with (lit "http:/" ++ [slash]).
    assert (H := baseDir_keeps_prefix (lit "http:/")
                   (skipn (List.length (lit "http://")) baseUrl)).
    cbv zeta in H.
    set (d := substring _ 0 _) in *.
    apply startsWith_firstn in H.
    rewrite <- (firstn_skipn (List.length (lit "http:/" ++ [slash])) d), H.
    rewrite <- app_assoc. apply startsWith_self_app.
  - apply startsWith_firstn in Hb.
    rewrite <- (firstn_skipn (List.length (lit "https://")) baseUrl), Hb.
    change (lit "https://") with (lit "https:/" ++ [slash]).
    assert (H := baseDir_keeps_prefix (lit "https:/")
                   (skipn (List.length (lit "https://")) baseUrl)).
    cbv zeta in H.
    set (d := substring _ 0 _) in *.
    apply startsWith_firstn in H.
    rewrite <- (firstn_skipn (List.length (lit "https:/" ++ [slash])) d), H.
    rewrite <- app_assoc. apply startsWith_self_app.
Qed.

End MoreResolveUrl.

Section MoreParser.
Import M3U8Parser Spec More.

Variable baseUrl : jsstring.

(** ** How the loop body dispatches on a line *)

(** Two prefixes that differ on their common length exclude each other. *)
Lemma startsWith_exclusive (line p q : jsstring) :
  firstn (Nat.min (List.length p) (List.length q)) p
  <> firstn (Nat.min (List.length p) (List.length q)) q ->
  startsWith line p = true -> startsWith line q = false.
Proof.
  intros Hne Hp. destruct (startsWith line q) eqn:Hq; [exfalso | reflexivity].
  apply startsWith_firstn in Hp, Hq. apply Hne.
  set (m := Nat.min (List.length p) (List.length q)).
  assert (Ep : firstn m p = firstn m line).
  { rewrite <- Hp at 1. rewrite firstn_firstn. f_equal. lia. }
  assert (Eq : firstn m q = firstn m line).
  { rewrite <- Hq at 1. rewrite firstn_firstn. f_equal. lia. }
  congruence.
Qed.

Ltac other_tag :=
  match goal with
  | H : startsWith ?l ?p = true |- startsWith ?l ?q = false =>
      apply (startsWith_exclusive l p q); [vm_compute; discriminate | exact H]
  end.

Lemma loop_body_version (st : locals) (line : jsstring) :
  startsWith line VERSION_tag = true ->
  loop_body baseUrl st line = set_version (parseInt (field1 line)) st.
Proof.
  intros H. unfold loop_body. fold VERSION_tag. now rewrite H.
Qed.

Lemma loop_body_targetDuration (st : locals) (line : jsstring) :
  startsWith line TARGETDURATION_tag = true ->
  loop_body baseUrl st line = set_targetDuration (parseFloat (field1 line)) st.
Proof.
  intros H. unfold loop_body. fold VERSION_tag TARGETDURATION_tag.
  assert (Hv : startsWith line VERSION_tag = false) by other_tag.
  now rewrite Hv, H.
Qed.

Lemma loop_body_mediaSequence (st : locals) (line : jsstring) :
  startsWith line MEDIA_SEQUENCE_tag = true ->
  loop_body baseUrl st line = set_mediaSequence (parseInt (field1 line)) st.
Proof.
  intros H. unfold loop_body.
  fold VERSION_tag TARGETDURATION_tag MEDIA_SEQUENCE_tag.
  assert (Hv : startsWith line VERSION_tag = false) by other_tag.
  assert (Ht : startsWith line TARGETDURATION_tag = false) by other_tag.
  now rewrite Hv, Ht, H.
Qed.

Lemma loop_body_duration (st : locals) (line : jsstring) :
  startsWith line EXTINF_tag = true ->
  loop_body baseUrl st line
  = match match_EXTINF line with
    | Some g1 => set_currentDuration (parseFloat g1) st
    | None => st
    end.
Proof.
  intros H. unfold loop_body.
  fold VERSION_tag TARGETDURATION_tag MEDIA_SEQUENCE_tag EXTINF_tag.
  assert (Hv : startsWith line VERSION_tag = false) by other_tag.
  assert (Ht : startsWith line TARGETDURATION_tag = false) by other_tag.
  assert (Hm : startsWith line MEDIA_SEQUENCE_tag = false) by other_tag.
  now rewrite Hv, Ht, Hm, H.
Qed.

(** A line the parser has no use for leaves every local variable of the
    loop as it was. *)
Lemma loop_body_ignored (st : locals) (line : jsstring) :
  ignored_line line = true -> loop_body baseUrl st line = st.
Proof.
  unfold ignored_line. rewrite !andb_true_iff, !negb_true_iff.
  intros ((((Hc & Hv) & Ht) & Hm) & He).
  destruct (startsWith line EXTINF_tag) eqn:Hx.
  - rewrite loop_body_duration by exact Hx.
    destruct (match_EXTINF line); [discriminate | reflexivity].
  - unfold loop_body.
    fold VERSION_tag TARGETDURATION_tag MEDIA_SEQUENCE_tag EXTINF_tag.
    now rewrite Hv, Ht, Hm, Hx, Hc.
Qed.

(** The loop only ever appends to [segments]. *)
Lemma loop_body_appends (st : locals) (line : jsstring) :
  exists added, segments (loop_body baseUrl st line) = segments st ++ added.
Proof.
  unfold loop_body.
  repeat match goal with
         | |- context [if ?b then _ else _] => destruct b
         | |- context [match match_EXTINF ?l with _ => _ end] =>
             destruct (match_EXTINF l)
         end;
    try (exists []; cbn; now rewrite app_nil_r).
  eexists; reflexivity.
Qed.

Lemma loop_appends (lines : list jsstring) :
  forall st,
  exists added,
    segments (fold_left (loop_body baseUrl) lines st) = segments st ++ added.
Proof.
  induction lines as [|l lines IH]; intros st; cbn [fold_left].
  - exists []. now rewrite app_nil_r.
  - destruct (IH (loop_body baseUrl st l)) as [a Ha].
    destruct (loop_body_appends st l) as [b Hb].
    exists (b ++ a). now rewrite Ha, Hb, app_assoc.
Qed.

(** ** Durations are never negative *)

Lemma round_pos_nonnegative (q : Q) :
  nonnegative_or_NaN (round_pos false q) = true.
Proof.
  unfold round_pos.
  destruct (round_half_even (Qred q / 2 ^ exponent_of (Qred q))
            =? 2 ^ 53)%Z.
  - cbn match. now destruct (971 <? exponent_of (Qred q) + 1)%Z.
  - destruct (round_half_even (Qred q / 2 ^ exponent_of (Qred q)));
      try reflexivity.
    now destruct (971 <? exponent_of (Qred q))%Z.
Qed.

(** [parseFloat] on a text that has no minus sign after its leading white
    space. *)
Lemma parseFloat_unsigned (s u : jsstring) :
  strip_sign (trimStart s) = (false, u) ->
  nonnegative_or_NaN (parseFloat s) = true.
Proof.
  intros H. unfold parseFloat. rewrite H.
  destruct (strUnsignedDecimalLiteral u) as [[|q]|]; try reflexivity.
  destruct (Qeq_bool q 0); [reflexivity | apply round_pos_nonnegative].
Qed.

Lemma isDurationChar_plain (c : code_unit) :
  isDurationChar c = true ->
  isWhiteSpace c = false /\ c <> 43%N /\ c <> 45%N.
Proof.
  unfold isDurationChar, isDigit, dot.
  rewrite orb_true_iff, andb_true_iff, N.leb_le, N.leb_le, N.eqb_eq.
  intros H.
  assert (Hc : (c = 46 \/ 48 <= c <= 57)%N) by lia. clear H.
  split; [|lia].
  unfold isWhiteSpace. cbn [existsb].
  repeat match goal with
         | |- context [N.eqb c ?k] =>
             destruct (N.eqb_spec c k); [exfalso; lia | cbn [orb]]
         end.
  reflexivity.
Qed.

Lemma takeWhile_Forall {A} (f : A -> bool) (l : list A) :
  Forall (fun x => f x = true) (takeWhile f l).
Proof.
  induction l as [|x l IH]; cbn [takeWhile]; [constructor|].
  destruct (f x) eqn:E; constructor; assumption.
Qed.

(** What the pattern captures is a non-empty run of digits and dots. *)
Lemma match_EXTINF_capture (s g1 : jsstring) :
  match_EXTINF s = Some g1 ->
  g1 <> [] /\ Forall (fun c => isDurationChar c = true) g1.
Proof.
  induction s as [|c s IH]; cbn [match_EXTINF]; unfold match_EXTINF_here.
  - cbn. discriminate.
  - destruct (startsWith (c :: s) (lit "#EXTINF:")).
    + destruct (takeWhile isDurationChar (skipn 8 (c :: s))) as [|d g] eqn:E.
      * exact IH.
      * intros H; injection H as <-. split; [discriminate|].
        rewrite <- E. apply takeWhile_Forall.
    + exact IH.
Qed.

Lemma parseFloat_capture (s g1 : jsstring) :
  match_EXTINF s = Some g1 -> nonnegative_or_NaN (parseFloat g1) = true.
Proof.
  intros H. destruct (match_EXTINF_capture s g1 H) as [Hne Hall].
  destruct g1 as [|c g]; [congruence|].
  inversion Hall as [|? ? Hc _]; subst.
  destruct (isDurationChar_plain c Hc) as (Hw & Hp & Hm).
  apply (parseFloat_unsigned _ (c :: g)).
  unfold trimStart. cbn [dropWhile]. rewrite Hw.
  unfold strip_sign.
  destruct c as [|p]; [reflexivity|].
  repeat (destruct p as [p|p|]; try reflexivity; try congruence).
Qed.

Lemma to_Q_positive (m : positive) (e : Z) :
  (0 < to_Q (S754_finite false m e))%Q.
Proof.
  cbn [to_Q]. apply Qmult_lt_0_compat; [reflexivity | apply pow2_pos].
Qed.

(** The sum of two Numbers that are not negative is not negative. *)
Lemma add_nonnegative (x y : number) :
  nonnegative_or_NaN x = true -> nonnegative_or_NaN y = true ->
  nonnegative_or_NaN (add x y) = true.
Proof.
  destruct x as [[|]|[|]| |[|] mx ex], y as [[|]|[|]| |[|] my ey];
    try discriminate; try reflexivity.
  intros _ _. unfold add, of_Q.
  assert (Hx := to_Q_positive mx ex). assert (Hy := to_Q_positive my ey).
  destruct (Qcompare_spec (to_Q (S754_finite false mx ex)
                           + to_Q (S754_finite false my ey)) 0) as [H|H|H].
  - reflexivity.
  - exfalso. lra.
  - apply round_pos_nonnegative.
Qed.

Lemma loop_body_nonnegative (st : locals) (line : jsstring) :
  durations_nonnegative st -> durations_nonnegative (loop_body baseUrl st line).
Proof.
  intros [Hc Hs]. unfold loop_body.
  repeat match goal with
         | |- context [if ?b then _ else _] => destruct b
         end;
    try (split; assumption).
  - destruct (match_EXTINF line) as [g1|] eqn:E; [|split; assumption].
    split; [|exact Hs]. cbn. exact (parseFloat_capture line g1 E).
  - split; [reflexivity|]. cbn [push_segment segments].
    apply Forall_app. split; [exact Hs|]. constructor; [exact Hc | constructor].
Qed.

Lemma loop_nonnegative (lines : list jsstring) :
  forall st,
    durations_nonnegative st ->
    durations_nonnegative (fold_left (loop_body baseUrl) lines st).
Proof.
  induction lines as [|l lines IH]; intros st H; cbn [fold_left]; auto.
  apply IH, loop_body_nonnegative, H.
Qed.

Lemma sum_nonnegative (segs : list Types.M3U8Segment) :
  forall acc,
    nonnegative_or_NaN acc = true ->
    Forall (fun seg => nonnegative_or_NaN (Types.duration seg) = true) segs ->
    nonnegative_or_NaN
      (fold_left (fun sum segment => add sum (Types.duration segment)) segs acc)
    = true.
Proof.
  induction segs as [|x segs IH]; intros acc Ha Hs; cbn [fold_left]; auto.
  inversion Hs as [|? ? Hx Hrest]; subst.
  apply IH; [now apply add_nonnegative | exact Hrest].
Qed.

(** X1.  In a playlist that [parsePlaylist] returns, no segment duration is
    negative, nor is the total duration: each is NaN or has a clear sign
    bit.  (The pattern of the duration line admits no sign.) *)
Theorem parsePlaylist_durations_nonnegative (content : jsstring) :
  forall playlist,
    parsePlaylist content baseUrl = Normal playlist ->
    Forall (fun seg => nonnegative_or_NaN (Types.duration seg) = true)
           (Types.segments playlist)
    /\ nonnegative_or_NaN (Types.totalDuration playlist) = true.
Proof.
  intros playlist Hp. unfold parsePlaylist in Hp.
  destruct (lines_of content) as [|l ls] eqn:El; [discriminate|].
  destruct (negb (startsWith l (lit "#EXTM3U"))); [discriminate|].
  injection Hp as <-. cbn [Types.segments Types.totalDuration].
  destruct (loop_nonnegative (l :: ls) initial) as [_ Hs].
  { split; [reflexivity | constructor]. }
  split; [exact Hs|]. apply sum_nonnegative; [reflexivity | exact Hs].
Qed.

(** What [parsePlaylist] returns, when it returns: the playlist built from
    the final state of the loop over all lines. *)
Lemma parsePlaylist_inv (content : jsstring) (playlist : Types.M3U8Playlist) :
  parsePlaylist content baseUrl = Normal playlist ->
  let st := fold_left (loop_body baseUrl) (lines_of content) initial in
  has_header content = true
  /\ playlist
     = {| Types.segments := segments st;
          Types.totalDuration :=
            fold_left (fun sum segment => add sum (Types.duration segment))
                      (segments st) zero;
          Types.targetDuration := targetDuration st;
          Types.version := version st;
          Types.mediaSequence := mediaSequence st |}.
Proof.
  intros Hp st.
  destruct (has_header content) eqn:Hh.
  - split; [reflexivity|].
    rewrite (parsePlaylist_accepts baseUrl content Hh) in Hp.
    cbv zeta in Hp. now injection Hp as <-.
  - exfalso. revert Hp Hh. unfold parsePlaylist, has_header.
    rewrite lines_of_nonblank.
    destruct (nonblank_lines content) as [|l ls]; [discriminate|].
    cbn [map]. intros Hp Hh. now rewrite Hh in Hp.
Qed.

(** ** Header declarations: the last one wins *)

Lemma loop_body_version_kept (st : locals) (line : jsstring) :
  startsWith line VERSION_tag = false ->
  version (loop_body baseUrl st line) = version st.
Proof.
  intros H. unfold loop_body. fold VERSION_tag. rewrite H.
  repeat match goal with
         | |- context [if ?b then _ else _] => destruct b
         | |- context [match match_EXTINF ?l with _ => _ end] =>
             destruct (match_EXTINF l)
         end; reflexivity.
Qed.

Lemma loop_body_targetDuration_kept (st : locals) (line : jsstring) :
  startsWith line TARGETDURATION_tag = false ->
  targetDuration (loop_body baseUrl st line) = targetDuration st.
Proof.
  intros H. unfold loop_body. fold TARGETDURATION_tag. rewrite H.
  repeat match goal with
         | |- context [if ?b then _ else _] => destruct b
         | |- context [match match_EXTINF ?l with _ => _ end] =>
             destruct (match_EXTINF l)
         end; reflexivity.
Qed.

Lemma loop_body_mediaSequence_kept (st : locals) (line : jsstring) :
  startsWith line MEDIA_SEQUENCE_tag = false ->
  mediaSequence (loop_body baseUrl st line) = mediaSequence st.
Proof.
  intros H. unfold loop_body. fold MEDIA_SEQUENCE_tag. rewrite H.
  repeat match goal with
         | |- context [if ?b then _ else _] => destruct b
         | |- context [match match_EXTINF ?l with _ => _ end] =>
             destruct (match_EXTINF l)
         end; reflexivity.
Qed.

(** A field that a tagged line sets and every other line keeps ends up
    with the value of the last tagged line. *)
Lemma loop_last_declaration (tag : jsstring) (read : jsstring -> number)
    (field : locals -> number) (lines : list jsstring) :
  (forall st line, startsWith line tag = true ->
                   field (loop_body baseUrl st line) = read (field1 line)) ->
  (forall st line, startsWith line tag = false ->
                   field (loop_body baseUrl st line) = field st) ->
  forall st,
    field (fold_left (loop_body baseUrl) lines st)
    = declared tag read (field st) lines.
Proof.
  intros Hset Hkeep. unfold declared, last_declaring.
  induction lines as [|l lines IH] using rev_ind; intros st; [reflexivity|].
  rewrite fold_left_app, rev_app_distr. cbn [fold_left rev app find].
  destruct (startsWith l tag) eqn:E.
  - now apply Hset.
  - rewrite Hkeep by exact E. apply IH.
Qed.

(** X2.  In an accepted text, [version], [targetDuration] and
    [mediaSequence] are read from the last line that declares them, with
    [parseInt], [parseFloat] and [parseInt] on the text between the first
    and the second colon; without a declaration they are 1, 0 and 0. *)
Theorem parsePlaylist_header_fields (content : jsstring) :
  forall playlist,
    parsePlaylist content baseUrl = Normal playlist ->
    Types.version playlist
    = declared VERSION_tag parseInt (of_Z 1) (lines_of content)
    /\ Types.targetDuration playlist
       = declared TARGETDURATION_tag parseFloat zero (lines_of content)
    /\ Types.mediaSequence playlist
       = declared MEDIA_SEQUENCE_tag parseInt zero (lines_of content).
Proof.
  intros playlist Hp.
  destruct (parsePlaylist_inv content playlist Hp) as [_ ->].
  cbn [Types.version Types.targetDuration Types.mediaSequence].
  repeat split.
  - apply (loop_last_declaration VERSION_tag parseInt version).
    + intros st line H. now rewrite loop_body_version.
    + apply loop_body_version_kept.
  - apply (loop_last_declaration TARGETDURATION_tag parseFloat targetDuration).
    + intros st line H. now rewrite loop_body_targetDuration.
    + apply loop_body_targetDuration_kept.
  - apply (loop_last_declaration MEDIA_SEQUENCE_tag parseInt mediaSequence).
    + intros st line H. now rewrite loop_body_mediaSequence.
    + apply loop_body_mediaSequence_kept.
Qed.

(** ** Which duration a segment gets *)

Lemma loop_body_currentDuration (st : locals) (line : jsstring) :
  truthy line = true ->
  currentDuration (loop_body baseUrl st line)
  = match duration_set_by line with
    | Some d => d
    | None => currentDuration st
    end.
Proof.
  intros Ht. unfold duration_set_by.
  destruct (startsWith line EXTINF_tag) eqn:Hx.
  - rewrite loop_body_duration by exact Hx.
    now destruct (match_EXTINF line).
  - unfold is_reference.
    destruct (startsWith line (lit "#")) eqn:Hc; cbn [negb].
    + unfold loop_body. fold EXTINF_tag. rewrite Hx, Hc. cbn [negb andb].
      repeat match goal with
             | |- context [if ?b then _ else _] => destruct b
             end; reflexivity.
    + now rewrite loop_body_reference.
Qed.

Lemma loop_currentDuration (lines : list jsstring) :
  forall st,
    Forall (fun line => truthy line = true) lines ->
    currentDuration st = zero ->
    currentDuration (fold_left (loop_body baseUrl) lines st)
    = pending_duration lines.
Proof.
  unfold pending_duration.
  induction lines as [|l lines IH] using rev_ind; intros st Hall Hst;
    [exact Hst|].
  apply Forall_app in Hall. destruct Hall as [Hall Hl].
  inversion Hl as [|? ? Hl' _]; subst.
  rewrite fold_left_app, rev_app_distr. cbn [fold_left rev app pending_backwards].
  rewrite loop_body_currentDuration by exact Hl'.
  destruct (duration_set_by l); [reflexivity | now apply IH].
Qed.

(** X3.  In an accepted text, the segment made from a reference line gets
    the duration that is pending when the line is reached: going back from
    the line, the value of the first duration line that the pattern
    matches, or +0 if a segment reference (or the start of the text) comes
    first.  Its position is the number of reference lines before it. *)
Theorem parsePlaylist_segment_duration (content : jsstring) :
  forall pre line post,
    has_header content = true ->
    lines_of content = pre ++ line :: post ->
    is_reference line = true ->
    exists playlist seg,
      parsePlaylist content baseUrl = Normal playlist
      /\ nth_error (Types.segments playlist)
                   (List.length (filter is_reference pre)) = Some seg
      /\ Types.duration seg = pending_duration pre
      /\ Types.uri seg = resolveUrl line baseUrl.
Proof.
  intros pre line post Hh Hl Hr.
  rewrite (parsePlaylist_accepts baseUrl content Hh). cbv zeta. rewrite Hl.
  assert (Hall := lines_of_truthy content). rewrite Hl in Hall.
  apply Forall_app in Hall. destruct Hall as [Hpre Hrest].
  inversion Hrest as [|? ? Hline Hpost]; subst.
  rewrite fold_left_app. cbn [fold_left].
  set (st := fold_left (loop_body baseUrl) pre initial).
  assert (Hn : List.length (segments st) = List.length (filter is_reference pre)).
  { rewrite <- (length_map Types.uri). unfold st.
    rewrite (loop_uris baseUrl pre initial Hpre). cbn [segments initial map app].
    apply length_map. }
  assert (Hd : currentDuration st = pending_duration pre)
    by (apply loop_currentDuration; [exact Hpre | reflexivity]).
  unfold is_reference in Hr. apply negb_true_iff in Hr.
  rewrite (loop_body_reference baseUrl st line Hr Hline).
  destruct (loop_appends post
              (push_segment
                 {| Types.duration := currentDuration st;
                    Types.uri := resolveUrl line baseUrl;
                    Types.title :=
                      Some (lit "Segment "
                              ++ decimal (List.length (segments st) + 1)) |}
                 st)) as [added Ha].
  eexists _, _. split; [reflexivity|]. cbn [Types.segments].
  rewrite Ha. cbn [push_segment segments]. rewrite <- Hn, <- app_assoc.
  rewrite nth_error_app2 by lia. rewrite Nat.sub_diag. cbn [app nth_error].
  split; [reflexivity|]. split; [exact Hd | reflexivity].
Qed.

(** X4.  A comment line that is none of the three header declarations and
    no duration line that the pattern matches can be dropped from the text
    (anywhere after the first line) without changing what [parsePlaylist]
    returns. *)
Theorem parsePlaylist_ignores_comment (content content' : jsstring) :
  forall pre line post,
    lines_of content = pre ++ line :: post ->
    lines_of content' = pre ++ post ->
    pre <> [] ->
    ignored_line line = true ->
    parsePlaylist content baseUrl = parsePlaylist content' baseUrl.
Proof.
  intros pre line post H1 H2 Hne Hi. unfold parsePlaylist.
  rewrite H1, H2. destruct pre as [|l0 pre]; [congruence|].
  cbn [app]. destruct (negb (startsWith l0 (lit "#EXTM3U"))); [reflexivity|].
  change (l0 :: pre ++ line :: post) with ((l0 :: pre) ++ line :: post).
  change (l0 :: pre ++ post) with ((l0 :: pre) ++ post).
  rewrite !fold_left_app. cbn [fold_left].
  now rewrite (loop_body_ignored _ line Hi).
Qed.

(** X5.  When the base address is absolute, every segment of a returned
    playlist has an absolute address. *)
Theorem parsePlaylist_uris_absolute (content : jsstring) :
  forall playlist,
    isAbsolute baseUrl = true ->
    parsePlaylist content baseUrl = Normal playlist ->
    Forall (fun seg => isAbsolute (Types.uri seg) = true)
           (Types.segments playlist).
Proof.
  intros playlist Hb Hp.
  destruct (parsePlaylist_inv content playlist Hp) as [_ ->].
  cbn [Types.segments].
  assert (Hu := loop_uris baseUrl (lines_of content) initial
                  (lines_of_truthy content)).
  cbn [segments initial map app] in Hu.
  apply Forall_forall. intros seg Hin.
  apply (in_map Types.uri) in Hin. rewrite Hu in Hin.
  apply in_map_iff in Hin. destruct Hin as (l & <- & _).
  now apply resolveUrl_absolute.
Qed.

(** ** Line endings *)

Lemma dropWhile_app_last {A} (f : A -> bool) (l : list A) (c : A) :
  f c = true ->
  dropWhile f (l ++ [c])
  = match dropWhile f l with
    | [] => []
    | d => d ++ [c]
    end.
Proof.
  intros Hc. induction l as [|x l IH]; cbn [app dropWhile].
  - now rewrite Hc.
  - destruct (f x); [exact IH | reflexivity].
Qed.

(** [trim] removes a carriage return at the end of a line. *)
Lemma trim_CR (line line' : jsstring) :
  same_up_to_CR line line' -> trim line' = trim line.
Proof.
  intros [->| ->]; [reflexivity|].
  unfold trim, trimStart, trimEnd.
  rewrite (dropWhile_app_last isWhiteSpace line CR eq_refl).
  destruct (dropWhile isWhiteSpace line) as [|d ds]; [reflexivity|].
  rewrite rev_app_distr. reflexivity.
Qed.

Lemma split_crlf (content : jsstring) :
  Forall2 same_up_to_CR (split LF content) (split LF (crlf content)).
Proof.
  induction content as [|x content IH]; cbn [crlf flat_map split].
  - constructor; [now left | constructor].
  - fold (crlf content).
    destruct (N.eqb_spec x LF) as [->|Hx].
    + cbn [app split]. change (N.eqb CR LF) with false.
      rewrite N.eqb_refl. cbv iota.
      constructor; [now right | exact IH].
    + cbn [app split]. apply N.eqb_neq in Hx. rewrite Hx.
      inversion IH as [|w w' ws ws' Hw Hws E1 E2].
      * constructor; [now left | constructor].
      * constructor; [|exact Hws].
        destruct Hw as [->| ->]; [now left | now right].
Qed.

(** X6.  Line endings do not matter: the text with every line feed turned
    into carriage return, line feed has the same lines, and [parsePlaylist]
    returns (or throws) the same on both. *)
Theorem parsePlaylist_crlf (content : jsstring) :
  lines_of (crlf content) = lines_of content
  /\ parsePlaylist (crlf content) baseUrl = parsePlaylist content baseUrl.
Proof.
  assert (H : lines_of (crlf content) = lines_of content).
  { unfold lines_of. f_equal.
    assert (Hs := split_crlf content).
    induction Hs as [|w w' ws ws' Hw _ IH]; [reflexivity|].
    cbn [map]. now rewrite IH, (trim_CR w w' Hw). }
  split; [exact H|]. unfold parsePlaylist. now rewrite H.
Qed.

End MoreParser.

(* ================================================================== *)
(** * Further properties of the download pipeline *)
(* ================================================================== *)

Section MorePipeline.
Import Types VideoDownloader Run Spec MoreRun.
Local Open Scope nat_scope.

Variable w : World.
Variable playlist : M3U8Playlist.

Ltac run_goal :=
  unfold bind, try_catch, fetch, signal_aborted, emit, onProgress, await,
    ret, bind, cancelDownload, throw, onError, emit;
  cbn [abortController trace].

Ltac reduce_response :=
  repeat (progress cbn [response ok arrayBuffer statusText
                        cancelled_meanwhile negb abortController trace] in * ).

(** One iteration on a segment whose fetch delivers a body: the body is
    kept, the counters grow, the progress handler is called, and the loop
    goes on; the signal is set if anybody cancelled meanwhile. *)
Lemma download_loop_step (segment : M3U8Segment) (rest : list M3U8Segment) :
  forall i segs totalBytes downloadedBytes tr,
    failure_of w i segment = None ->
    let n := List.length (body_of w i segment) in
    let progress :=
      {| segmentIndex := i + 1;
         totalSegments := List.length (segments playlist);
         downloadedBytes := downloadedBytes + n;
         totalBytes := totalBytes + n;
         percentage := percentage_at i (List.length (segments playlist)) |} in
    download_loop w playlist (segment :: rest) i segs totalBytes downloadedBytes
      {| abortController := Some false; trace := tr |}
    = download_loop w playlist rest (i + 1)
        (segs ++ [body_of w i segment]) (totalBytes + n) (downloadedBytes + n)
        {| abortController :=
             Some (cancelled_meanwhile (network w i (uri segment))
                   || progress_handler_cancels w progress);
           trace := tr ++ [fetch_called (uri segment);
                           onProgress_called progress] |}.
Proof.
  intros i segs tb db tr Hf n progress. subst n progress.
  unfold failure_of, body_of in *.
  cbn [download_loop]. run_goal.
  destruct (network w i (uri segment)) as [c [[[|] t [b|e']]|e']];
    reduce_response; try discriminate.
  destruct c; reduce_response;
    match goal with
    | |- context [if ?b then _ else _] => destruct b
    end;
    reduce_response; rewrite <- app_assoc; reflexivity.
Qed.

(** One iteration on a segment whose fetch fails: an abort error leaves
    the loop as it is, any other error is first given to the error
    handler. *)
Lemma download_loop_fails (segment : M3U8Segment) (rest : list M3U8Segment) :
  forall i segs totalBytes downloadedBytes tr e,
    failure_of w i segment = Some e ->
    download_loop w playlist (segment :: rest) i segs totalBytes downloadedBytes
      {| abortController := Some false; trace := tr |}
    = (Throw e,
       {| abortController :=
            Some (cancelled_meanwhile (network w i (uri segment)));
          trace := tr ++ ending_calls i (FetchFailed segment e) |}).
Proof.
  intros i segs tb db tr e Hf.
  unfold failure_of in Hf. cbn [ending_calls]. unfold segment_error_message.
  cbn [download_loop]. run_goal.
  destruct (network w i (uri segment)) as [c [[[|] t [b|e']]|e']];
    destruct c; reduce_response;
    try discriminate;
    injection Hf as <-;
    repeat match goal with
           | |- context [isAbortError (Error ?m)] =>
               change (isAbortError (Error m)) with false
           end;
    try (destruct (isAbortError e'));
    reduce_response; rewrite <- ?app_assoc; reflexivity.
Qed.

Lemma download_loop_cancelled (segment : M3U8Segment) (rest : list M3U8Segment) :
  forall i segs totalBytes downloadedBytes tr,
    download_loop w playlist (segment :: rest) i segs totalBytes downloadedBytes
      {| abortController := Some true; trace := tr |}
    = (Throw CancelledError, {| abortController := Some true; trace := tr |}).
Proof. reflexivity. Qed.

(** However the environment behaves, the loop fetches some of its
    segments in full, in order, and then ends in one of three ways. *)
Lemma download_loop_shape (rest : list M3U8Segment) :
  forall i segs totalBytes downloadedBytes ctrl tr,
  exists j en,
    ends_at w rest i j en
    /\ fst (download_loop w playlist rest i segs totalBytes downloadedBytes
              {| abortController := Some ctrl; trace := tr |})
       = loop_result w rest i segs en
    /\ trace (snd (download_loop w playlist rest i segs totalBytes
                     downloadedBytes
                     {| abortController := Some ctrl; trace := tr |}))
       = tr ++ loop_calls w playlist (firstn j rest) i totalBytes downloadedBytes
            ++ ending_calls (i + j) en.
Proof.
  induction rest as [|segment rest IH]; intros i segs tb db ctrl tr.
  - exists 0, Completed. split; [|split].
    + split; [cbn; lia|]. split; [|reflexivity].
      intros k s H. now destruct k.
    + cbn. now rewrite app_nil_r.
    + cbn. now rewrite !app_nil_r.
  - destruct ctrl.
    { exists 0, CancelledBetweenSegments. rewrite download_loop_cancelled.
      split; [|split].
      - split; [cbn; lia|]. split; [|cbn; lia].
        intros k s H. now destruct k.
      - reflexivity.
      - cbn. now rewrite app_nil_r. }
    destruct (failure_of w i segment) as [e|] eqn:Hf.
    + exists 0, (FetchFailed segment e).
      rewrite (download_loop_fails segment rest i segs tb db tr e Hf).
      rewrite Nat.add_0_r. split; [|split].
      * split; [cbn; lia|].
        split; [|split; [reflexivity | now rewrite Nat.add_0_r]].
        intros k s H. now destruct k.
      * reflexivity.
      * reflexivity.
    + rewrite (download_loop_step segment rest i segs tb db tr Hf). cbv zeta.
      match goal with
      | |- context [download_loop w playlist rest ?i' ?s' ?t' ?d'
                      {| abortController := Some ?c'; trace := ?tr' |}] =>
          destruct (IH i' s' t' d' c' tr') as (j & en & (Hj & Hpre & Hen) & Hr & Ht)
      end.
      exists (S j), en. split; [|split].
      * split; [cbn; lia|]. split.
        -- intros [|k] s H; cbn in H.
           ++ injection H as <-. now rewrite Nat.add_0_r.
           ++ replace (i + S k) with (i + 1 + k) by lia. now apply Hpre.
        -- destruct en as [| |s e]; cbn [List.length nth_error];
             try lia.
           replace (i + S j) with (i + 1 + j) by lia. exact Hen.
      * rewrite Hr. destruct en; cbn [loop_result bodies_from];
          try reflexivity.
        now rewrite <- app_assoc.
      * rewrite Ht. cbn [firstn loop_calls].
        replace (i + S j) with (i + 1 + j) by lia.
        rewrite <- !app_assoc. reflexivity.
Qed.

(** The shape of a run, whatever the network and the handlers do. *)
Lemma downloadM3U8_shape (controller : option bool) :
  exists j en,
    ends_at w (segments playlist) 0 j en
    /\ fst (downloadM3U8 w playlist (idle controller))
       = ending_result w playlist en
    /\ trace (snd (downloadM3U8 w playlist (idle controller)))
       = onProgress_called (initial_progress playlist)
         :: loop_calls w playlist (firstn j (segments playlist)) 0 0 0
         ++ ending_calls j en.
Proof.
  set (tr := [onProgress_called (initial_progress playlist)]).
  set (c0 := progress_handler_cancels w (initial_progress playlist)).
  destruct (download_loop_shape (segments playlist) 0 [] 0 0 c0 tr)
    as (j & en & Hends & Hr & Ht).
  exists j, en. split; [exact Hends|].
  assert (E : exists st',
             downloadM3U8 w playlist (idle controller)
             = (ending_result w playlist en, st')
             /\ trace st'
                = tr ++ loop_calls w playlist (firstn j (segments playlist)) 0 0 0
                     ++ ending_calls (0 + j) en).
  { unfold downloadM3U8, idle.
    unfold bind at 1, new_AbortController. cbn [trace].
    unfold try_catch, bind at 1, onProgress, bind at 1, emit.
    cbn [abortController trace app]. fold (initial_progress playlist).
    fold tr c0.
    assert (E0 : (if c0 then cancelDownload else ret tt)
                   {| abortController := Some false; trace := tr |}
                 = (Normal tt, {| abortController := Some c0; trace := tr |}))
      by (destruct c0; reflexivity).
    rewrite E0. clear E0. unfold bind at 1.
    destruct (download_loop w playlist (segments playlist) 0 [] 0 0
                {| abortController := Some c0; trace := tr |})
      as [c st'] eqn:E.
    cbn [fst snd] in Hr, Ht. subst c. exists st'.
    destruct en as [| |segment e]; cbn [loop_result ending_result app].
    - fold (bodies w playlist). unfold bind at 1.
      rewrite totalLength_concat. cbn [Nat.add].
      rewrite (combine_loop_spec (bodies w playlist) []).
      unfold ret. split; [reflexivity | exact Ht].
    - change (isAbortError CancelledError) with false. unfold throw.
      split; [reflexivity | exact Ht].
    - destruct (isAbortError e) eqn:Ea; unfold throw;
        (split; [reflexivity | exact Ht]). }
  destruct E as (st' & -> & Ht'). cbn [fst snd].
  split; [reflexivity|]. exact Ht'.
Qed.

(** ** What the calls of a run look like *)

Lemma bodies_from_app (pre rest : list M3U8Segment) :
  forall i,
    bodies_from w i (pre ++ rest)
    = bodies_from w i pre ++ bodies_from w (i + List.length pre) rest.
Proof.
  induction pre as [|x pre IH]; intros i; cbn [app bodies_from List.length].
  - now rewrite Nat.add_0_r.
  - rewrite IH. now replace (i + 1 + List.length pre) with (i + S (List.length pre)) by lia.
Qed.

Lemma bodies_from_length (rest : list M3U8Segment) :
  forall i, List.length (bodies_from w i rest) = List.length rest.
Proof.
  induction rest as [|x rest IH]; intros i; cbn [bodies_from List.length]; auto.
Qed.

Lemma bytes_after_prefix (done rest : list M3U8Segment) :
  segments playlist = done ++ rest ->
  bytes_after w playlist (List.length done)
  = List.length (List.concat (bodies_from w 0 done)).
Proof.
  intros Hs. unfold bytes_after, bodies. rewrite Hs, bodies_from_app.
  rewrite firstn_app, bodies_from_length, Nat.sub_diag, firstn_O, app_nil_r.
  rewrite firstn_all2 by (rewrite bodies_from_length; lia).
  reflexivity.
Qed.

Lemma bytes_after_next (done tail : list M3U8Segment) (x : M3U8Segment) :
  segments playlist = done ++ x :: tail ->
  bytes_after w playlist (List.length done)
  + List.length (body_of w (List.length done) x)
  = bytes_after w playlist (List.length done + 1).
Proof.
  intros Hs.
  rewrite (bytes_after_prefix done (x :: tail)) by exact Hs.
  replace (List.length done + 1) with (List.length (done ++ [x]))
    by (rewrite length_app; reflexivity).
  rewrite (bytes_after_prefix (done ++ [x]) tail)
    by (rewrite Hs, <- app_assoc; reflexivity).
  rewrite bodies_from_app. cbn [bodies_from].
  rewrite concat_app, length_app. cbn [List.concat].
  rewrite app_nil_r. reflexivity.
Qed.

(** The progress calls of the loop over [pre], a part of the playlist that
    comes after [done]. *)
Lemma progress_of_loop_part (pre : list M3U8Segment) :
  forall done tail,
    segments playlist = done ++ pre ++ tail ->
    progress_events
      (loop_calls w playlist pre (List.length done)
         (bytes_after w playlist (List.length done))
         (bytes_after w playlist (List.length done)))
    = map (progress_at w playlist)
          (seq (List.length done + 1) (List.length pre)).
Proof.
  induction pre as [|x pre IH]; intros done tail Hs; [reflexivity|].
  cbn [loop_calls List.length seq map].
  rewrite !(bytes_after_next done (pre ++ tail) x Hs).
  specialize (IH (done ++ [x]) tail).
  rewrite length_app in IH. cbn [List.length] in IH.
  unfold progress_events in *. cbn [flat_map app].
  rewrite IH by (rewrite Hs, <- app_assoc; reflexivity).
  f_equal.
  - unfold progress_at. rewrite !Nat.add_1_r. reflexivity.
  - now rewrite (Nat.add_1_r (List.length done + 1)).
Qed.

Lemma firstn_next (l : list M3U8Segment) :
  forall j x, nth_error l j = Some x -> firstn (j + 1) l = firstn j l ++ [x].
Proof.
  induction l as [|y l IH]; intros [|j] x H; try discriminate.
  - cbn in H. injection H as ->. reflexivity.
  - cbn [nth_error] in H. cbn [Nat.add firstn app]. now rewrite (IH j x H).
Qed.

Lemma fetches_of_loop_calls (pre : list M3U8Segment) :
  forall i tb db,
    fetch_events (loop_calls w playlist pre i tb db) = map uri pre
    /\ error_events (loop_calls w playlist pre i tb db) = [].
Proof.
  induction pre as [|x pre IH]; intros i tb db; [now split|].
  destruct (IH (i + 1) (tb + List.length (body_of w i x))
               (db + List.length (body_of w i x))) as [H1 H2].
  unfold fetch_events, error_events in *.
  cbn [loop_calls flat_map app map]. now rewrite H1, H2.
Qed.

(** X8.  In any run, the [k]-th progress call (from 0) reports [k]
    completed segments out of the length of the playlist, and the bytes of
    the first [k] bodies both as [downloadedBytes] and as [totalBytes]; the
    calls come in this order, without gap, up to some segment. *)
Theorem downloadM3U8_progress_calls (controller : option bool) :
  exists j,
    j <= List.length (segments playlist)
    /\ progress_events
         (trace (snd (downloadM3U8 w playlist (idle controller))))
       = map (progress_at w playlist) (seq 0 (j + 1)).
Proof.
  destruct (downloadM3U8_shape controller)
    as (j & en & (Hj & _ & _) & _ & Ht).
  exists j. split; [exact Hj|]. rewrite Ht.
  assert (Hs : segments playlist
               = [] ++ firstn j (segments playlist) ++ skipn j (segments playlist))
    by (cbn [app]; now rewrite firstn_skipn).
  assert (Hp := progress_of_loop_part (firstn j (segments playlist)) []
                  (skipn j (segments playlist)) Hs).
  change (bytes_after w playlist (List.length (@nil M3U8Segment))) with 0 in Hp.
  cbn [List.length Nat.add] in Hp.
  rewrite length_firstn, Nat.min_l in Hp by exact Hj.
  unfold progress_events in *.
  cbn [flat_map app]. rewrite flat_map_app, Hp.
  replace (flat_map _ (ending_calls j en)) with (@nil DownloadProgress).
  - rewrite app_nil_r, Nat.add_1_r. reflexivity.
  - destruct en as [| |s e]; cbn [ending_calls flat_map app]; try reflexivity.
    now destruct (isAbortError e).
Qed.

(** X9.  In any run, the addresses fetched are those of the first
    segments of the playlist, in playlist order: no segment is fetched
    twice, skipped, or fetched out of turn. *)
Theorem downloadM3U8_fetches_in_order (controller : option bool) :
  exists k,
    k <= List.length (segments playlist)
    /\ fetch_events (trace (snd (downloadM3U8 w playlist (idle controller))))
       = map uri (firstn k (segments playlist)).
Proof.
  destruct (downloadM3U8_shape controller)
    as (j & en & (Hj & _ & Hen) & _ & Ht).
  rewrite Ht.
  destruct (fetches_of_loop_calls (firstn j (segments playlist)) 0 0 0)
    as [Hf _].
  unfold fetch_events in *. cbn [flat_map app]. rewrite flat_map_app, Hf.
  destruct en as [| |s e].
  - exists j. split; [exact Hj|]. cbn [ending_calls flat_map]. apply app_nil_r.
  - exists j. split; [exact Hj|]. cbn [ending_calls flat_map]. apply app_nil_r.
  - destruct Hen as [Hn _]. exists (j + 1). split.
    + assert (j < List.length (segments playlist)); [|lia].
      apply nth_error_Some. congruence.
    + replace (flat_map _ (ending_calls j (FetchFailed s e))) with [uri s]
        by (cbn [ending_calls flat_map app]; now destruct (isAbortError e)).
      rewrite (firstn_next _ _ _ Hn), map_app. reflexivity.
Qed.

(** X10.  A run never throws an abort error: what it throws is the
    cancellation error or the error of a failed fetch.  The error handler
    is called at most once, only for a failed fetch that is no abort, with
    the 1-based index of the segment and the error the run then throws;
    a run that returns a blob has not called it. *)
Theorem downloadM3U8_errors (controller : option bool) :
  match fst (downloadM3U8 w playlist (idle controller)) with
  | Normal _ =>
      error_events (trace (snd (downloadM3U8 w playlist (idle controller))))
      = []
  | Throw e =>
      isAbortError e = false
      /\ ((e = CancelledError
           /\ error_events
                (trace (snd (downloadM3U8 w playlist (idle controller)))) = [])
          \/ exists k,
               1 <= k <= List.length (segments playlist)
               /\ error_events
                    (trace (snd (downloadM3U8 w playlist (idle controller))))
                  = [segment_error_message k e])
  end.
Proof.
  destruct (downloadM3U8_shape controller)
    as (j & en & (Hj & _ & Hen) & Hr & Ht).
  rewrite Hr, Ht.
  destruct (fetches_of_loop_calls (firstn j (segments playlist)) 0 0 0)
    as [_ He].
  unfold error_events in *. cbn [flat_map app]. rewrite flat_map_app, He.
  destruct en as [| |s e]; cbn [ending_result ending_calls flat_map app].
  - reflexivity.
  - split; [reflexivity|]. left. now split.
  - destruct Hen as [Hn _].
    assert (Hlt : j < List.length (segments playlist))
      by (apply nth_error_Some; congruence).
    destruct (isAbortError e) eqn:Ea; cbn [flat_map app].
    + split; [reflexivity|]. left. now split.
    + split; [exact Ea|]. right. exists (j + 1). split; [lia | reflexivity].
Qed.

(** X11.  [cancelDownload()] before a run has no effect on the run: the run
    installs a new abort controller, so the earlier request is lost. *)
Theorem cancelDownload_before_run_is_lost (st : State) :
  cancel_then_download w playlist st = downloadM3U8 w playlist st.
Proof.
  unfold cancel_then_download, bind at 1, cancelDownload.
  destruct st as [[c|] tr]; reflexivity.
Qed.

(** ** Cancellation during a run *)

Lemma fetch_succeeds_failure_of (i : nat) (segment : M3U8Segment) :
  fetch_succeeds w i segment = true ->
  failure_of w i segment = None
  /\ cancelled_meanwhile (network w i (uri segment)) = false.
Proof.
  intros H. destruct (fetch_succeeds_inv w i segment H) as [text Hnet].
  unfold failure_of. rewrite Hnet. now split.
Qed.

(** The loop over a part [pre] of the playlist whose fetches succeed and
    whose progress calls do not cancel. *)
Lemma download_loop_prefix (pre : list M3U8Segment) :
  forall done rest segs tr,
    segments playlist = done ++ pre ++ rest ->
    all_succeed_from w (List.length done) pre ->
    (forall k,
        List.length done < k <= List.length done + List.length pre ->
        progress_handler_cancels w (progress_at w playlist k) = false) ->
    download_loop w playlist (pre ++ rest) (List.length done) segs
      (bytes_after w playlist (List.length done))
      (bytes_after w playlist (List.length done))
      {| abortController := Some false; trace := tr |}
    = download_loop w playlist rest (List.length (done ++ pre))
        (segs ++ bodies_from w (List.length done) pre)
        (bytes_after w playlist (List.length (done ++ pre)))
        (bytes_after w playlist (List.length (done ++ pre)))
        {| abortController := Some false;
           trace := tr ++ loop_calls w playlist pre (List.length done)
                            (bytes_after w playlist (List.length done))
                            (bytes_after w playlist (List.length done)) |}.
Proof.
  induction pre as [|x pre IH]; intros done rest segs tr Hs Hall Hq.
  - cbn [app bodies_from loop_calls]. now rewrite !app_nil_r.
  - destruct (all_succeed_from_cons w _ x pre Hall) as [H0 Hrest].
    destruct (fetch_succeeds_failure_of _ _ H0) as [Hf Hc].
    pose proof (download_loop_step x (pre ++ rest) (List.length done) segs
                  (bytes_after w playlist (List.length done))
                  (bytes_after w playlist (List.length done)) tr Hf) as Hstep.
    cbv zeta in Hstep. cbn [app]. rewrite Hstep. clear Hstep.
    cbn [loop_calls bodies_from].
    rewrite !(bytes_after_next done (pre ++ rest) x Hs), Hc.
    cbn [orb].
    replace {| segmentIndex := List.length done + 1;
               totalSegments := List.length (segments playlist);
               downloadedBytes := bytes_after w playlist (List.length done + 1);
               totalBytes := bytes_after w playlist (List.length done + 1);
               percentage := percentage_at (List.length done)
                               (List.length (segments playlist)) |}
      with (progress_at w playlist (List.length done + 1))
      by (unfold progress_at; rewrite !Nat.add_1_r; reflexivity).
    rewrite Hq by (cbn [List.length]; lia).
    assert (Hlen : List.length done + 1 = List.length (done ++ [x]))
      by (rewrite length_app; reflexivity).
    rewrite !Hlen.
    rewrite IH.
    + rewrite <- !app_assoc. reflexivity.
    + rewrite Hs, <- app_assoc. reflexivity.
    + rewrite <- Hlen. exact Hrest.
    + intros k Hk. apply Hq. rewrite <- Hlen in Hk. cbn [List.length]. lia.
Qed.

(** X12.  When the fetch of a segment is rejected with an abort error (the
    signal was set while the request was in flight), after earlier segments
    were fetched, the run throws the cancellation error; the request of
    that segment is its last call, and the error handler is not called. *)
Theorem downloadM3U8_aborted_in_flight (controller : option bool)
    (pre post : list M3U8Segment) (segment : M3U8Segment) (e : thrown) :
  segments playlist = pre ++ segment :: post ->
  quiet_handlers w ->
  all_succeed_from w 0 pre ->
  failure_of w (List.length pre) segment = Some e ->
  isAbortError e = true ->
  fst (downloadM3U8 w playlist (idle controller)) = Throw CancelledError
  /\ trace (snd (downloadM3U8 w playlist (idle controller)))
     = onProgress_called (initial_progress playlist)
       :: loop_calls w playlist pre 0 0 0 ++ [fetch_called (uri segment)].
Proof.
  intros Hsegs Hq Hall Hf Ha.
  enough (E : exists c,
             downloadM3U8 w playlist (idle controller)
             = (Throw CancelledError,
                {| abortController := c;
                   trace := onProgress_called (initial_progress playlist)
                            :: loop_calls w playlist pre 0 0 0
                            ++ [fetch_called (uri segment)] |}))
    by (destruct E as [c ->]; split; reflexivity).
  eexists.
  unfold downloadM3U8, idle.
  unfold bind at 1, new_AbortController. cbn [trace].
  unfold try_catch, bind at 1, onProgress, bind at 1, emit.
  cbn [abortController trace app].
  fold (initial_progress playlist). rewrite Hq. unfold ret at 1.
  unfold bind at 1.
  replace (download_loop w playlist (segments playlist))
    with (download_loop w playlist (pre ++ segment :: post))
    by now rewrite Hsegs.
  rewrite (download_loop_app w playlist pre (segment :: post) 0 [] 0 0 _ Hq Hall).
  cbn [Nat.add].
  rewrite (download_loop_fails segment post _ _ _ _ _ e Hf).
  cbn [ending_calls]. rewrite Ha. unfold throw. cbn [trace app].
  reflexivity.
Qed.

(** X13.  A cancellation requested while segment [k] is handled, either
    during its fetch when the fetch still delivers the body, or by the
    handler of its progress call, takes effect at the check before the next
    segment: the run throws the cancellation error without a further
    request.  When segment [k] is the last one there is no further check,
    and the run returns the whole blob in spite of the request. *)
Theorem downloadM3U8_cancel_takes_effect_at_next_segment
    (controller : option bool)
    (pre post : list M3U8Segment) (segment : M3U8Segment) :
  segments playlist = pre ++ segment :: post ->
  all_succeed_from w 0 pre ->
  (forall k,
      k <= List.length pre ->
      progress_handler_cancels w (progress_at w playlist k) = false) ->
  failure_of w (List.length pre) segment = None ->
  cancelled_meanwhile (network w (List.length pre) (uri segment))
  || progress_handler_cancels w (progress_at w playlist (List.length pre + 1))
  = true ->
  fst (downloadM3U8 w playlist (idle controller))
  = match post with
    | [] => Normal {| bytes := List.concat (bodies w playlist);
                      type := lit "video/mp4" |}
    | _ :: _ => Throw CancelledError
    end
  /\ trace (snd (downloadM3U8 w playlist (idle controller)))
     = onProgress_called (initial_progress playlist)
       :: loop_calls w playlist pre 0 0 0
       ++ [fetch_called (uri segment);
           onProgress_called (progress_at w playlist (List.length pre + 1))].
Proof.
  intros Hsegs Hall Hq Hf Hc.
  enough (E : exists c,
             downloadM3U8 w playlist (idle controller)
             = (match post with
                | [] => Normal {| bytes := List.concat (bodies w playlist);
                                  type := lit "video/mp4" |}
                | _ :: _ => Throw CancelledError
                end,
                {| abortController := c;
                   trace := onProgress_called (initial_progress playlist)
                            :: loop_calls w playlist pre 0 0 0
                            ++ [fetch_called (uri segment);
                                onProgress_called
                                  (progress_at w playlist
                                     (List.length pre + 1))] |}))
    by (destruct E as [c ->]; split; reflexivity).
  eexists.
  unfold downloadM3U8, idle.
  unfold bind at 1, new_AbortController. cbn [trace].
  unfold try_catch, bind at 1, onProgress, bind at 1, emit.
  cbn [abortController trace app].
  change {| segmentIndex := 0;
            totalSegments := List.length (segments playlist);
            downloadedBytes := 0; totalBytes := 0; percentage := zero |}
    with (progress_at w playlist 0).
  rewrite (Hq 0) by lia. unfold ret at 1.
  unfold bind at 1.
  replace (download_loop w playlist (segments playlist))
    with (download_loop w playlist (pre ++ segment :: post))
    by now rewrite Hsegs.
  pose proof (download_loop_prefix pre [] (segment :: post) []
                [onProgress_called (progress_at w playlist 0)]) as Hpre.
  cbn [app List.length] in Hpre.
  change (bytes_after w playlist 0) with 0 in Hpre.
  rewrite Hpre; [|exact Hsegs|exact Hall|intros k Hk; apply Hq; lia].
  clear Hpre.
  pose proof (download_loop_step segment post (List.length pre)
                (bodies_from w 0 pre)
                (bytes_after w playlist (List.length pre))
                (bytes_after w playlist (List.length pre))
                (onProgress_called (progress_at w playlist 0)
                 :: loop_calls w playlist pre 0 0 0) Hf) as Hstep.
  cbv zeta in Hstep. rewrite Hstep. clear Hstep.
  rewrite !(bytes_after_next pre post segment Hsegs).
  replace {| segmentIndex := List.length pre + 1;
             totalSegments := List.length (segments playlist);
             downloadedBytes := bytes_after w playlist (List.length pre + 1);
             totalBytes := bytes_after w playlist (List.length pre + 1);
             percentage := percentage_at (List.length pre)
                             (List.length (segments playlist)) |}
    with (progress_at w playlist (List.length pre + 1))
    by (unfold progress_at; rewrite !Nat.add_1_r; reflexivity).
  rewrite Hc.
  destruct post as [|next post].
  - cbn [download_loop]. unfold ret at 1. unfold bind at 1.
    rewrite totalLength_concat. cbn [Nat.add].
    rewrite (combine_loop_spec (bodies_from w 0 pre ++ [body_of w (List.length pre) segment]) []).
    unfold ret. cbn [trace app].
    unfold bodies. rewrite Hsegs, bodies_from_app. reflexivity.
  - rewrite download_loop_cancelled.
    change (isAbortError CancelledError) with false.
    unfold throw. cbn [trace app]. reflexivity.
Qed.

(** ** The shape of a run, with the state of the abort signal *)

Lemma signal_found_set_next (done rest : list M3U8Segment) (x : M3U8Segment) :
  segments playlist = done ++ x :: rest ->
  signal_found_set w playlist (List.length done + 1)
  = cancelled_meanwhile (network w (List.length done) (uri x))
    || progress_handler_cancels w
         {| segmentIndex := List.length done + 1;
            totalSegments := List.length (segments playlist);
            downloadedBytes := bytes_after w playlist (List.length done + 1);
            totalBytes := bytes_after w playlist (List.length done + 1);
            percentage := percentage_at (List.length done)
                            (List.length (segments playlist)) |}.
Proof.
  intros Hs.
  assert (Hn : nth_error (segments playlist) (List.length done) = Some x).
  { rewrite Hs, nth_error_app2, Nat.sub_diag by lia. reflexivity. }
  rewrite !Nat.add_1_r. cbn [signal_found_set]. rewrite Hn. reflexivity.
Qed.

(** The loop over the segments [rest] that follow [done], started with the
    signal as the check before the first of them finds it. *)
Lemma download_loop_checked_shape (rest : list M3U8Segment) :
  forall done segs tr,
    segments playlist = done ++ rest ->
    exists j en,
      ends_at w rest (List.length done) j en
      /\ (forall k,
            k < j ->
            signal_found_set w playlist (List.length done + k) = false)
      /\ match en with
         | Completed => True
         | CancelledBetweenSegments =>
             signal_found_set w playlist (List.length done + j) = true
         | FetchFailed _ _ =>
             signal_found_set w playlist (List.length done + j) = false
         end
      /\ fst (download_loop w playlist rest (List.length done) segs
                (bytes_after w playlist (List.length done))
                (bytes_after w playlist (List.length done))
                {| abortController :=
                     Some (signal_found_set w playlist (List.length done));
                   trace := tr |})
         = loop_result w rest (List.length done) segs en
      /\ trace (snd (download_loop w playlist rest (List.length done) segs
                       (bytes_after w playlist (List.length done))
                       (bytes_after w playlist (List.length done))
                       {| abortController :=
                            Some (signal_found_set w playlist
                                    (List.length done));
                          trace := tr |}))
         = tr ++ loop_calls w playlist (firstn j rest) (List.length done)
                   (bytes_after w playlist (List.length done))
                   (bytes_after w playlist (List.length done))
              ++ ending_calls (List.length done + j) en.
Proof.
  induction rest as [|x rest IH]; intros done segs tr Hs.
  - exists 0, Completed. split; [|split; [|split; [|split]]].
    + split; [cbn; lia|]. split; [|reflexivity].
      intros k s H. now destruct k.
    + intros k Hk. lia.
    + exact I.
    + cbn. now rewrite app_nil_r.
    + cbn. now rewrite !app_nil_r.
  - destruct (signal_found_set w playlist (List.length done)) eqn:Hsig.
    { exists 0, CancelledBetweenSegments. rewrite download_loop_cancelled.
      split; [|split; [|split; [|split]]].
      - split; [cbn; lia|]. split; [|cbn; lia].
        intros k s H. now destruct k.
      - intros k Hk. lia.
      - now rewrite Nat.add_0_r.
      - reflexivity.
      - cbn. now rewrite app_nil_r. }
    destruct (failure_of w (List.length done) x) as [e|] eqn:Hf.
    + exists 0, (FetchFailed x e).
      rewrite (download_loop_fails x rest _ segs _ _ tr e Hf).
      rewrite Nat.add_0_r. split; [|split; [|split; [|split]]].
      * split; [cbn; lia|].
        split; [|split; [reflexivity | now rewrite Nat.add_0_r]].
        intros k s H. now destruct k.
      * intros k Hk. lia.
      * exact Hsig.
      * reflexivity.
      * reflexivity.
    + pose proof (download_loop_step x rest (List.length done) segs
                    (bytes_after w playlist (List.length done))
                    (bytes_after w playlist (List.length done)) tr Hf)
        as Hstep.
      cbv zeta in Hstep. rewrite Hstep. clear Hstep.
      rewrite !(bytes_after_next done rest x Hs).
      rewrite <- (signal_found_set_next done rest x Hs).
      assert (Hs' : segments playlist = (done ++ [x]) ++ rest)
        by (rewrite Hs, <- app_assoc; reflexivity).
      specialize (IH (done ++ [x]) (segs ++ [body_of w (List.length done) x])
                    (tr ++ [fetch_called (uri x);
                            onProgress_called
                              {| segmentIndex := List.length done + 1;
                                 totalSegments :=
                                   List.length (segments playlist);
                                 downloadedBytes :=
                                   bytes_after w playlist
                                     (List.length done + 1);
                                 totalBytes :=
                                   bytes_after w playlist
                                     (List.length done + 1);
                                 percentage :=
                                   percentage_at (List.length done)
                                     (List.length (segments playlist)) |}])
                    Hs').
      rewrite length_app in IH. cbn [List.length] in IH.
      destruct IH as (j & en & (Hj & Hpre & Hen) & Hclear & Hend & Hr & Ht).
      exists (S j), en. split; [|split; [|split; [|split]]].
      * split; [cbn; lia|]. split.
        -- intros [|k] s H; cbn in H.
           ++ injection H as <-. now rewrite Nat.add_0_r.
           ++ replace (List.length done + S k)
                with (List.length done + 1 + k) by lia.
              now apply Hpre.
        -- destruct en as [| |s e]; cbn [List.length nth_error];
             try lia.
           replace (List.length done + S j)
             with (List.length done + 1 + j) by lia.
           exact Hen.
      * intros [|k] Hk.
        -- now rewrite Nat.add_0_r.
        -- replace (List.length done + S k)
             with (List.length done + 1 + k) by lia.
           apply Hclear. lia.
      * replace (List.length done + S j)
          with (List.length done + 1 + j) by lia.
        exact Hend.
      * rewrite Hr. destruct en; cbn [loop_result bodies_from];
          try reflexivity.
        now rewrite <- app_assoc.
      * rewrite Ht. cbn [firstn loop_calls].
        rewrite !(bytes_after_next done rest x Hs).
        replace (List.length done + S j)
          with (List.length done + 1 + j) by lia.
        rewrite <- !app_assoc. reflexivity.
Qed.

(** X7.  Whatever the network does and whenever the download is
    cancelled, a run has this shape: the first progress call; then, for
    some [j], the fetch and the progress call of each of the first [j]
    segments, in playlist order, the check before each of them having
    found the abort signal clear; then one of three endings.  Either all
    segments are done and the run returns the concatenation of their
    bodies; or the check before segment [j + 1] finds the signal set and
    the run fails with the cancellation error, with no further call; or
    that check finds the signal clear, the fetch of segment [j + 1] is
    started and fails: with an abort error the run fails with the
    cancellation error and no further call, with any other error the error
    handler is called once and the run throws that error. *)
Theorem downloadM3U8_run_shape (controller : option bool) :
  exists j en,
    ends_at w (segments playlist) 0 j en
    /\ (forall k, k < j -> signal_found_set w playlist k = false)
    /\ match en with
       | Completed => True
       | CancelledBetweenSegments => signal_found_set w playlist j = true
       | FetchFailed _ _ => signal_found_set w playlist j = false
       end
    /\ fst (downloadM3U8 w playlist (idle controller))
       = ending_result w playlist en
    /\ trace (snd (downloadM3U8 w playlist (idle controller)))
       = onProgress_called (initial_progress playlist)
         :: loop_calls w playlist (firstn j (segments playlist)) 0 0 0
         ++ ending_calls j en.
Proof.
  set (tr := [onProgress_called (initial_progress playlist)]).
  destruct (download_loop_checked_shape (segments playlist) [] [] tr eq_refl)
    as (j & en & Hends & Hclear & Hend & Hr & Ht).
  cbn [List.length Nat.add] in Hclear, Hend, Hr, Ht.
  change (bytes_after w playlist 0) with 0 in Hr, Ht.
  exists j, en. split; [exact Hends|]. split; [exact Hclear|].
  split; [exact Hend|].
  assert (E : exists st',
             downloadM3U8 w playlist (idle controller)
             = (ending_result w playlist en, st')
             /\ trace st'
                = tr ++ loop_calls w playlist (firstn j (segments playlist)) 0 0 0
                     ++ ending_calls j en).
  { unfold downloadM3U8, idle.
    unfold bind at 1, new_AbortController. cbn [trace].
    unfold try_catch, bind at 1, onProgress, bind at 1, emit.
    cbn [abortController trace app]. fold (initial_progress playlist).
    fold tr.
    change (progress_handler_cancels w (initial_progress playlist))
      with (signal_found_set w playlist 0).
    assert (E0 : (if signal_found_set w playlist 0
                  then cancelDownload else ret tt)
                   {| abortController := Some false; trace := tr |}
                 = (Normal tt,
                    {| abortController := Some (signal_found_set w playlist 0);
                       trace := tr |}))
      by (destruct (signal_found_set w playlist 0); reflexivity).
    rewrite E0. clear E0. unfold bind at 1.
    destruct (download_loop w playlist (segments playlist) 0 [] 0 0
                {| abortController := Some (signal_found_set w playlist 0);
                   trace := tr |})
      as [c st'] eqn:E.
    cbn [fst snd] in Hr, Ht. subst c. exists st'.
    destruct en as [| |segment e]; cbn [loop_result ending_result app].
    - fold (bodies w playlist). unfold bind at 1.
      rewrite totalLength_concat. cbn [Nat.add].
      rewrite (combine_loop_spec (bodies w playlist) []).
      unfold ret. split; [reflexivity | exact Ht].
    - change (isAbortError CancelledError) with false. unfold throw.
      split; [reflexivity | exact Ht].
    - destruct (isAbortError e) eqn:Ea; unfold throw;
        (split; [reflexivity | exact Ht]). }
  destruct E as (st' & -> & Ht'). cbn [fst snd].
  split; [reflexivity|]. exact Ht'.
Qed.

End MorePipeline.

(* ================================================================== *)
(** * Properties of the handlers of the component *)
(* ================================================================== *)

Section MoreApp.
Import Types VideoDownloader Spec Run MoreRun App.
Local Open Scope nat_scope.

Lemma dropWhile_nil {A} (f : A -> bool) (l : list A) :
  dropWhile f l = [] <-> forallb f l = true.
Proof.
  induction l as [|x l IH]; cbn [dropWhile forallb]; [tauto|].
  destruct (f x); cbn [andb]; [exact IH | split; discriminate].
Qed.

Lemma dropWhile_head {A} (f : A -> bool) (l : list A) :
  forall x rest, dropWhile f l = x :: rest -> f x = false.
Proof.
  induction l as [|y l IH]; intros x rest; cbn [dropWhile]; [discriminate|].
  destruct (f y) eqn:E; [apply IH|].
  intros H. injection H as <- _. exact E.
Qed.

(** Trimming leaves nothing exactly when every character is white space. *)
Lemma trim_nil (s : jsstring) :
  trim s = [] <-> forallb isWhiteSpace s = true.
Proof.
  unfold trim, trimEnd, trimStart. split.
  - intros H. apply dropWhile_nil.
    destruct (dropWhile isWhiteSpace s) as [|x rest] eqn:E; [reflexivity|].
    apply (f_equal (@rev _)) in H. rewrite rev_involutive in H.
    cbn [rev] in H. apply dropWhile_nil in H.
    rewrite forallb_forall in H.
    assert (Hx := dropWhile_head _ _ _ _ E).
    rewrite (H x) in Hx; [discriminate|].
    apply in_or_app. right. now left.
  - intros H. apply dropWhile_nil in H. now rewrite H.
Qed.

Lemma forallb_false_witness {A} (f : A -> bool) (l : list A) :
  forallb f l = false -> exists x, In x l /\ f x = false.
Proof.
  induction l as [|y l IH]; cbn [forallb]; [discriminate|].
  destruct (f y) eqn:E; cbn [andb].
  - intros H. destruct (IH H) as (x & Hin & Hx). exists x. split; [now right | exact Hx].
  - intros _. exists y. split; [now left | exact E].
Qed.

(** Every character of a text other than the separator is in one of the
    pieces. *)
Lemma split_covers (sep c : code_unit) (s : jsstring) :
  In c s -> c <> sep ->
  exists line, In line (split sep s) /\ In c line.
Proof.
  intros Hin Hc. induction s as [|a s IH]; [destruct Hin|].
  cbn [split]. destruct (N.eqb a sep) eqn:E.
  - apply N.eqb_eq in E. destruct Hin as [->|Hin]; [contradiction|].
    destruct (IH Hin) as (line & Hl & Hcl). exists line. split; [now right | exact Hcl].
  - destruct (split sep s) as [|w ws] eqn:Es.
    + destruct Hin as [->|Hin].
      * exists [c]. split; now left.
      * destruct (IH Hin) as (line & [] & _).
    + destruct Hin as [->|Hin].
      * exists (c :: w). split; now left.
      * destruct (IH Hin) as (line & [<-|Hl] & Hcl).
        -- exists (a :: w). split; [now left | now right].
        -- exists line. split; [now right | exact Hcl].
Qed.

(** A text that is not blank has a line that is not blank. *)
Lemma nonblank_has_line (content : jsstring) :
  is_blank content = false -> M3U8Parser.lines_of content <> [].
Proof.
  intros Hb Hl.
  assert (Hf : forallb isWhiteSpace content = false).
  { destruct (forallb isWhiteSpace content) eqn:E; [|reflexivity].
    apply trim_nil in E. unfold is_blank in Hb. now rewrite E in Hb. }
  destruct (forallb_false_witness _ _ Hf) as (c & Hin & Hc).
  destruct (split_covers LF c content Hin) as (line & Hline & Hcl).
  { intros ->. discriminate. }
  assert (Ht : M3U8Parser.truthy (trim line) = true).
  { destruct (trim line) eqn:E; [|reflexivity].
    apply trim_nil in E. rewrite forallb_forall in E.
    rewrite (E c Hcl) in Hc. discriminate. }
  assert (Hi : In (trim line) (M3U8Parser.lines_of content)).
  { unfold M3U8Parser.lines_of. apply filter_In. split; [|exact Ht].
    now apply in_map. }
  rewrite Hl in Hi. destruct Hi.
Qed.

(** The test of [handleUrlSubmit] on the text it received. *)
Lemma empty_response_test (content : jsstring) :
  negb (M3U8Parser.truthy content) || (List.length (trim content) =? 0)
  = is_blank content.
Proof.
  unfold is_blank. destruct content as [|c content]; [reflexivity|].
  cbn [M3U8Parser.truthy negb orb].
  now destruct (trim (c :: content)).
Qed.

Lemma parsePlaylist_rejects (content url : jsstring) :
  is_blank content = false ->
  has_header content = false ->
  M3U8Parser.parsePlaylist content url = Throw FormatError.
Proof.
  intros Hb Hh. apply nonblank_has_line in Hb.
  unfold M3U8Parser.parsePlaylist. cbv zeta.
  rewrite lines_of_nonblank in *. unfold has_header in Hh.
  destruct (nonblank_lines content) as [|line rest]; [contradiction|].
  cbn [map]. now rewrite Hh.
Qed.

Lemma parsePlaylist_segment_count (content url : jsstring) :
  has_header content = true ->
  exists parsed,
    M3U8Parser.parsePlaylist content url = Normal parsed
    /\ List.length (segments parsed) = List.length (reference_lines content).
Proof.
  intros Hh. rewrite (parsePlaylist_accepts url content Hh). cbv zeta.
  eexists. split; [reflexivity|]. cbn [segments].
  assert (Hu := loop_uris url (M3U8Parser.lines_of content) M3U8Parser.initial
                  (lines_of_truthy content)).
  cbn [M3U8Parser.segments M3U8Parser.initial map app] in Hu.
  rewrite <- reference_lines_filter in Hu.
  rewrite <- (length_map uri), Hu. apply length_map.
Qed.

Lemma catch_empty_response :
  handleUrlSubmit_catch (Error (lit "Received empty response from M3U8 URL"))
  = lit "Processing Error: Received empty response from M3U8 URL".
Proof. vm_compute. reflexivity. Qed.

Lemma catch_no_segments :
  handleUrlSubmit_catch (Error (lit "No video segments found in M3U8 playlist"))
  = Invalid_Format_text.
Proof. vm_compute. reflexivity. Qed.

Lemma catch_format_error :
  handleUrlSubmit_catch FormatError = Invalid_Format_text.
Proof. vm_compute. reflexivity. Qed.

(** X14.  What [handleUrlSubmit] makes of a text that it received with an
    [ok] response.  A blank text is reported as an empty response, and is
    not given to the parser.  A text without the header line, and a text
    with the header line and no segment reference, are reported with one
    and the same message.  Any other text is parsed, and its playlist is
    installed with the state [ready] and no error.  (The [true] is the
    result of [isValidM3U8Url]: the address is one that the test
    accepts.) *)
Theorem handleUrlSubmit_on_text (response : TextResponse)
    (content url : jsstring) (c : Component) :
  ok response = true ->
  text response = Normal content ->
  let c' := handleUrlSubmit true (Normal response) url c in
  if is_blank content then
    state c' = AppState.idle /\ playlist c' = None
    /\ error c'
       = Some (lit "Processing Error: Received empty response from M3U8 URL")
  else if negb (has_header content)
          || (List.length (reference_lines content) =? 0) then
    state c' = AppState.idle /\ playlist c' = None
    /\ error c' = Some Invalid_Format_text
  else
    state c' = AppState.ready /\ error c' = None
    /\ exists parsed,
         M3U8Parser.parsePlaylist content url = Normal parsed
         /\ playlist c' = Some parsed.
Proof.
  intros Hok Htext. cbv zeta.
  unfold handleUrlSubmit, handleUrlSubmit_try.
  cbn [negb]. rewrite Hok, Htext. cbn [negb].
  rewrite empty_response_test.
  destruct (is_blank content) eqn:Hb.
  - rewrite catch_empty_response. now repeat split.
  - destruct (has_header content) eqn:Hh; cbn [negb orb].
    + destruct (parsePlaylist_segment_count content url Hh)
        as (parsed & Hp & Hn).
      rewrite Hp, Hn.
      destruct (List.length (reference_lines content) =? 0).
      * rewrite catch_no_segments. now repeat split.
      * split; [reflexivity|]. split; [reflexivity|].
        exists parsed. now split.
    + rewrite (parsePlaylist_rejects content url Hb Hh).
      rewrite catch_format_error. now repeat split.
Qed.

(** X15.  [handleUrlSubmit] ends in one of two ways, whatever the
    environment does.  Either the state is [ready], there is no error, and
    the playlist is what the parser returned on the text of an [ok]
    response to an address that passed the validity test; this playlist
    has at least one segment.  Or the state is [idle], there is no
    playlist, and there is an error message.  The downloaded blob is not
    touched. *)
Theorem handleUrlSubmit_outcome (valid : bool)
    (fetched : completion TextResponse) (url : jsstring) (c : Component) :
  let c' := handleUrlSubmit valid fetched url c in
  downloadedBlob c' = downloadedBlob c
  /\ ((state c' = AppState.ready /\ error c' = None
       /\ exists response content parsed,
            valid = true
            /\ fetched = Normal response
            /\ ok response = true
            /\ text response = Normal content
            /\ M3U8Parser.parsePlaylist content url = Normal parsed
            /\ segments parsed <> []
            /\ playlist c' = Some parsed)
      \/ (state c' = AppState.idle /\ playlist c' = None
          /\ exists message, error c' = Some message)).
Proof.
  cbv zeta. unfold handleUrlSubmit.
  destruct valid; cbn [negb].
  2:{ split; [reflexivity|]. right. split; [reflexivity|].
      split; [reflexivity|]. eexists; reflexivity. }
  destruct (handleUrlSubmit_try fetched url) as [parsed|e] eqn:E.
  2:{ split; [reflexivity|]. right. split; [reflexivity|].
      split; [reflexivity|]. eexists; reflexivity. }
  split; [reflexivity|]. left. split; [reflexivity|]. split; [reflexivity|].
  unfold handleUrlSubmit_try in E.
  destruct fetched as [response|e]; [|discriminate].
  destruct (ok response) eqn:Hok; cbn [negb] in E; [|discriminate].
  destruct (text response) as [content|e] eqn:Htext; [|discriminate].
  destruct (negb (M3U8Parser.truthy content)
            || (List.length (trim content) =? 0)); [discriminate|].
  destruct (M3U8Parser.parsePlaylist content url) as [parsed'|e] eqn:Hp;
    [|discriminate].
  destruct (List.length (segments parsed') =? 0) eqn:Hn; [discriminate|].
  injection E as ->.
  exists response, content, parsed.
  split; [reflexivity|]. split; [reflexivity|]. split; [exact Hok|].
  split; [exact Htext|]. split; [exact Hp|]. split; [|reflexivity].
  intros Hs. rewrite Hs in Hn. discriminate.
Qed.

(** ** [handleDownload] *)

Lemma onError_calls_keeps (calls : list Event) :
  forall c,
    state (onError_calls calls c) = state c
    /\ playlist (onError_calls calls c) = playlist c
    /\ downloadedBlob (onError_calls calls c) = downloadedBlob c.
Proof.
  induction calls as [|call calls IH]; intros c; [now repeat split|].
  unfold onError_calls in *. cbn [fold_left].
  destruct call; try apply IH.
  destruct (IH (setError (Some error0) c)) as (H1 & H2 & H3).
  rewrite H1, H2, H3. now repeat split.
Qed.

Lemma onError_calls_none (calls : list Event) :
  forall c, error_events calls = [] -> onError_calls calls c = c.
Proof.
  induction calls as [|call calls IH]; intros c H; [reflexivity|].
  unfold onError_calls, error_events in *. cbn [fold_left flat_map] in *.
  destruct call; cbn [app] in H; try discriminate; now apply IH.
Qed.

(** A run that returns a blob has not called the error handler. *)
Lemma returned_run_is_silent (w : World) (parsed : M3U8Playlist)
    (controller : option bool) (blob : Blob) :
  fst (downloadM3U8 w parsed (idle controller)) = Normal blob ->
  error_events (trace (snd (downloadM3U8 w parsed (idle controller)))) = [].
Proof.
  destruct (downloadM3U8_shape w parsed controller)
    as (j & en & _ & Hr & Ht).
  rewrite Hr, Ht. intros H.
  destruct (fetches_of_loop_calls w parsed (firstn j (segments parsed)) 0 0 0)
    as [_ He].
  unfold error_events in *. cbn [flat_map app]. rewrite flat_map_app, He.
  destruct en as [| |s e]; [reflexivity | discriminate | discriminate].
Qed.

Lemma handleDownload_catch_head (e : thrown) :
  exists first rest,
    handleDownload_catch e = first :: rest /\ first <> 69%N.
Proof.
  unfold handleDownload_catch.
  destruct (includes _ (lit "cancelled")).
  - eexists _, _. split; [reflexivity | discriminate].
  - destruct (includes _ (lit "Failed to fetch") || includes _ (lit "NetworkError")).
    + eexists _, _. split; [reflexivity | discriminate].
    + eexists _, _. split; [reflexivity | discriminate].
Qed.

(** X16.  What [handleDownload] leaves, on a component that has a
    playlist.  When the run returns a blob, the state is [completed], the
    blob is stored, and the error is as before the call.  When the run
    throws, the state is [ready] and the error is the message that the
    [catch] block makes of what was thrown; this is never the message that
    the run gave to its error handler, which is overwritten. *)
Theorem handleDownload_outcome (net : nat -> jsstring -> Settled)
    (c : Component) (parsed : M3U8Playlist) (controller : option bool) :
  playlist c = Some parsed ->
  let c' := fst (handleDownload net c (idle controller)) in
  playlist c' = Some parsed
  /\ match fst (downloadM3U8 (app_world net) parsed (idle controller)) with
     | Normal blob =>
         state c' = AppState.completed
         /\ downloadedBlob c' = Some blob
         /\ error c' = error c
     | Throw e =>
         state c' = AppState.ready
         /\ downloadedBlob c' = downloadedBlob c
         /\ error c' = Some (handleDownload_catch e)
         /\ forall k e0, error c' <> Some (segment_error_message k e0)
     end.
Proof.
  intros Hp. cbv zeta. unfold handleDownload. rewrite Hp.
  cbn [idle trace List.length skipn].
  assert (Hsilent := returned_run_is_silent (app_world net) parsed controller).
  destruct (downloadM3U8 (app_world net) parsed (idle controller))
    as [[blob|e] st'] eqn:E; cbn [fst snd] in *.
  - rewrite (onError_calls_none _ _ (Hsilent blob eq_refl)).
    cbn. now repeat split.
  - destruct (onError_calls_keeps (trace st') (setState AppState.downloading c))
      as (H1 & H2 & H3).
    cbn [state playlist error downloadedBlob setState setError].
    rewrite H2, H3. cbn [playlist downloadedBlob setState].
    split; [exact Hp|]. repeat (split; [reflexivity|]).
    intros k e0 H. injection H as H.
    destruct (handleDownload_catch_head e) as (first & rest & Hc & Hne).
    rewrite Hc in H. unfold segment_error_message in H.
    change (lit "Error downloading segment ")
      with (69%N :: lit "rror downloading segment ") in H.
    cbn [app] in H. injection H as H _. contradiction.
Qed.

(** X17.  When the run fails with the cancellation error of the
    downloader, the component shows that the download was cancelled: the
    word that [handleDownload] looks for is in the message of that
    error. *)
Theorem handleDownload_cancelled (net : nat -> jsstring -> Settled)
    (c : Component) (parsed : M3U8Playlist) (controller : option bool) :
  playlist c = Some parsed ->
  fst (downloadM3U8 (app_world net) parsed (idle controller))
  = Throw CancelledError ->
  let c' := fst (handleDownload net c (idle controller)) in
  state c' = AppState.ready
  /\ error c' = Some (lit "Download was cancelled by user").
Proof.
  intros Hp Hr. cbv zeta. unfold handleDownload. rewrite Hp.
  cbn [idle trace List.length skipn].
  destruct (downloadM3U8 (app_world net) parsed (idle controller))
    as [r st'] eqn:E; cbn [fst snd] in *. subst r.
  split; reflexivity.
Qed.

End MoreApp.

(* ================================================================== *)
(** * The further properties on sample inputs *)
(* ================================================================== *)

Section MoreInstances.
Import Types VideoDownloader Spec Run More MoreRun.
Local Open Scope nat_scope.

Lemma parsePlaylist_durations_nonnegative_witness :
  Forall (fun seg => nonnegative_or_NaN (duration seg) = true)
         (segments long_playlist)
  /\ nonnegative_or_NaN (totalDuration long_playlist) = true.
Proof.
  apply (parsePlaylist_durations_nonnegative example_base long_text
           long_playlist).
  vm_compute; reflexivity.
Defined.

Lemma parsePlaylist_header_fields_witness :
  version long_playlist
  = declared VERSION_tag parseInt (of_Z 1) (M3U8Parser.lines_of long_text)
  /\ targetDuration long_playlist
     = declared TARGETDURATION_tag parseFloat zero
         (M3U8Parser.lines_of long_text)
  /\ mediaSequence long_playlist
     = declared MEDIA_SEQUENCE_tag parseInt zero
         (M3U8Parser.lines_of long_text).
Proof.
  apply (parsePlaylist_header_fields example_base long_text long_playlist).
  vm_compute; reflexivity.
Defined.

(** The third segment of the sample comes after a duration line that the
    pattern does not match, and gets the 4 of the line before that. *)
Lemma parsePlaylist_segment_duration_witness :
  let pre := firstn 11 (M3U8Parser.lines_of long_text) in
  let line := lit "https://cdn.example/seg3.ts" in
  pending_duration pre = of_Z 4
  /\ exists playlist seg,
       M3U8Parser.parsePlaylist long_text example_base = Normal playlist
       /\ nth_error (segments playlist)
                    (List.length (filter is_reference pre)) = Some seg
       /\ duration seg = pending_duration pre
       /\ uri seg = M3U8Parser.resolveUrl line example_base.
Proof.
  split; [vm_compute; reflexivity|].
  apply (parsePlaylist_segment_duration example_base long_text
           (firstn 11 (M3U8Parser.lines_of long_text))
           (lit "https://cdn.example/seg3.ts")
           (skipn 12 (M3U8Parser.lines_of long_text))).
  - vm_compute; reflexivity.
  - vm_compute; reflexivity.
  - vm_compute; reflexivity.
Defined.

Lemma parsePlaylist_ignores_comment_witness :
  M3U8Parser.parsePlaylist long_text example_base
  = M3U8Parser.parsePlaylist long_text_without_comment example_base.
Proof.
  apply (parsePlaylist_ignores_comment example_base long_text
           long_text_without_comment
           (firstn 6 (M3U8Parser.lines_of long_text))
           (lit "# a comment")
           (skipn 7 (M3U8Parser.lines_of long_text))).
  - vm_compute; reflexivity.
  - vm_compute; reflexivity.
  - vm_compute; discriminate.
  - vm_compute; reflexivity.
Defined.

Lemma parsePlaylist_uris_absolute_witness :
  Forall (fun seg => M3U8Parser.isAbsolute (uri seg) = true)
         (segments long_playlist).
Proof.
  apply (parsePlaylist_uris_absolute example_base long_text long_playlist).
  - vm_compute; reflexivity.
  - vm_compute; reflexivity.
Defined.

Lemma downloadM3U8_aborted_in_flight_witness :
  fst (downloadM3U8 aborting_world example_playlist (idle None))
  = Throw CancelledError
  /\ trace (snd (downloadM3U8 aborting_world example_playlist (idle None)))
     = onProgress_called (initial_progress example_playlist)
       :: loop_calls aborting_world example_playlist [example_segment1] 0 0 0
       ++ [fetch_called (uri example_segment2)].
Proof.
  apply (downloadM3U8_aborted_in_flight aborting_world example_playlist None
           [example_segment1] [] example_segment2 AbortError).
  - reflexivity.
  - intros progress; reflexivity.
  - intros [|[|j]] segment H; simpl in H; try discriminate. reflexivity.
  - reflexivity.
  - reflexivity.
Defined.

Lemma downloadM3U8_cancel_takes_effect_at_next_segment_witness :
  fst (downloadM3U8 late_cancel_world example_playlist (idle None))
  = Throw CancelledError
  /\ trace (snd (downloadM3U8 late_cancel_world example_playlist (idle None)))
     = onProgress_called (initial_progress example_playlist)
       :: loop_calls late_cancel_world example_playlist [] 0 0 0
       ++ [fetch_called (uri example_segment1);
           onProgress_called
             (progress_at late_cancel_world example_playlist (0 + 1))].
Proof.
  apply (downloadM3U8_cancel_takes_effect_at_next_segment late_cancel_world
           example_playlist None [] [example_segment2] example_segment1).
  - reflexivity.
  - intros [|j] segment H; simpl in H; discriminate.
  - intros k _; reflexivity.
  - reflexivity.
  - reflexivity.
Defined.

(** On [accepted_url], an address that passes the validity test. *)
Lemma handleUrlSubmit_on_text_witness :
  let c' := App.handleUrlSubmit true (Normal (text_response example_text))
              accepted_url fresh_component in
  App.state c' = App.AppState.ready /\ App.error c' = None
  /\ exists parsed,
       M3U8Parser.parsePlaylist example_text accepted_url = Normal parsed
       /\ App.playlist c' = Some parsed.
Proof.
  exact (handleUrlSubmit_on_text (text_response example_text) example_text
           accepted_url fresh_component eq_refl eq_refl).
Defined.

Lemma handleDownload_outcome_witness :
  let c' := fst (App.handleDownload (network serving_world) ready_component
                   (idle None)) in
  App.playlist c' = Some example_playlist
  /\ App.state c' = App.AppState.completed
  /\ App.downloadedBlob c'
     = Some {| bytes := [x01; x02; x03]; type := lit "video/mp4" |}
  /\ App.error c' = None.
Proof.
  exact (handleDownload_outcome (network serving_world) ready_component
           example_playlist None eq_refl).
Defined.

Lemma handleDownload_cancelled_witness :
  let c' := fst (App.handleDownload aborting_network ready_component
                   (idle None)) in
  App.state c' = App.AppState.ready
  /\ App.error c' = Some (lit "Download was cancelled by user").
Proof.
  apply (handleDownload_cancelled aborting_network ready_component
           example_playlist None).
  - reflexivity.
  - vm_compute; reflexivity.
Defined.

End MoreInstances.
